(** * csvq: a relational-algebra engine over typed tuples

    A shallow embedding of the operators of [csvq] (relation.py, algebra.py,
    structure.py, functional.py, aggregate.py, api.py) and the properties
    their specification states about them.

    Conventions of the embedding:
    - a Python exception is a value of [exn]; code that may raise returns
      [result];
    - an iterator over a terminating source is the list of tuples it has yet
      to yield, [next] pops its head;
    - a class is a [Module] holding a record of the instance attributes and
      one definition per method, under the method's own name;
    - a [dict] with string keys is a [gmap string _], a [set] is a [gset];
      a [dict] keyed by tuples of values is an association list searched
      with Python's [==], since [1 == 1.0] identifies keys that are not
      syntactically equal. *)

From Stdlib Require Import ZArith QArith List String Floats Lia Bool Sorted.
From stdpp Require Import gmap strings list fin_maps.
Import ListNotations.

Close Scope Q_scope.
Local Open Scope string_scope.
Local Open Scope list_scope.
Local Open Scope nat_scope.

(** ** Exceptions and results *)

Inductive exn : Set :=
| KeyError | TypeError | RuntimeError | IndexError | OverflowError | ZeroDivisionError.

Inductive result (A : Type) : Type :=
| Ok (a : A)
| Raise (e : exn).
Arguments Ok {A} a.
Arguments Raise {A} e.

#[global] Instance result_ret : MRet result := fun _ a => Ok a.
#[global] Instance result_bind : MBind result := fun _ _ f m =>
  match m with Ok a => f a | Raise e => Raise e end.

(** [[f(x) for x in xs]] and [for x in xs: s = f(s, x)], where [f] may
    raise: the first exception stops the loop and propagates. *)
Fixpoint comprehension {A B : Type} (f : A -> result B) (xs : list A) : result (list B) :=
  match xs with
  | [] => Ok []
  | x :: xs' => y ← f x; ys ← comprehension f xs'; Ok (y :: ys)
  end.

Fixpoint for_loop {A S : Type} (f : S -> A -> result S) (s : S) (xs : list A) : result S :=
  match xs with
  | [] => Ok s
  | x :: xs' => s' ← f s x; for_loop f s' xs'
  end.

(** ** Scalar values and column types *)

(** The three column types: the Python type objects [str], [int], [float]. *)
Inductive pytype : Set := Tstr | Tint | Tfloat.

#[global] Instance pytype_eq_dec : EqDecision pytype.
Proof. solve_decision. Defined.

Inductive Value : Type :=
| VStr (s : string)
| VInt (z : Z)
| VFloat (f : float).

Abbreviation tuple := (list Value) (only parsing).

(** [t[i]] for a non-negative [i]. *)
Definition getitem {A : Type} (t : list A) (i : nat) : result A :=
  match t !! i with
  | Some v => Ok v
  | None => Raise IndexError
  end.

(** [u[i] = v] on a Python list. *)
Definition setitem {A : Type} (u : list A) (i : nat) (v : A) : result (list A) :=
  if decide (i < length u) then Ok (<[i := v]> u) else Raise IndexError.

(** ** Iteration *)

Abbreviation iterator := (list (list Value)) (only parsing).

(** [next(itr, None)] *)
Definition next (itr : iterator) : option (tuple * iterator) :=
  match itr with
  | [] => None
  | t :: itr' => Some (t, itr')
  end.

(** One call of an operator's [__next__]: a tuple and the operator's new
    state, the end of the iteration, or an exception. *)
Inductive step (S : Type) : Type :=
| Yield (t : tuple) (s : S)
| StopIteration
| Raised (e : exn).
Arguments Yield {S} t s.
Arguments StopIteration {S}.
Arguments Raised {S} e.

Inductive outcome : Set :=
| Exhausted
| Failed (e : exn)
| Pending.

(** Driving an iterator to its end, as [for t in relation] does: the tuples
    yielded, and how the iteration ended. [Pending] is returned only when
    [fuel] calls were not enough. *)
Fixpoint drain {S : Type} (nxt : S -> step S) (fuel : nat) (s : S) : list tuple * outcome :=
  match fuel with
  | O => ([], Pending)
  | S fuel' =>
      match nxt s with
      | Yield t s' => let (ts, o) := drain nxt fuel' s' in (t :: ts, o)
      | StopIteration => ([], Exhausted)
      | Raised e => ([], Failed e)
      end
  end.

(** ** Python's [==] and [<] on scalar values and tuples *)

(** Numbers are compared by the real number they denote: Python compares an
    [int] with a [float] exactly, and IEEE 754 comparison of two doubles is
    comparison of their values, NaN being unordered and unequal to
    everything, itself included. *)
Inductive xreal : Type :=
| XNaN
| XNegInf
| XFinite (q : Q)
| XPosInf.

Definition float_value (f : float) : xreal :=
  match Prim2SF f with
  | S754_zero _ => XFinite (0 # 1)
  | S754_infinity s => if s then XNegInf else XPosInf
  | S754_nan => XNaN
  | S754_finite s m e =>
      XFinite (Qmult (inject_Z (if s then Z.neg m else Z.pos m)) (Qpower (2 # 1) e))
  end.

Definition xreal_eqb (a b : xreal) : bool :=
  match a, b with
  | XFinite p, XFinite q => Qeq_bool p q
  | XNegInf, XNegInf => true
  | XPosInf, XPosInf => true
  | _, _ => false
  end.

Definition xreal_ltb (a b : xreal) : bool :=
  match a, b with
  | XNaN, _ | _, XNaN => false
  | XNegInf, XNegInf => false
  | XNegInf, _ => true
  | XFinite p, XFinite q => negb (Qle_bool q p)
  | XFinite _, XPosInf => true
  | _, _ => false
  end.

Definition number (v : Value) : option xreal :=
  match v with
  | VStr _ => None
  | VInt z => Some (XFinite (inject_Z z))
  | VFloat f => Some (float_value f)
  end.

(** [v == w] on two scalar values. *)
Definition py_eq (v w : Value) : bool :=
  match v, w with
  | VStr s, VStr s' => String.eqb s s'
  | _, _ =>
      match number v, number w with
      | Some a, Some b => xreal_eqb a b
      | _, _ => false
      end
  end.

(** [v < w]: ordering a string against a number is a [TypeError]. *)
Definition py_lt (v w : Value) : result bool :=
  match v, w with
  | VStr s, VStr s' => Ok (String.ltb s s')
  | _, _ =>
      match number v, number w with
      | Some a, Some b => Ok (xreal_ltb a b)
      | _, _ => Raise TypeError
      end
  end.

(** A NaN is the one value that is not equal to itself. *)
Definition is_NaN (v : Value) : bool :=
  match number v with
  | Some XNaN => true
  | _ => false
  end.

Definition nan_free (t : tuple) : bool := forallb (fun v => negb (is_NaN v)) t.

(** Tuples: equal when they have the same length and equal items; ordered
    by the first pair of items that are not equal, a proper prefix coming
    first. Where the interpreter compares the items of two tuples, or a key
    with the keys of a [dict], it takes an item to be equal to itself
    without calling [==] on it ([x is y or x == y]): an [object] is a value
    at an address, and [tuple_eq_of_objects] and [tuple_lt_of_objects] are
    the interpreter's comparisons of tuples of objects. *)
Record object : Type := mk_object { address : N; content : Value }.

Definition item_eq (x y : object) : bool :=
  (address x =? address y)%N || py_eq (content x) (content y).

Fixpoint tuple_eq_of_objects (a b : list object) : bool :=
  match a, b with
  | [], [] => true
  | x :: a', y :: b' => item_eq x y && tuple_eq_of_objects a' b'
  | _, _ => false
  end.

Fixpoint tuple_lt_of_objects (a b : list object) : result bool :=
  match a, b with
  | [], [] => Ok false
  | [], _ :: _ => Ok true
  | _ :: _, [] => Ok false
  | x :: a', y :: b' =>
      if item_eq x y then tuple_lt_of_objects a' b' else py_lt (content x) (content y)
  end.

(** One address holds one value. *)
Definition coherent (heap : list object) : Prop :=
  forall x y : object, In x heap -> In y heap -> address x = address y -> content x = content y.

(** The tuples of the operators below are tuples of values, which do not
    record the addresses. [tuple_eq] and [tuple_lt] compare the items by
    value: they are the interpreter's comparisons of tuples that hold no
    NaN, whatever objects the tuples share, since every other value is
    equal to itself ([tuples_without_NaN_compare_by_value] below). Of two
    tuples that hold a NaN at the same place the interpreter's comparison
    depends on whether it is the same object; the statements that rest on
    [tuple_eq] or [tuple_lt] are about tuples without NaN. *)
Fixpoint tuple_eq (a b : tuple) : bool :=
  match a, b with
  | [], [] => true
  | x :: a', y :: b' => py_eq x y && tuple_eq a' b'
  | _, _ => false
  end.

Fixpoint tuple_lt (a b : tuple) : result bool :=
  match a, b with
  | [], [] => Ok false
  | [], _ :: _ => Ok true
  | _ :: _, [] => Ok false
  | x :: a', y :: b' => if py_eq x y then tuple_lt a' b' else py_lt x y
  end.

(** [enumerate(l)] *)
Definition enumerate {A : Type} (l : list A) : list (nat * A) :=
  combine (seq 0 (length l)) l.

(** ** relation.py *)

Module Attribute.
Record t : Type := mk { _name : string; _type : pytype }.

Definition __init__ (name : string) (type : pytype) : t := mk name type.
Definition name (self : t) : string := _name self.
Definition type (self : t) : pytype := _type self.

Definition __eq__ (self other : t) : bool :=
  bool_decide (_name self = _name other) && bool_decide (_type self = _type other).
End Attribute.

#[global] Instance Attribute_eq_dec : EqDecision Attribute.t.
Proof. solve_decision. Defined.

Arguments Attribute.name : simpl never.
Arguments Attribute.type : simpl never.

Module Relation.
(** [_attributes] and [_index] are the fields of the base class;
    [__iter__] is the iterator that [iter(self)] returns. *)
Record t : Type := mk {
  _attributes : list Attribute.t;
  _index : gmap string nat;
  __iter__ : iterator
}.

(** [{a.name(): i for (i, a) in enumerate(attributes)}]: a later column
    overwrites an earlier one of the same name. *)
Fixpoint index_from (i : nat) (attributes : list Attribute.t) (d : gmap string nat)
  : gmap string nat :=
  match attributes with
  | [] => d
  | a :: rest => index_from (S i) rest (<[Attribute.name a := i]> d)
  end.

Definition make_index (attributes : list Attribute.t) : gmap string nat :=
  index_from 0 attributes ∅.

Definition __init__ (attributes : list Attribute.t) (index : option (gmap string nat))
           (itr : iterator) : t :=
  match index with
  | None => mk attributes (make_index attributes) itr
  | Some d => mk attributes d itr
  end.

Definition n_attributes (self : t) : nat := length (_attributes self).
Definition attributes (self : t) : list Attribute.t := _attributes self.
Definition names (self : t) : list string := map Attribute.name (_attributes self).
Definition types (self : t) : list pytype := map Attribute.type (_attributes self).

Definition lookup_index (d : gmap string nat) (name : string) : result nat :=
  match d !! name with
  | Some i => Ok i
  | None => Raise KeyError
  end.

Definition index (self : t) (name : string) : result nat :=
  lookup_index (_index self) name.

Definition attribute (self : t) (name : string) : result Attribute.t :=
  i ← index self name; getitem (_attributes self) i.

Definition type (self : t) (name : string) : result pytype :=
  a ← attribute self name; Ok (Attribute.type a).
End Relation.

Module Row.
(** A row keeps a reference to its relation only to resolve names, so the
    reference is represented by the relation's [_index]. *)
Record t : Type := mk { _relation : gmap string nat; _row_data : tuple }.

Definition __getitem__ (self : t) (index : nat) : result Value :=
  getitem (_row_data self) index.

Definition __call__ (self : t) (name : string) : result Value :=
  i ← Relation.lookup_index (_relation self) name; __getitem__ self i.
End Row.

(** ** algebra.py *)

Module Selection.
Record t : Type := mk {
  _attributes : list Attribute.t;
  _index : gmap string nat;
  _itr : iterator;
  _predicate : Row.t -> bool
}.

Definition __init__ (in_relation : Relation.t) (predicate : Row.t -> bool) : t :=
  mk (Relation._attributes in_relation) (Relation._index in_relation)
     (Relation.__iter__ in_relation) predicate.

(** The [while True] loop of [__next__]: draw from the input until a tuple
    satisfies the predicate. *)
Fixpoint search (index : gmap string nat) (predicate : Row.t -> bool) (itr : iterator)
  : option (tuple * iterator) :=
  match itr with
  | [] => None
  | t :: itr' =>
      if predicate (Row.mk index t) then Some (t, itr')
      else search index predicate itr'
  end.

Definition __next__ (self : t) : step t :=
  match search (_index self) (_predicate self) (_itr self) with
  | Some (t, itr') => Yield t (mk (_attributes self) (_index self) itr' (_predicate self))
  | None => StopIteration
  end.
End Selection.

Module Rename.
Record t : Type := mk {
  _attributes : list Attribute.t;
  _index : gmap string nat;
  _itr : iterator
}.

(** The body of the loop over the input's attributes: the [try] branch
    when the name is a key of [substitutions], the [except KeyError]
    branch otherwise. *)
Definition rename_attribute (substitutions : gmap string string) (a : Attribute.t)
  : Attribute.t :=
  match substitutions !! Attribute.name a with
  | Some new_name => Attribute.__init__ new_name (Attribute.type a)
  | None => a
  end.

(** No duplicate is looked for: nothing in the constructor raises. *)
Definition __init__ (in_relation : Relation.t) (substitutions : gmap string string)
  : result t :=
  let renamed := map (rename_attribute substitutions) (Relation._attributes in_relation) in
  Ok (mk renamed (Relation.make_index renamed) (Relation.__iter__ in_relation)).

Definition __next__ (self : t) : step t :=
  match next (_itr self) with
  | Some (t, itr') => Yield t (mk (_attributes self) (_index self) itr')
  | None => StopIteration
  end.
End Rename.

Module HashNaturalJoin.
(** [_right_hash]: a dict from key tuples to the list of build tuples
    with that key. *)
Abbreviation hash_table := (list (list Value * list (list Value))) (only parsing).

Fixpoint lookup (key : tuple) (d : hash_table) : option (list tuple) :=
  match d with
  | [] => None
  | (k, v) :: d' => if tuple_eq k key then Some v else lookup key d'
  end.

(** [try: v = d[key] except KeyError: v = []; d[key] = v] followed by
    [v.append(t)], the list [v] being the one stored in the dict. *)
Fixpoint append (key : tuple) (t : tuple) (d : hash_table) : hash_table :=
  match d with
  | [] => [(key, [t])]
  | (k, v) :: d' =>
      if tuple_eq k key then (k, v ++ [t]) :: d' else (k, v) :: append key t d'
  end.

Record t : Type := mk {
  _attributes : list Attribute.t;
  _index : gmap string nat;
  _idx_right : list nat;
  _left_key : list nat;
  _right_hash : hash_table;
  _itr : iterator
}.

(** The three lists the first loop of [__init__] grows. *)
Record scan : Type := mk_scan {
  attr_union : list Attribute.t;
  idx_right : list nat;
  attr_intersection : list Attribute.t
}.

Definition scan_attribute (left : Relation.t) (left_names : gset string)
           (s : scan) (ir : nat * Attribute.t) : result scan :=
  let (i, r) := ir in
  if bool_decide (Attribute.name r ∉ left_names) then
    Ok (mk_scan (attr_union s ++ [r]) (idx_right s ++ [i]) (attr_intersection s))
  else
    la ← Relation.attribute left (Attribute.name r);
    if bool_decide (Attribute.type r ≠ Attribute.type la) then Raise TypeError
    else Ok (mk_scan (attr_union s) (idx_right s) (attr_intersection s ++ [r])).

(** [tuple( t[i] for i in key )] *)
Definition project (key : list nat) (t : tuple) : result tuple :=
  comprehension (getitem t) key.

Definition hash_tuple (right_key : list nat) (d : hash_table) (t : tuple)
  : result hash_table :=
  key ← project right_key t; Ok (append key t d).

Definition __init__ (left right : Relation.t) : result t :=
  let left_names : gset string := list_to_set (Relation.names left) in
  s ← for_loop (scan_attribute left left_names)
            (mk_scan (Relation.attributes left) [] [])
            (enumerate (Relation.attributes right));
  left_key ← comprehension (fun a => Relation.index left (Attribute.name a)) (attr_intersection s);
  right_key ← comprehension (fun a => Relation.index right (Attribute.name a)) (attr_intersection s);
  right_hash ← for_loop (hash_tuple right_key) [] (Relation.__iter__ right);
  Ok (mk (attr_union s) (Relation.make_index (attr_union s)) (idx_right s)
         left_key right_hash (Relation.__iter__ left)).

Definition _join_row (self : t) (l r : tuple) : result tuple :=
  j ← comprehension (getitem r) (_idx_right self); Ok (l ++ j).

(** [for r in rs: yield self._join_row( l, r )]: the tuples yielded, and
    the exception that interrupted the loop, if any. *)
Fixpoint join_rows (self : t) (l : tuple) (rs : list tuple) : list tuple * option exn :=
  match rs with
  | [] => ([], None)
  | r :: rs' =>
      match _join_row self l r with
      | Ok j => let (ts, e) := join_rows self l rs' in (j :: ts, e)
      | Raise e => ([], Some e)
      end
  end.

(** How the generator ends when [next(self._itr)] raises [StopIteration]
    inside it: the interpreters the code was written for end the
    generator (with a deprecation warning, as the FIXME of
    [test_natural_join] reports); since PEP 479 became the default the
    exception is turned into a [RuntimeError]. *)
Definition generator_stop (pep479 : bool) : outcome :=
  if pep479 then Failed RuntimeError else Exhausted.

(** The generator [__iter__], run on what is left of the probe side. *)
Fixpoint generate (pep479 : bool) (self : t) (itr : iterator) : list tuple * outcome :=
  match itr with
  | [] => ([], generator_stop pep479)
  | l :: itr' =>
      match project (_left_key self) l with
      | Raise e => ([], Failed e)
      | Ok key =>
          match lookup key (_right_hash self) with
          | None => generate pep479 self itr'
          | Some rs =>
              match join_rows self l rs with
              | (ts, Some e) => (ts, Failed e)
              | (ts, None) => let (ts', o) := generate pep479 self itr' in (ts ++ ts', o)
              end
          end
      end
  end.

Definition __iter__ (pep479 : bool) (self : t) : list tuple * outcome :=
  generate pep479 self (_itr self).
End HashNaturalJoin.

(** ** structure.py *)

Module HCat.
Record t : Type := mk {
  _attributes : list Attribute.t;
  _index : gmap string nat;
  _itrs : list iterator
}.

(** [name_type] is an [OrderedDict]: an association list in insertion
    order, in which a name is inserted only when it is absent. *)
Definition add_name (r : Relation.t) (name_type : list (string * pytype)) (n : string)
  : result (list (string * pytype)) :=
  if bool_decide (n ∈ map fst name_type) then Raise TypeError
  else ty ← Relation.type r n; Ok (name_type ++ [(n, ty)]).

Definition add_relation (name_type : list (string * pytype)) (r : Relation.t)
  : result (list (string * pytype)) :=
  for_loop (add_name r) name_type (Relation.names r).

Definition __init__ (r1 r2 : Relation.t) (rest : list Relation.t) : result t :=
  let relations := r1 :: r2 :: rest in
  name_type ← for_loop add_relation [] relations;
  let attrs := map (fun nt => Attribute.__init__ (fst nt) (snd nt)) name_type in
  Ok (mk attrs (Relation.make_index attrs) (map Relation.__iter__ relations)).

Definition is_None {A : Type} (o : option A) : bool :=
  match o with None => true | Some _ => false end.

Definition __next__ (self : t) : step t :=
  let ts := map next (_itrs self) in
  let stopped := map is_None ts in
  if existsb id stopped then
    if negb (forallb id stopped) then Raised RuntimeError
    else StopIteration
  else
    Yield (concat (map (fun o => match o with Some (t, _) => t | None => [] end) ts))
          (mk (_attributes self) (_index self)
              (map (fun o => match o with Some (_, itr') => itr' | None => [] end) ts)).
End HCat.

#[global] Instance pytype_countable : Countable pytype.
Proof.
  refine (inj_countable'
            (fun ty => match ty with Tstr => 0 | Tint => 1 | Tfloat => 2 end)
            (fun n => match n with 0 => Tstr | 1 => Tint | _ => Tfloat end) _).
  intros []; reflexivity.
Defined.

#[global] Instance Attribute_countable : Countable Attribute.t.
Proof.
  refine (inj_countable'
            (fun a => (Attribute._name a, Attribute._type a))
            (fun p => Attribute.mk (fst p) (snd p)) _).
  intros []; reflexivity.
Defined.

Module VCat.
(** [_itr] is [itertools.chain.from_iterable] over the inputs' iterators:
    the iterators not yet exhausted, the current one first. *)
Record t : Type := mk {
  _attributes : list Attribute.t;
  _index : gmap string nat;
  _itr : list iterator
}.

Definition __init__ (r1 r2 : Relation.t) (rest : list Relation.t) : result t :=
  let relations := r1 :: r2 :: rest in
  let attr_set : gset Attribute.t := list_to_set (Relation.attributes r1) in
  if forallb (fun r => bool_decide (attr_set = list_to_set (Relation.attributes r)))
             (r2 :: rest)
  then Ok (mk (Relation.attributes r1) (Relation.make_index (Relation.attributes r1))
              (map Relation.__iter__ relations))
  else Raise TypeError.

(** [next] of the chain: skip the exhausted iterators, then draw from the
    first one that still yields. *)
Fixpoint chain_next (itrs : list iterator) : option (tuple * list iterator) :=
  match itrs with
  | [] => None
  | itr :: itrs' =>
      match next itr with
      | Some (t, itr') => Some (t, itr' :: itrs')
      | None => chain_next itrs'
      end
  end.

Definition __next__ (self : t) : step t :=
  match chain_next (_itr self) with
  | Some (t, itrs') => Yield t (mk (_attributes self) (_index self) itrs')
  | None => StopIteration
  end.
End VCat.

(** ** functional.py *)

Module Update.
Record t : Type := mk {
  _attributes : list Attribute.t;
  _index : gmap string nat;
  _itr : iterator;
  _idx : list nat;
  _fs : list (Row.t -> Value)
}.

(** [fd] is a dict from column names to functions of a row: a list of
    items in the dict's iteration order, with pairwise distinct keys. *)
Definition __init__ (in_relation : Relation.t) (fd : list (string * (Row.t -> Value)))
  : result t :=
  idx ← comprehension (Relation.lookup_index (Relation._index in_relation)) (map fst fd);
  Ok (mk (Relation._attributes in_relation) (Relation._index in_relation)
         (Relation.__iter__ in_relation) idx (map snd fd)).

(** [tprime[self._idx[i]] = f( Row( self, t ) )] *)
Definition assign (self : t) (t : tuple) (tprime : list Value) (i_f : nat * (Row.t -> Value))
  : result (list Value) :=
  let (i, f) := i_f in
  let v := f (Row.mk (_index self) t) in
  j ← getitem (_idx self) i;
  setitem tprime j v.

Definition __next__ (self : t) : step t :=
  match next (_itr self) with
  | None => StopIteration
  | Some (t, itr') =>
      match for_loop (assign self t) t (enumerate (_fs self)) with
      | Ok tprime =>
          Yield tprime (mk (_attributes self) (_index self) itr' (_idx self) (_fs self))
      | Raise e => Raised e
      end
  end.
End Update.

(** ** aggregate.py *)

(** [float(z)] for a Python [int]: the nearest double, ties to even, and
    [OverflowError] when [z] would round beyond the largest double, that is
    from [2^1024 - 2^970] on in magnitude. *)
Definition float_max_int : Z := 2 ^ 1024 - 2 ^ 970.

Definition double (z : Z) : float := SF2Prim (binary_normalize prec emax z 0 false).

Definition float_of_int (z : Z) : result float :=
  if (Z.abs z <? float_max_int)%Z then Ok (double z) else Raise OverflowError.

(** The operand of a float operation: an [int] is converted, a [str] is a
    [TypeError]. *)
Definition as_float (v : Value) : result float :=
  match v with
  | VStr _ => Raise TypeError
  | VInt z => float_of_int z
  | VFloat f => Ok f
  end.

(** [a / n] for a float [a] and an int [n]: the int is converted, and a zero
    divisor raises where IEEE 754 would return an infinity or a NaN. The
    converted divisor is zero exactly when [n] is. *)
Definition truediv (a : float) (n : Z) : result float :=
  b ← float_of_int n;
  if (n =? 0)%Z then Raise ZeroDivisionError else Ok (a / b)%float.

(** [a + b]: integers add exactly, a float operand makes the sum a float,
    strings concatenate, and a string does not add to a number. *)
Definition py_add (a b : Value) : result Value :=
  match a, b with
  | VInt x, VInt y => Ok (VInt (x + y))
  | VStr s, VStr s' => Ok (VStr (s +:+ s'))
  | VStr _, _ | _, VStr _ => Raise TypeError
  | _, _ => x ← as_float a; y ← as_float b; Ok (VFloat (x + y))
  end.

(** [max(a, b)] keeps [a] unless [b > a], and [min(a, b)] unless [b < a]. *)
Definition py_max (a b : Value) : result Value :=
  c ← py_lt a b; Ok (if c : bool then b else a).

Definition py_min (a b : Value) : result Value :=
  c ← py_lt b a; Ok (if c : bool then b else a).

Module Count.
Record t : Type := mk { _n : Z }.
Definition __init__ : t := mk 0.
Definition __call__ (self : t) (x : Value) : result t := Ok (mk (_n self + 1)).
Definition value_type (input_type : pytype) : pytype := Tint.
Definition value (self : t) : Z := _n self.
End Count.

Module Max.
Record t : Type := mk { _max : option Value }.
Definition __init__ : t := mk None.
Definition __call__ (self : t) (x : Value) : result t :=
  match _max self with
  | None => Ok (mk (Some x))
  | Some m => m' ← py_max m x; Ok (mk (Some m'))
  end.
Definition value_type (input_type : pytype) : pytype := input_type.
Definition value (self : t) : option Value := _max self.
End Max.

Module Mean.
Record t : Type := mk { _m : float; _n : Z }.
Definition __init__ : t := mk 0%float 0.
Definition __call__ (self : t) (x : Value) : result t :=
  let n := (_n self + 1)%Z in
  xf ← as_float x;
  q ← truediv (xf - _m self)%float n;
  Ok (mk (_m self + q)%float n).
Definition value_type (input_type : pytype) : pytype := input_type.
Definition value (self : t) : float := _m self.
End Mean.

Module Min.
Record t : Type := mk { _min : option Value }.
Definition __init__ : t := mk None.
Definition __call__ (self : t) (x : Value) : result t :=
  match _min self with
  | None => Ok (mk (Some x))
  | Some m => m' ← py_min m x; Ok (mk (Some m'))
  end.
Definition value_type (input_type : pytype) : pytype := input_type.
Definition value (self : t) : option Value := _min self.
End Min.

Module Sum.
Record t : Type := mk { _sum : Value }.
Definition __init__ : t := mk (VInt 0).
Definition __call__ (self : t) (x : Value) : result t :=
  s ← py_add (_sum self) x; Ok (mk s).
Definition value_type (input_type : pytype) : pytype := input_type.
Definition value (self : t) : Value := _sum self.
End Sum.

Module Variance.
Record t : Type := mk { _mean : float; _n : Z; _m2 : float }.

Definition __init__ : t := mk 0%float 0 0%float.

Definition __call__ (self : t) (x : Value) : result t :=
  let n := (_n self + 1)%Z in
  xf ← as_float x;
  let d := (xf - _mean self)%float in
  q ← truediv d n;
  let mean := (_mean self + q)%float in
  let d2 := (xf - mean)%float in
  Ok (mk mean n (_m2 self + d * d2)%float).

Definition value_type (input_type : pytype) : pytype := input_type.

Definition value (self : t) : result float :=
  if (_n self =? 0)%Z then Ok nan
  else if (_n self =? 1)%Z then Ok 0%float
  else truediv (_m2 self) (_n self - 1).
End Variance.

(** The aggregator classes, as the values passed to [aggregate], and their
    instances. *)
Inductive AggregateType : Set := Count | Max | Mean | Min | Sum | Variance.

Inductive aggregator : Type :=
| ACount (s : Count.t)
| AMax (s : Max.t)
| AMean (s : Mean.t)
| AMin (s : Min.t)
| ASum (s : Sum.t)
| AVariance (s : Variance.t).

Definition __name__ (f : AggregateType) : string :=
  match f with
  | Count => "Count"
  | Max => "Max"
  | Mean => "Mean"
  | Min => "Min"
  | Sum => "Sum"
  | Variance => "Variance"
  end.

(** [f.value_type( input_type )], a static method of each class. *)
Definition value_type (f : AggregateType) (input_type : pytype) : pytype :=
  match f with
  | Count => Count.value_type input_type
  | Max => Max.value_type input_type
  | Mean => Mean.value_type input_type
  | Min => Min.value_type input_type
  | Sum => Sum.value_type input_type
  | Variance => Variance.value_type input_type
  end.

(** [f()], [a( x )] and [a.value()]; [None] is Python's [None], the value of
    [Max] and [Min] before any call. *)
Definition construct (f : AggregateType) : aggregator :=
  match f with
  | Count => ACount Count.__init__
  | Max => AMax Max.__init__
  | Mean => AMean Mean.__init__
  | Min => AMin Min.__init__
  | Sum => ASum Sum.__init__
  | Variance => AVariance Variance.__init__
  end.

Definition call (a : aggregator) (x : Value) : result aggregator :=
  match a with
  | ACount s => s' ← Count.__call__ s x; Ok (ACount s')
  | AMax s => s' ← Max.__call__ s x; Ok (AMax s')
  | AMean s => s' ← Mean.__call__ s x; Ok (AMean s')
  | AMin s => s' ← Min.__call__ s x; Ok (AMin s')
  | ASum s => s' ← Sum.__call__ s x; Ok (ASum s')
  | AVariance s => s' ← Variance.__call__ s x; Ok (AVariance s')
  end.

Definition value (a : aggregator) : result (option Value) :=
  match a with
  | ACount s => Ok (Some (VInt (Count.value s)))
  | AMax s => Ok (Max.value s)
  | AMean s => Ok (Some (VFloat (Mean.value s)))
  | AMin s => Ok (Min.value s)
  | ASum s => Ok (Some (Sum.value s))
  | AVariance s => v ← Variance.value s; Ok (Some (VFloat v))
  end.

Module Aggregate.
Record t : Type := mk {
  _attributes : list Attribute.t;
  _index : gmap string nat;
  _itr : iterator;
  _fs : list (nat * aggregator)
}.

Definition attr (in_relation : Relation.t) (nf : string * AggregateType)
  : result Attribute.t :=
  let (n, f) := nf in
  a ← Relation.attribute in_relation n;
  let input_type := Attribute.type a in
  let name := n +:+ "_" +:+ __name__ f in
  let type := value_type f input_type in
  Ok (Attribute.__init__ name type).

Definition __init__ (in_relation : Relation.t) (aggregators : list (string * AggregateType))
  : result t :=
  attributes ← comprehension (attr in_relation) aggregators;
  fs ← comprehension
         (fun nf => i ← Relation.index in_relation (fst nf); Ok (i, construct (snd nf)))
         aggregators;
  Ok (mk attributes (Relation.make_index attributes) (Relation.__iter__ in_relation) fs).

(** [for (i, f) in self._fs: f( t[i] )] *)
Definition feed (t : tuple) (fs : list (nat * aggregator)) : result (list (nat * aggregator)) :=
  comprehension (fun i_f => x ← getitem t (fst i_f); a ← call (snd i_f) x; Ok (fst i_f, a)) fs.

(** The generator [__iter__]: the one tuple it yields once the input is
    exhausted. *)
Definition __iter__ (self : t) : result (list (option Value)) :=
  fs ← for_loop (fun fs t => feed t fs) (_fs self) (_itr self);
  comprehension (fun i_f => value (snd i_f)) fs.
End Aggregate.

(** ** Materialization and sort (relation.py) *)

(** What a sort key evaluates to: [operator.itemgetter] returns the item
    itself for one index and a tuple of items for several; without a key
    the rows themselves, which are tuples, are compared. *)
Inductive pyobj : Type :=
| Scalar (v : Value)
| Tuple (t : tuple).

Definition obj_lt (a b : pyobj) : result bool :=
  match a, b with
  | Scalar v, Scalar w => py_lt v w
  | Tuple s, Tuple t => tuple_lt s t
  | _, _ => Raise TypeError
  end.

Definition obj_eq (a b : pyobj) : bool :=
  match a, b with
  | Scalar v, Scalar w => py_eq v w
  | Tuple s, Tuple t => tuple_eq s t
  | _, _ => false
  end.

(** [operator.itemgetter( *idx )] *)
Definition itemgetter (idx : list nat) : result (tuple -> result pyobj) :=
  match idx with
  | [] => Raise TypeError
  | [i] => Ok (fun t => v ← getitem t i; Ok (Scalar v))
  | _ => Ok (fun t => vs ← comprehension (getitem t) idx; Ok (Tuple vs))
  end.

(** [list.sort( key = key, reverse = reverse )]. The interpreter evaluates
    the key of every item once, reverses the list when [reverse] is set,
    sorts it in ascending order comparing keys with [<] only, and reverses
    it again. The ascending sort of a list of fewer than 64 items, which is
    the one given here, takes the run at the head of the list
    ([count_run]: the longest prefix in which no item is below the one
    before it, or else the longest one in which every item is below the one
    before it, which is then reversed) and inserts each further item into
    it at the place a binary search finds ([binarysort]). From 64 items on
    the interpreter sorts the list in chunks in this way and merges the
    chunks; as its sort is stable, the result is the same whenever [<]
    orders the keys consistently. *)
Section ListSort.
Context {A K : Type} (lt : K -> K -> result bool).

(** The loops of [count_run]: how many of the items of [l] continue the
    run that ends with the key [prev]. *)
Fixpoint run_ascending (prev : K) (l : list (K * A)) : result nat :=
  match l with
  | [] => Ok 0
  | x :: l' =>
      c ← lt (fst x) prev;
      if (c : bool) then Ok 0 else n ← run_ascending (fst x) l'; Ok (S n)
  end.

Fixpoint run_descending (prev : K) (l : list (K * A)) : result nat :=
  match l with
  | [] => Ok 0
  | x :: l' =>
      c ← lt (fst x) prev;
      if (c : bool) then n ← run_descending (fst x) l'; Ok (S n) else Ok 0
  end.

(** The length of the run and whether it is descending. *)
Definition count_run (l : list (K * A)) : result (nat * bool) :=
  match l with
  | [] => Ok (0, false)
  | [_] => Ok (1, false)
  | x :: y :: l' =>
      c ← lt (fst y) (fst x);
      if (c : bool) then n ← run_descending (fst y) l'; Ok (2 + n, true)
      else n ← run_ascending (fst y) l'; Ok (2 + n, false)
  end.

(** The binary search of [binarysort]:
    [do p = l + ((r - l) >> 1); if pivot < *p: r = p else: l = p + 1
    while l < r]. The distance of [l] and [r] shrinks at every turn, so
    that [r - l] turns are enough. *)
Fixpoint bisect (fuel : nat) (pivot : K) (placed : list (K * A)) (l r : nat) : result nat :=
  match fuel with
  | O => Ok l
  | S fuel' =>
      let p := l + (r - l) / 2 in
      y ← getitem placed p;
      c ← lt pivot (fst y);
      let l' := if (c : bool) then l else S p in
      let r' := if (c : bool) then p else r in
      if l' <? r' then bisect fuel' pivot placed l' r' else Ok l'
  end.

Definition binary_insert (placed : list (K * A)) (x : K * A) : result (list (K * A)) :=
  l ← bisect (length placed) (fst x) placed 0 (length placed);
  Ok (take l placed ++ x :: drop l placed).

Definition binarysort (run rest : list (K * A)) : result (list (K * A)) :=
  for_loop binary_insert run rest.

Definition sort_ascending (l : list (K * A)) : result (list (K * A)) :=
  if length l <? 2 then Ok l
  else
    nd ← count_run l;
    let run := take (fst nd) l in
    binarysort (if (snd nd : bool) then rev run else run) (drop (fst nd) l).

Definition list_sort (key : A -> result K) (reverse : bool) (l : list A)
  : result (list A) :=
  keys ← comprehension key l;
  let keyed := combine keys l in
  sorted ← sort_ascending (if reverse then rev keyed else keyed);
  Ok (map snd (if reverse then rev sorted else sorted)).
End ListSort.

Module InMemoryRelation.
Record t : Type := mk {
  _attributes : list Attribute.t;
  _index : gmap string nat;
  _data : list tuple
}.

Definition __init__ (attributes : list Attribute.t) (data : list tuple) : t :=
  mk attributes (Relation.make_index attributes) data.

Definition index (self : t) (name : string) : result nat :=
  Relation.lookup_index (_index self) name.

(** [sort] works in place: the result is the object after the call. *)
Definition sort (self : t) (key : option (list string)) (reverse : bool) : result t :=
  match key with
  | Some names =>
      idx ← comprehension (index self) names;
      getter ← itemgetter idx;
      data ← list_sort obj_lt getter reverse (_data self);
      Ok (mk (_attributes self) (_index self) data)
  | None =>
      data ← list_sort obj_lt (fun t => Ok (Tuple t)) reverse (_data self);
      Ok (mk (_attributes self) (_index self) data)
  end.

Definition copy_of (relation : Relation.t) : t :=
  mk (Relation._attributes relation) (Relation.make_index (Relation._attributes relation))
     (Relation.__iter__ relation).

Definition __iter__ (self : t) : iterator := _data self.
End InMemoryRelation.

(** ** api.py: data extraction *)

Module api.
(** [for t in relation: return t[0]]; falling off the loop returns
    Python's [None], here [Ok None]. *)
Definition scalar (relation : Relation.t) : result (option Value) :=
  match next (Relation.__iter__ relation) with
  | Some (t, _) => v ← getitem t 0; Ok (Some v)
  | None => Ok None
  end.

Definition vector (relation : Relation.t) : result (option tuple) :=
  match next (Relation.__iter__ relation) with
  | Some (t, _) => Ok (Some t)
  | None => Ok None
  end.
End api.

(** ** Well-formed inputs and specification-side definitions *)

(** A relation is [indexed] when its [_index] is the one its constructor
    derives from its attributes; every constructor either derives it or
    hands on the index of an input with the same attributes. *)
Definition indexed (R : Relation.t) : Prop :=
  Relation._index R = Relation.make_index (Relation._attributes R).

(** Every tuple the relation yields has one value per column. *)
Definition conforming (R : Relation.t) : Prop :=
  Forall (fun t : tuple => length t = length (Relation._attributes R)) (Relation.__iter__ R).

(** The declared type of an aggregate column, as the classes'
    [value_type] methods give it: [int] for a count, the type of the source
    column for every other aggregator, the variance included. *)
Definition declared_type (f : AggregateType) (source_type : pytype) : pytype :=
  match f with
  | Count => Tint
  | Max | Mean | Min | Sum | Variance => source_type
  end.

(** Welford's one-pass recurrence on doubles, as the specification words
    it: after [n] is incremented, [mean += (x - mean) / n] and
    [M2 += (x - mean_before) * (x - mean_after)]. *)
Fixpoint welford (n : Z) (mean M2 : float) (xs : list float) : Z * float * float :=
  match xs with
  | [] => (n, mean, M2)
  | x :: xs' =>
      let n' := (n + 1)%Z in
      let mean' := (mean + (x - mean) / double n')%float in
      welford n' mean' (M2 + (x - mean) * (x - mean'))%float xs'
  end.

Definition welford_M2 (xs : list float) : float := snd (welford 0 0%float 0%float xs).

(** The position a column name resolves to, and the tuple that results from
    storing, for each item [(k, f)] in turn, the value of [f] on the row of
    [t] at the position of [k] in [acc]. *)
Definition position (index : gmap string nat) (k : string) : nat :=
  default 0 (index !! k).

Definition assigned (index : gmap string nat) (t acc : tuple)
           (items : list (string * (Row.t -> Value))) : tuple :=
  fold_left (fun acc kf => <[position index (fst kf) := snd kf (Row.mk index t)]> acc)
            items acc.

(** The natural join, as a specification: the join key is made of the
    columns of [right] whose name occurs in [left]; every probe tuple, in
    order, is paired with the build tuples whose key projection equals its
    own, in their order, and continued with their remaining columns. *)
Definition select (idx : list nat) (t : tuple) : tuple := omap (fun i => t !! i) idx.






(** The sort key of a row, as [sort] obtains it, and the rows that have a
    key equal to [k]. *)
Definition row_key (self : InMemoryRelation.t) (key : option (list string))
  : result (tuple -> result pyobj) :=
  match key with
  | Some names => idx ← comprehension (InMemoryRelation.index self) names; itemgetter idx
  | None => Ok (fun t => Ok (Tuple t))
  end.

Definition has_key (getter : tuple -> result pyobj) (k : pyobj) (t : tuple) : bool :=
  match getter t with
  | Ok k' => obj_eq k' k
  | Raise _ => false
  end.

(** A sort key whose comparisons do not depend on which objects are shared:
    a scalar, which [<] compares by value, or a tuple without NaN. *)
Definition compared_by_value (k : pyobj) : bool :=
  match k with
  | Scalar _ => true
  | Tuple t => nan_free t
  end.

(** The keys [ks] are consistently ordered by [lt] when any two of them can
    be compared, never each below the other, and a key that is not below a
    second one that is not below a third one is not below the third: the
    conditions under which sorting by [lt] is meaningful. A NaN among
    different numbers, or a string among numbers, breaks them. *)
Definition holds (r : result bool) : bool :=
  match r with Ok c => c | Raise _ => false end.

Definition defined {A : Type} (r : result A) : bool :=
  match r with Ok _ => true | Raise _ => false end.

Definition consistent_order {K : Type} (lt : K -> K -> result bool) (ks : list K) : bool :=
  forallb
    (fun a =>
       forallb
         (fun b =>
            defined (lt a b)
            && negb (holds (lt a b) && holds (lt b a))
            && forallb (fun c => implb (holds (lt a c)) (holds (lt a b) || holds (lt b c))) ks)
         ks)
    ks.

(** The stable sort, as a specification: each item in turn is placed before
    the first of the items already placed that is above it, and so after
    every item that is not. *)
Section Placing.
Context {A K : Type} (ltb : K -> K -> bool).

Fixpoint place (x : K * A) (placed : list (K * A)) : list (K * A) :=
  match placed with
  | [] => [x]
  | y :: rest => if ltb (fst x) (fst y) then x :: y :: rest else y :: place x rest
  end.

Definition place_all (l placed : list (K * A)) : list (K * A) :=
  fold_left (fun placed x => place x placed) l placed.
End Placing.

(** The keyed items in the order of the stable sort, which is the order
    [list_sort] gives them when their keys are consistently ordered
    ([sort_ascending_place_all]). *)
Definition sorted_items {A K : Type} (lt : K -> K -> result bool) (reverse : bool)
           (items : list (K * A)) : list (K * A) :=
  place_all (fun a b => holds (lt a b)) (if reverse then rev items else items) [].

(** ** The remaining operators *)

(** *** algebra.py: projection *)

Module Projection.
Record t : Type := mk {
  _attributes : list Attribute.t;
  _index : gmap string nat;
  _itr : iterator;
  _keep : list nat
}.

Definition __init__ (in_relation : Relation.t) (names : list string) : result t :=
  attributes ← comprehension (Relation.attribute in_relation) names;
  keep ← comprehension (fun a => Relation.index in_relation (Attribute.name a)) attributes;
  Ok (mk attributes (Relation.make_index attributes) (Relation.__iter__ in_relation) keep).

Definition __next__ (self : t) : step t :=
  match next (_itr self) with
  | None => StopIteration
  | Some (t, itr') =>
      match comprehension (getitem t) (_keep self) with
      | Ok t' => Yield t' (mk (_attributes self) (_index self) itr' (_keep self))
      | Raise e => Raised e
      end
  end.
End Projection.

(** *** structure.py: column assignment and type alteration *)

Module Assign.
Record t : Type := mk {
  _attributes : list Attribute.t;
  _index : gmap string nat;
  _idx : list (nat * nat);
  _ritr : iterator;
  _citr : iterator
}.

(** The body of the first loop of [__init__]; [!=] on attributes is the
    negation of [Attribute.__eq__]. *)
Definition check (relation : Relation.t) (attr : Attribute.t) : result unit :=
  a ← Relation.attribute relation (Attribute.name attr);
  if negb (Attribute.__eq__ a attr) then Raise TypeError else Ok tt.

Definition __init__ (relation changes : Relation.t) : result t :=
  _ ← comprehension (check relation) (Relation.attributes changes);
  idx ← comprehension
          (fun name => r ← Relation.index relation name;
                       c ← Relation.index changes name;
                       Ok (r, c))
          (Relation.names changes);
  Ok (mk (Relation._attributes relation) (Relation._index relation) idx
         (Relation.__iter__ relation) (Relation.__iter__ changes)).

(** [u[r] = tc[c]] *)
Definition overwrite (tc : tuple) (u : list Value) (rc : nat * nat) : result (list Value) :=
  v ← getitem tc (snd rc); setitem u (fst rc) v.

Definition __next__ (self : t) : step t :=
  match next (_ritr self), next (_citr self) with
  | None, None => StopIteration
  | Some (tr, ritr'), Some (tc, citr') =>
      match for_loop (overwrite tc) tr (_idx self) with
      | Ok u => Yield u (mk (_attributes self) (_index self) (_idx self) ritr' citr')
      | Raise e => Raised e
      end
  | _, _ => Raised RuntimeError
  end.
End Assign.

Module AlterType.
Record t : Type := mk {
  _attributes : list Attribute.t;
  _index : gmap string nat;
  _idx : list nat;
  _itr : iterator
}.

(** The loop of [__init__] over [enumerate(attrs)]: the attributes as
    altered and the positions altered, in order. *)
Definition alter (td : gmap string pytype) (a : Attribute.t) : Attribute.t :=
  match td !! Attribute.name a with
  | Some type => Attribute.__init__ (Attribute.name a) type
  | None => a
  end.

Definition altered (td : gmap string pytype) (attrs : list Attribute.t) : list nat :=
  map fst (List.filter (fun ia => bool_decide (is_Some (td !! Attribute.name (snd ia))))
                       (enumerate attrs)).

Definition __init__ (relation : Relation.t) (td : gmap string pytype) : result t :=
  let attrs := map (alter td) (Relation.attributes relation) in
  Ok (mk attrs (Relation.make_index attrs) (altered td (Relation.attributes relation))
         (Relation.__iter__ relation)).

(** [t[i] = self._attributes[i].type()( t[i] )]: [convert] stands for the
    call of the type objects [str], [int] and [float] on a value, which is
    the interpreter's. *)
Definition convert_item (convert : pytype -> Value -> result Value) (self : t)
           (t : list Value) (i : nat) : result (list Value) :=
  a ← getitem (_attributes self) i;
  x ← getitem t i;
  v ← convert (Attribute.type a) x;
  setitem t i v.

Definition __next__ (convert : pytype -> Value -> result Value) (self : t) : step t :=
  match next (_itr self) with
  | None => StopIteration
  | Some (t, itr') =>
      match for_loop (convert_item convert self) t (_idx self) with
      | Ok t' => Yield t' (mk (_attributes self) (_index self) (_idx self) itr')
      | Raise e => Raised e
      end
  end.
End AlterType.

(** *** functional.py: map and fold *)

Module Map.
Record t : Type := mk {
  _attributes : list Attribute.t;
  _index : gmap string nat;
  _in_relation : gmap string nat;
  _itr : iterator;
  _fs : list (Row.t -> result Value)
}.

(** [fd] is a dict from output attributes to functions of a row, given as
    its items; a function of the caller may raise. [_in_relation] is kept
    for the rows only, which resolve names through its index. *)
Definition __init__ (in_relation : Relation.t)
           (fd : list (Attribute.t * (Row.t -> result Value))) : result t :=
  Ok (mk (map fst fd) (Relation.make_index (map fst fd)) (Relation._index in_relation)
         (Relation.__iter__ in_relation) (map snd fd)).

(** [tuple( f( Row( self._in_relation, t ) ) for f in self._fs )]: the
    functions are called in order, and what one of them raises leaves
    [__next__]. *)
Definition __next__ (self : t) : step t :=
  match next (_itr self) with
  | None => StopIteration
  | Some (t, itr') =>
      match comprehension (fun f => f (Row.mk (_in_relation self) t)) (_fs self) with
      | Ok t' => Yield t' (mk (_attributes self) (_index self) (_in_relation self) itr'
                              (_fs self))
      | Raise e => Raised e
      end
  end.
End Map.

Module Fold.
Record t : Type := mk {
  _attributes : list Attribute.t;
  _index : gmap string nat;
  _in_relation : Relation.t;
  _fs : list (Value -> Row.t -> Value);
  _v : list Value
}.

Definition __init__ (in_relation : Relation.t)
           (fd : list (Attribute.t * ((Value -> Row.t -> Value) * Value))) : result t :=
  Ok (mk (map fst fd) (Relation.make_index (map fst fd)) in_relation
         (map (fun item => fst (snd item)) fd) (map (fun item => snd (snd item)) fd)).

(** [self._v[i] = self._fs[i]( self._v[i], Row( self._in_relation, t ) )] *)
Definition combine_at (self : t) (t : tuple) (v : list Value) (i : nat) : result (list Value) :=
  f ← getitem (_fs self) i;
  x ← getitem v i;
  setitem v i (f x (Row.mk (Relation._index (_in_relation self)) t)).

(** The body of the loop over the input: [for i in range(0, len(self._v))]. *)
Definition fold_row (self : t) (v : list Value) (t : tuple) : result (list Value) :=
  for_loop (combine_at self t) v (seq 0 (length v)).

(** The generator [__iter__], run on the tuples [rows] that iterating the
    input yields: the one tuple it yields, and the object afterwards, whose
    [_v] the loop has updated in place. *)
Definition run (self : t) (rows : iterator) : result (tuple * t) :=
  v ← for_loop (fold_row self) (_v self) rows;
  Ok (v, mk (_attributes self) (_index self) (_in_relation self) (_fs self) v).

Definition __iter__ (self : t) : result (tuple * t) :=
  run self (Relation.__iter__ (_in_relation self)).
End Fold.

(** *** relation.py: type names *)

Module AttributeTypes.
(** [Attribute.parse_type] and [Attribute.type_string]. *)
Definition parse_type (type : string) : result pytype :=
  if String.eqb type "float" then Ok Tfloat
  else if String.eqb type "int" then Ok Tint
  else if String.eqb type "str" then Ok Tstr
  else Raise KeyError.

Definition type_string (self : Attribute.t) : string :=
  match Attribute._type self with
  | Tfloat => "float"
  | Tint => "int"
  | Tstr => "str"
  end.
End AttributeTypes.

(** *** api.py: composition helpers *)

Module api_operators.
(** [project_complement( relation, *drop )] *)
Definition project_complement (relation : Relation.t) (drop : list string)
  : result Projection.t :=
  let drop_set : gset string := list_to_set drop in
  let keep := map Attribute.name
                  (List.filter (fun a => bool_decide (Attribute.name a ∉ drop_set))
                               (Relation.attributes relation)) in
  Projection.__init__ relation keep.

(** [sorted( relation, key, reverse )]: copy, then sort the copy. *)
Definition sorted (relation : Relation.t) (key : option (list string)) (reverse : bool)
  : result InMemoryRelation.t :=
  InMemoryRelation.sort (InMemoryRelation.copy_of relation) key reverse.
End api_operators.

(** ** Specification-side definitions for the remaining operators *)

(** The input of a downstream operator when the upstream one is handed to
    it: its schema, and as iterator the tuples the upstream operator
    yields. *)
Definition piped (attributes : list Attribute.t) (index : gmap string nat)
           (yielded : list tuple * outcome) : Relation.t :=
  Relation.mk attributes index (fst yielded).

(** The values stored by a list of (position, value) assignments. *)
Definition stored (u : list Value) (assignments : list (nat * Value)) : list Value :=
  fold_left (fun u iv => <[fst iv := snd iv]> u) assignments u.


(** [u] is the base tuple [tr] with the columns that [changes] names
    overwritten by the values the tuple [tc] of [changes] has under those
    names. *)
Definition overwritten (relation changes : Relation.t) (tr tc u : tuple) : Prop :=
  length u = length tr /\
  forall i : nat,
    (forall n c, In n (Relation.names changes) ->
                 Relation._index relation !! n = Some i ->
                 Relation._index changes !! n = Some c ->
                 u !! i = tc !! c) /\
    ((forall n, In n (Relation.names changes) -> Relation._index relation !! n <> Some i) ->
     u !! i = tr !! i).

(** An in-memory relation as the input of an operator: [iter] returns a
    fresh iterator over the stored tuples at every call, so that each
    operator built on the relation reads all of them. *)
Definition restartable (M : InMemoryRelation.t) : Relation.t :=
  Relation.mk (InMemoryRelation._attributes M) (InMemoryRelation._index M)
              (InMemoryRelation.__iter__ M).

(** The values of column [i] in row order, and the value an aggregator of
    class [f] has after it has been called on the values [xs] in turn. *)
Definition column (i : nat) (rows : list (list Value)) : list Value :=
  omap (fun t : list Value => t !! i) rows.

Definition aggregated (f : AggregateType) (xs : list Value) : result (option Value) :=
  a ← for_loop call (construct f) xs; value a.

(** The value of an aggregator that has not been called. *)
Definition value_of_nothing (f : AggregateType) : option Value :=
  match f with
  | Count => Some (VInt 0)
  | Max | Min => None
  | Mean => Some (VFloat 0%float)
  | Sum => Some (VInt 0)
  | Variance => Some (VFloat nan)
  end.

(** [u] is the tuple [t] with the value of every column that [td] names
    replaced by its conversion to the type that [td] gives. *)
Definition converted (convert : pytype -> Value -> result Value) (td : gmap string pytype)
           (attributes : list Attribute.t) (t u : list Value) : Prop :=
  length u = length t /\
  forall (i : nat) (a : Attribute.t),
    attributes !! i = Some a ->
    match td !! Attribute.name a with
    | Some type => exists x v, t !! i = Some x /\ convert type x = Ok v /\ u !! i = Some v
    | None => u !! i = t !! i
    end.

(** * Properties *)

(** Discharging a [Forall] over an explicit list, item by item. *)
Ltac forall_by tac := repeat (apply List.Forall_cons; [tac|]); apply List.Forall_nil.

(** ** Comparison of values: examples *)

Example python_comparisons :
  py_eq (VInt 1) (VFloat 1) = true /\
  py_eq (VFloat 0) (VFloat (-0)) = true /\
  py_eq (VFloat nan) (VFloat nan) = false /\
  py_eq (VStr "1") (VInt 1) = false /\
  py_lt (VFloat 0.5) (VInt 1) = Ok true /\
  py_lt (VInt 3) (VFloat 2.5) = Ok false /\
  py_lt (VFloat neg_infinity) (VInt (- 2 ^ 2000)) = Ok true /\
  py_lt (VStr "Bart") (VStr "Lisa") = Ok true /\
  py_lt (VStr "Bart") (VInt 10) = Raise TypeError /\
  tuple_lt [VInt 8; VStr "Lisa"] [VInt 8; VStr "Ralph"] = Ok true /\
  tuple_lt [VInt 8] [VInt 8; VStr "Ralph"] = Ok true.
Proof. repeat split; vm_compute; reflexivity. Qed.

(** ** The error monad *)

Lemma bind_Ok {A B : Type} (m : result A) (f : A -> result B) (b : B) :
  m ≫= f = Ok b -> exists a, m = Ok a /\ f a = Ok b.
Proof. destruct m as [a|e]; simpl; [eauto | discriminate]. Qed.

Lemma comprehension_Ok_length {A B : Type} (f : A -> result B) (xs : list A) (ys : list B) :
  comprehension f xs = Ok ys -> length ys = length xs.
Proof.
  revert ys; induction xs as [|x xs IH]; intros ys H; simpl in H.
  - now inversion H.
  - destruct (f x) as [y|]; simpl in H; [|discriminate].
    destruct (comprehension f xs) as [ys'|]; simpl in H; [|discriminate].
    inversion H; subst; simpl; f_equal; now apply IH.
Qed.

Lemma comprehension_pure {A B : Type} (f : A -> result B) (g : A -> B) (xs : list A) :
  Forall (fun x => f x = Ok (g x)) xs -> comprehension f xs = Ok (map g xs).
Proof.
  induction 1 as [|x xs Hx _ IH]; simpl; [reflexivity|].
  now rewrite Hx, IH.
Qed.

Lemma comprehension_Ok_lookup {A B : Type} (f : A -> result B) (xs : list A) (ys : list B) :
  comprehension f xs = Ok ys ->
  forall i x, xs !! i = Some x -> exists y, ys !! i = Some y /\ f x = Ok y.
Proof.
  revert ys; induction xs as [|x0 xs IH]; intros ys H i x Hi; [discriminate|].
  simpl in H.
  destruct (f x0) as [y0|] eqn:E0; simpl in H; [|discriminate].
  destruct (comprehension f xs) as [ys'|] eqn:E; simpl in H; [|discriminate].
  inversion H; subst; clear H.
  destruct i as [|i]; simpl in *.
  - inversion Hi; subst; eauto.
  - eapply IH; eauto.
Qed.

Lemma for_loop_app {A S : Type} (f : S -> A -> result S) (s : S) (xs ys : list A) :
  for_loop f s (xs ++ ys) = for_loop f s xs ≫= fun s' => for_loop f s' ys.
Proof.
  revert s; induction xs as [|x xs IH]; intros s; simpl; [reflexivity|].
  destruct (f s x); simpl; [apply IH | reflexivity].
Qed.

(** ** The name index of a relation *)

Lemma index_from_sound (attributes : list Attribute.t) :
  forall (i0 : nat) (d : gmap string nat) (n : string) (i : nat),
    Relation.index_from i0 attributes d !! n = Some i ->
    d !! n = Some i \/
    (i0 <= i /\ exists a, attributes !! (i - i0) = Some a /\ Attribute.name a = n).
Proof.
  induction attributes as [|a rest IH]; intros i0 d n i H; simpl in H; [now left|].
  apply IH in H as [H|(Hle & b & Hb & Hn)].
  - destruct (decide (Attribute.name a = n)) as [Heq|Hne].
    + subst n. rewrite lookup_insert_eq in H. inversion H; subst.
      right; split; [lia|]. exists a. rewrite Nat.sub_diag. auto.
    + rewrite lookup_insert_ne in H by assumption. now left.
  - right; split; [lia|]. exists b; split; [|assumption].
    replace (i - i0) with (S (i - S i0)) by lia. exact Hb.
Qed.

Lemma index_from_defined (attributes : list Attribute.t) :
  forall (i0 : nat) (d : gmap string nat) (n : string),
    is_Some (d !! n) \/ In n (map Attribute.name attributes) ->
    is_Some (Relation.index_from i0 attributes d !! n).
Proof.
  induction attributes as [|a rest IH]; intros i0 d n H; simpl in *.
  - destruct H as [H|[]]; exact H.
  - apply IH. destruct H as [H|[H|H]]; [| |now right]; left.
    + destruct (decide (Attribute.name a = n)) as [Heq|Hne].
      * subst n. rewrite lookup_insert_eq; eauto.
      * now rewrite lookup_insert_ne.
    + subst n. rewrite lookup_insert_eq; eauto.
Qed.

Lemma make_index_sound (attributes : list Attribute.t) (n : string) (i : nat) :
  Relation.make_index attributes !! n = Some i ->
  exists a, attributes !! i = Some a /\ Attribute.name a = n.
Proof.
  intros H. apply index_from_sound in H as [H|(_ & a & Ha & Hn)].
  - rewrite lookup_empty in H; discriminate.
  - rewrite Nat.sub_0_r in Ha. eauto.
Qed.

Lemma make_index_defined (attributes : list Attribute.t) (n : string) :
  In n (map Attribute.name attributes) ->
  exists i, Relation.make_index attributes !! n = Some i.
Proof.
  intros H. destruct (index_from_defined attributes 0 ∅ n) as [i Hi]; eauto.
Qed.

Lemma make_index_None (attributes : list Attribute.t) (n : string) :
  Relation.make_index attributes !! n = None ->
  ~ In n (map Attribute.name attributes).
Proof.
  intros H Hin. apply make_index_defined in Hin as [i Hi]. congruence.
Qed.

(** In an indexed relation a name of the schema resolves to a column of that
    name. *)
Lemma attribute_of_name (R : Relation.t) (n : string) :
  indexed R -> In n (Relation.names R) ->
  exists i a, Relation.index R n = Ok i /\ Relation._attributes R !! i = Some a /\
              Attribute.name a = n /\ Relation.attribute R n = Ok a.
Proof.
  intros HR Hin. unfold Relation.names in Hin.
  destruct (make_index_defined _ _ Hin) as [i Hi].
  destruct (make_index_sound _ _ _ Hi) as (a & Ha & Hn).
  exists i, a. unfold Relation.attribute, Relation.index, Relation.lookup_index, getitem.
  rewrite HR, Hi. simpl. rewrite Ha. auto.
Qed.

(** ** Data extraction *)

(** C10. On a source that yields no tuple [scalar] and [vector] return
    [None] and raise nothing; on a source that yields a first tuple [t],
    [vector] returns [t] and [scalar] returns the value in the first column
    of [t]. *)
Theorem scalar_vector_first_tuple (relation : Relation.t) :
  (Relation.__iter__ relation = [] ->
   api.scalar relation = Ok None /\ api.vector relation = Ok None) /\
  (forall (t : tuple) (rest : iterator),
      Relation.__iter__ relation = t :: rest ->
      api.vector relation = Ok (Some t) /\
      forall v : Value, t !! 0 = Some v -> api.scalar relation = Ok (Some v)).
Proof.
  unfold api.scalar, api.vector; split.
  - intros ->; simpl; auto.
  - intros t rest ->; cbn [next]; split; [reflexivity|].
    intros v Hv. unfold getitem. now rewrite Hv.
Qed.

Lemma scalar_vector_first_tuple_witness :
  let employees :=
    Relation.__init__ [Attribute.mk "Name" Tstr; Attribute.mk "Age" Tint] None
      [[VStr "Lisa"; VInt 8]; [VStr "Bart"; VInt 10]] in
  api.vector employees = Ok (Some [VStr "Lisa"; VInt 8]) /\
  api.scalar employees = Ok (Some (VStr "Lisa")).
Proof.
  intros employees.
  destruct (proj2 (scalar_vector_first_tuple employees)
                  [VStr "Lisa"; VInt 8] [[VStr "Bart"; VInt 10]] eq_refl) as [Hv Hs].
  split; [exact Hv | apply Hs; reflexivity].
Defined.

(** A first tuple without columns, as the empty projection yields, has no
    first column to return: [scalar] raises. *)
Lemma scalar_of_empty_tuple (relation : Relation.t) (rest : iterator) :
  Relation.__iter__ relation = [] :: rest -> api.scalar relation = Raise IndexError.
Proof. unfold api.scalar; intros ->; reflexivity. Qed.

(** ** Selection *)

Lemma Selection_drain (attributes : list Attribute.t) (index : gmap string nat)
      (p : Row.t -> bool) (itr : iterator) :
  forall fuel : nat,
    length itr < fuel ->
    drain Selection.__next__ fuel (Selection.mk attributes index itr p)
    = (List.filter (fun t => p (Row.mk index t)) itr, Exhausted).
Proof.
  induction itr as [|t itr IH]; intros fuel Hfuel.
  - destruct fuel; [inversion Hfuel | reflexivity].
  - destruct fuel as [|fuel]; [inversion Hfuel|]. simpl in Hfuel.
    specialize (IH (S fuel) ltac:(lia)) as IHskip.
    simpl. unfold Selection.__next__ at 1. simpl.
    destruct (p (Row.mk index t)) eqn:Hp.
    + rewrite IH by lia. reflexivity.
    + simpl in IHskip. exact IHskip.
Qed.

(** C6. Selection is a filter: it yields exactly the tuples of [R] on which
    the predicate holds, in their order in [R], under the schema of [R]; and
    the tuples kept by [p] and those kept by its negation are together as
    many as the tuples of [R]. *)
Theorem selection_is_filter (R : Relation.t) (p : Row.t -> bool) (fuel : nat) :
  length (Relation.__iter__ R) < fuel ->
  let row t := Row.mk (Relation._index R) t in
  let not_p := fun r => negb (p r) in
  let selected := drain Selection.__next__ fuel (Selection.__init__ R p) in
  let rejected := drain Selection.__next__ fuel (Selection.__init__ R not_p) in
  selected = (List.filter (fun t => p (row t)) (Relation.__iter__ R), Exhausted) /\
  rejected = (List.filter (fun t => not_p (row t)) (Relation.__iter__ R), Exhausted) /\
  length (fst selected) + length (fst rejected) = length (Relation.__iter__ R) /\
  Selection._attributes (Selection.__init__ R p) = Relation._attributes R /\
  Selection._index (Selection.__init__ R p) = Relation._index R.
Proof.
  intros Hfuel row not_p selected rejected.
  assert (Hs : selected = (List.filter (fun t => p (row t)) (Relation.__iter__ R), Exhausted))
    by (apply Selection_drain; exact Hfuel).
  assert (Hr : rejected = (List.filter (fun t => not_p (row t)) (Relation.__iter__ R), Exhausted))
    by (apply Selection_drain; exact Hfuel).
  repeat split; try assumption.
  rewrite Hs, Hr; simpl. subst not_p.
  clear. induction (Relation.__iter__ R) as [|t l IH]; simpl; [reflexivity|].
  destruct (p (row t)); simpl; lia.
Qed.

Lemma selection_is_filter_witness :
  let R := Relation.__init__ [Attribute.mk "Name" Tstr; Attribute.mk "Age" Tint] None
             [[VStr "Lisa"; VInt 8]; [VStr "Bart"; VInt 10]; [VStr "Martin"; VInt 10]] in
  let p := fun r : Row.t =>
             match Row.__call__ r "Age" with Ok v => py_eq v (VInt 10) | Raise _ => false end in
  length (Relation.__iter__ R) < 4 /\
  fst (drain Selection.__next__ 4 (Selection.__init__ R p))
  = [[VStr "Bart"; VInt 10]; [VStr "Martin"; VInt 10]].
Proof.
  intros R p. split; [simpl; lia|].
  destruct (selection_is_filter R p 4 ltac:(simpl; lia)) as [H _].
  rewrite H. vm_compute. reflexivity.
Defined.

(** ** Rename *)

Lemma Rename_drain (attributes : list Attribute.t) (index : gmap string nat) (itr : iterator) :
  forall fuel : nat,
    length itr < fuel ->
    drain Rename.__next__ fuel (Rename.mk attributes index itr) = (itr, Exhausted).
Proof.
  induction itr as [|t itr IH]; intros fuel Hfuel;
    (destruct fuel as [|fuel]; [inversion Hfuel|]); simpl in *; [reflexivity|].
  unfold Rename.__next__ at 1; simpl. now rewrite IH by lia.
Qed.

(** C2, as the code has it. Constructing the rename operator never fails,
    whether or not the renaming makes two columns share a name; the output
    schema has, column by column, the new name and the old type where the
    old name is a key of the mapping and the input's descriptor elsewhere;
    the tuples pass through unchanged. *)
Theorem Rename_schema_and_tuples (R : Relation.t) (substitutions : gmap string string)
        (fuel : nat) :
  length (Relation.__iter__ R) < fuel ->
  exists x : Rename.t,
    Rename.__init__ R substitutions = Ok x /\
    length (Rename._attributes x) = length (Relation._attributes R) /\
    (forall (i : nat) (a : Attribute.t),
        Relation._attributes R !! i = Some a ->
        Rename._attributes x !! i
        = Some match substitutions !! Attribute.name a with
               | Some new_name => Attribute.mk new_name (Attribute.type a)
               | None => a
               end) /\
    drain Rename.__next__ fuel x = (Relation.__iter__ R, Exhausted).
Proof.
  intros Hfuel. eexists; split; [reflexivity|]. simpl. repeat split.
  - apply length_map.
  - intros i a Hi. rewrite list_lookup_fmap, Hi. reflexivity.
  - now apply Rename_drain.
Qed.

Lemma Rename_schema_and_tuples_witness :
  let employees :=
    Relation.__init__ [Attribute.mk "Name" Tstr; Attribute.mk "Age" Tint] None
      [[VStr "Lisa"; VInt 8]; [VStr "Bart"; VInt 10]] in
  length (Relation.__iter__ employees) < 3 /\
  exists x : Rename.t,
    Rename.__init__ employees {["Name" := "EmployeeName"]} = Ok x /\
    Rename._attributes x !! 0 = Some (Attribute.mk "EmployeeName" Tstr) /\
    Rename._attributes x !! 1 = Some (Attribute.mk "Age" Tint) /\
    drain Rename.__next__ 3 x = (Relation.__iter__ employees, Exhausted).
Proof.
  intros employees. split; [simpl; lia|].
  destruct (Rename_schema_and_tuples employees {["Name" := "EmployeeName"]} 3
              ltac:(simpl; lia)) as (x & Hx & _ & Hattr & Hdrain).
  exists x. repeat split; [exact Hx | | | exact Hdrain].
  - rewrite (Hattr 0 (Attribute.mk "Name" Tstr) eq_refl). reflexivity.
  - rewrite (Hattr 1 (Attribute.mk "Age" Tint) eq_refl). reflexivity.
Defined.

(** The renaming of [Name] to [Age] in a schema that already has [Age]
    yields two columns called [Age]; the construction accepts it, and the
    name then resolves to the later column. *)
Lemma Rename_accepts_a_collision :
  exists x : Rename.t,
    Rename.__init__
      (Relation.__init__ [Attribute.mk "Name" Tstr; Attribute.mk "Age" Tint] None
         [[VStr "Lisa"; VInt 8]])
      {["Name" := "Age"]} = Ok x /\
    Rename._attributes x = [Attribute.mk "Age" Tstr; Attribute.mk "Age" Tint] /\
    Rename._index x !! "Age" = Some 1.
Proof. eexists; split; [reflexivity|]. split; vm_compute; reflexivity. Qed.

(** ** Aggregation: the output schema *)

Lemma Aggregate_attr_Ok (R : Relation.t) (n : string) (f : AggregateType) :
  indexed R -> In n (Relation.names R) ->
  exists src : Attribute.t,
    Relation.attribute R n = Ok src /\ Attribute.name src = n /\
    Aggregate.attr R (n, f)
    = Ok (Attribute.mk (n +:+ "_" +:+ __name__ f) (declared_type f (Attribute.type src))).
Proof.
  intros HR Hn. destruct (attribute_of_name R n HR Hn) as (i & src & _ & _ & Hname & Hsrc).
  exists src. repeat split; try assumption.
  unfold Aggregate.attr. rewrite Hsrc. simpl. now destruct f.
Qed.

(** C4, as the code has it. The output schema of the aggregation operator
    has one column per (source column, aggregator) pair, in order, named
    [<source>_<aggregator>]; its declared type is [int] for [Count] and the
    type of the source column for [Max], [Mean], [Min], [Sum] and
    [Variance] alike. *)
Theorem Aggregate_schema (R : Relation.t) (aggregators : list (string * AggregateType)) :
  indexed R ->
  Forall (fun nf => In (fst nf) (Relation.names R)) aggregators ->
  exists x : Aggregate.t,
    Aggregate.__init__ R aggregators = Ok x /\
    Forall2 (fun nf a =>
               exists src : Attribute.t,
                 Relation.attribute R (fst nf) = Ok src /\
                 Attribute.name src = fst nf /\
                 Attribute.name a = fst nf +:+ "_" +:+ __name__ (snd nf) /\
                 Attribute.type a = match snd nf with
                                    | Count => Tint
                                    | Max | Mean | Min | Sum | Variance => Attribute.type src
                                    end)
            aggregators (Aggregate._attributes x).
Proof.
  intros HR Hall.
  assert (Hattrs : exists attrs,
             comprehension (Aggregate.attr R) aggregators = Ok attrs /\
             Forall2 (fun nf a =>
               exists src : Attribute.t,
                 Relation.attribute R (fst nf) = Ok src /\
                 Attribute.name src = fst nf /\
                 Attribute.name a = fst nf +:+ "_" +:+ __name__ (snd nf) /\
                 Attribute.type a = declared_type (snd nf) (Attribute.type src))
               aggregators attrs).
  { induction Hall as [|[n f] rest Hn _ (attrs & Hattrs & IH)].
    - exists []; split; [reflexivity | constructor].
    - destruct (Aggregate_attr_Ok R n f HR Hn) as (src & Hsrc & Hname & Ha).
      eexists; split.
      + cbn [comprehension]. rewrite Ha, Hattrs. reflexivity.
      + constructor; [|exact IH]. exists src. simpl. auto. }
  assert (Hfs : exists fs,
             comprehension
               (fun nf => i ← Relation.index R (fst nf); Ok (i, construct (snd nf)))
               aggregators = Ok fs).
  { clear Hattrs. induction Hall as [|[n f] rest Hn _ (fs & Hfs)].
    - exists []; reflexivity.
    - destruct (attribute_of_name R n HR Hn) as (i & _ & Hi & _).
      eexists. cbn [comprehension fst snd]. rewrite Hi, Hfs. reflexivity. }
  destruct Hattrs as (attrs & Hattrs & Hschema), Hfs as (fs & Hfs).
  eexists; split.
  - unfold Aggregate.__init__. rewrite Hattrs, Hfs. reflexivity.
  - exact Hschema.
Qed.

Lemma Aggregate_schema_witness :
  let ages := Relation.__init__ [Attribute.mk "Name" Tstr; Attribute.mk "Age" Tint] None
                [[VStr "Lisa"; VInt 8]; [VStr "Bart"; VInt 10]] in
  exists x : Aggregate.t,
    Aggregate.__init__ ages [("Age", Count); ("Name", Max); ("Age", Variance)] = Ok x /\
    map Attribute.type (Aggregate._attributes x) = [Tint; Tstr; Tint].
Proof.
  intros ages.
  destruct (Aggregate_schema ages [("Age", Count); ("Name", Max); ("Age", Variance)]
              ltac:(reflexivity)
              ltac:(forall_by ltac:(simpl; auto 10)))
    as (x & Hx & _).
  exists x. split; [exact Hx|].
  vm_compute in Hx. injection Hx as <-. reflexivity.
Defined.

(** The variance of an [int] column is declared [int], not a floating-point
    type. *)
Lemma Aggregate_variance_of_int_column :
  exists x : Aggregate.t,
    Aggregate.__init__
      (Relation.__init__ [Attribute.mk "Age" Tint] None [[VInt 8]; [VInt 10]])
      [("Age", Variance)] = Ok x /\
    Aggregate._attributes x = [Attribute.mk "Age_Variance" Tint].
Proof. eexists; split; [reflexivity|]. vm_compute; reflexivity. Qed.

(** ** Vertical concatenation *)

Lemma chain_drain (attributes : list Attribute.t) (index : gmap string nat)
      (itrs : list iterator) :
  forall fuel : nat,
    length (concat itrs) < fuel ->
    drain VCat.__next__ fuel (VCat.mk attributes index itrs) = (concat itrs, Exhausted).
Proof.
  induction itrs as [|itr itrs IH].
  - intros [|fuel] H; [inversion H | reflexivity].
  - induction itr as [|t itr IHt]; intros fuel H.
    + specialize (IH fuel H). destruct fuel as [|fuel]; [inversion H|].
      simpl in *. unfold VCat.__next__ in *. simpl in *. exact IH.
    + destruct fuel as [|fuel]; [inversion H|]. simpl in H.
      simpl. unfold VCat.__next__ at 1. simpl.
      rewrite IHt by (simpl; lia). reflexivity.
Qed.

(** The tuples of the vertical concatenation are the tuples of the inputs,
    end to end, each as its own input yielded it. *)
Lemma VCat_passes_tuples_through (r1 r2 : Relation.t) (rest : list Relation.t)
      (x : VCat.t) (fuel : nat) :
  VCat.__init__ r1 r2 rest = Ok x ->
  length (concat (map Relation.__iter__ (r1 :: r2 :: rest))) < fuel ->
  VCat._attributes x = Relation._attributes r1 /\
  drain VCat.__next__ fuel x = (concat (map Relation.__iter__ (r1 :: r2 :: rest)), Exhausted).
Proof.
  unfold VCat.__init__. intros Hx Hfuel.
  destruct (forallb _ _); [|discriminate]. injection Hx as <-.
  split; [reflexivity|]. now apply chain_drain.
Qed.

(** C5 at an input whose columns are ordered differently. Both inputs have
    the columns [A:str] and [B:int], the second one in the order [B], [A];
    the construction accepts them and the output schema is [A], [B]. The
    tuple of the second input comes out as [(2, "y")]: under the column [A]
    it has the value the input holds for [B], not ["y"], the value the input
    holds for [A]. *)
Theorem VCat_keeps_the_column_order_of_each_input :
  let r1 := Relation.__init__ [Attribute.mk "A" Tstr; Attribute.mk "B" Tint] None
              [[VStr "x"; VInt 1]] in
  let r2 := Relation.__init__ [Attribute.mk "B" Tint; Attribute.mk "A" Tstr] None
              [[VInt 2; VStr "y"]] in
  exists x : VCat.t,
    VCat.__init__ r1 r2 [] = Ok x /\
    VCat._attributes x = [Attribute.mk "A" Tstr; Attribute.mk "B" Tint] /\
    drain VCat.__next__ 3 x = ([[VStr "x"; VInt 1]; [VInt 2; VStr "y"]], Exhausted) /\
    (row ← getitem (Relation.__iter__ r2) 0; Row.__call__ (Row.mk (Relation._index r2) row) "A")
    = Ok (VStr "y").
Proof.
  intros r1 r2. eexists; split; [vm_compute; reflexivity|].
  repeat split; vm_compute; reflexivity.
Qed.

(** ** Sample variance *)

(** The conversion of integers to doubles overflows from [float_max_int]
    on, and not before. *)
Example double_overflows_at_float_max_int :
  is_infinity (double float_max_int) = true /\
  is_infinity (double (float_max_int - 1)) = false.
Proof. split; vm_compute; reflexivity. Qed.

Lemma truediv_count (a : float) (n : Z) :
  (0 < n < float_max_int)%Z -> truediv a n = Ok (a / double n)%float.
Proof.
  intros Hn. unfold truediv, float_of_int.
  replace (Z.abs n <? float_max_int)%Z with true by (symmetry; apply Z.ltb_lt; lia).
  simpl. replace (n =? 0)%Z with false by (symmetry; apply Z.eqb_neq; lia).
  reflexivity.
Qed.

Lemma Variance_call (s : Variance.t) (x : Value) (f : float) :
  as_float x = Ok f ->
  (0 <= Variance._n s)%Z -> (Variance._n s + 1 < float_max_int)%Z ->
  Variance.__call__ s x
  = let n := (Variance._n s + 1)%Z in
    let mean := (Variance._mean s + (f - Variance._mean s) / double n)%float in
    Ok (Variance.mk mean n
          (Variance._m2 s + (f - Variance._mean s) * (f - mean))%float).
Proof.
  intros Hf Hn Hbound. unfold Variance.__call__. rewrite Hf. cbn [mbind result_bind].
  rewrite truediv_count by lia. reflexivity.
Qed.

(** The aggregator's loop computes the recurrence, from any state. *)
Lemma Variance_loop (xs : list Value) :
  forall (fs : list float) (s : Variance.t),
    comprehension as_float xs = Ok fs ->
    (0 <= Variance._n s)%Z ->
    (Variance._n s + Z.of_nat (length xs) < float_max_int)%Z ->
    exists s' : Variance.t,
      for_loop Variance.__call__ s xs = Ok s' /\
      (Variance._n s', Variance._mean s', Variance._m2 s')
      = welford (Variance._n s) (Variance._mean s) (Variance._m2 s) fs.
Proof.
  induction xs as [|x xs IH]; intros fs s Hfs Hn Hbound; simpl in Hfs.
  - inversion Hfs; subst. exists s. split; reflexivity.
  - destruct (as_float x) as [f|] eqn:Hf; simpl in Hfs; [|discriminate].
    destruct (comprehension as_float xs) as [fs'|] eqn:Hfs'; simpl in Hfs; [|discriminate].
    inversion Hfs; subst; clear Hfs.
    cbn [length] in Hbound.
    cbn [for_loop]. rewrite (Variance_call s x f Hf Hn) by lia.
    cbv zeta. cbn [mbind result_bind].
    edestruct (IH fs') as (s' & Hs' & Hw); [reflexivity | | | ].
    3: { exists s'. split; [exact Hs'|]. rewrite Hw. reflexivity. }
    + simpl. lia.
    + simpl. lia.
Qed.

(** C3. Fed with numbers, the variance aggregator returns [NaN], a value
    not equal to itself, when it saw no value, [0.0] when it saw one, and
    otherwise [M2 / (n - 1)], where [M2] is the sum of squared deviations
    that Welford's one-pass update accumulates over the [n] values. The
    values [10.0, 20.0, 30.0] give the sample variance [100.0]. *)
Theorem Variance_is_welford_sample_variance :
  (forall (xs : list Value) (fs : list float),
      comprehension as_float xs = Ok fs ->
      (Z.of_nat (length xs) < float_max_int)%Z ->
      exists s : Variance.t,
        for_loop Variance.__call__ Variance.__init__ xs = Ok s /\
        Variance._n s = Z.of_nat (length xs) /\
        Variance._m2 s = welford_M2 fs /\
        Variance.value s
        = Ok match length xs with
             | 0 => nan
             | 1 => 0%float
             | S (S _) => (welford_M2 fs / double (Z.of_nat (length xs) - 1))%float
             end) /\
  (forall s : Variance.t,
      Variance._n s = 0%Z ->
      exists v : float, Variance.value s = Ok v /\ (v =? v)%float = false) /\
  (s ← for_loop Variance.__call__ Variance.__init__ [VFloat 10; VFloat 20; VFloat 30];
   Variance.value s) = Ok 100%float.
Proof.
  split; [|split].
  - intros xs fs Hfs Hbound.
    destruct (Variance_loop xs fs Variance.__init__ Hfs) as (s & Hs & Hw);
      [simpl; lia | simpl; lia |].
    assert (Hlen : length fs = length xs) by (eapply comprehension_Ok_length; eauto).
    assert (Hn : forall gs n mean M2, fst (fst (welford n mean M2 gs)) = (n + Z.of_nat (length gs))%Z).
    { clear. induction gs as [|g gs IH]; intros n mean M2; simpl; [lia|].
      rewrite IH. lia. }
    exists s. split; [exact Hs|].
    assert (Hns : Variance._n s = Z.of_nat (length xs)).
    { change (Variance._n s) with (fst (fst (Variance._n s, Variance._mean s, Variance._m2 s))).
      rewrite Hw, Hn, Hlen. simpl. lia. }
    assert (Hm2 : Variance._m2 s = welford_M2 fs).
    { change (Variance._m2 s) with (snd (Variance._n s, Variance._mean s, Variance._m2 s)).
      rewrite Hw. reflexivity. }
    split; [exact Hns|]. split; [exact Hm2|].
    unfold Variance.value. rewrite Hns, Hm2.
    destruct (length xs) as [|[|n]] eqn:Hxs; [reflexivity | reflexivity |].
    replace (Z.of_nat (S (S n)) =? 0)%Z with false by (symmetry; apply Z.eqb_neq; lia).
    replace (Z.of_nat (S (S n)) =? 1)%Z with false by (symmetry; apply Z.eqb_neq; lia).
    rewrite truediv_count by lia. reflexivity.
  - intros s Hs. exists nan. unfold Variance.value. rewrite Hs. split; reflexivity.
  - vm_compute. reflexivity.
Qed.

Lemma Variance_is_welford_sample_variance_witness :
  comprehension as_float [VInt 10; VFloat 20; VInt 30] = Ok [10%float; 20%float; 30%float] /\
  (Z.of_nat (length [VInt 10; VFloat 20; VInt 30]) < float_max_int)%Z /\
  exists s : Variance.t,
    for_loop Variance.__call__ Variance.__init__ [VInt 10; VFloat 20; VInt 30] = Ok s /\
    Variance.value s = Ok 100%float.
Proof.
  assert (Hfs : comprehension as_float [VInt 10; VFloat 20; VInt 30]
                = Ok [10%float; 20%float; 30%float]) by (vm_compute; reflexivity).
  assert (Hlen : (Z.of_nat (length [VInt 10; VFloat 20; VInt 30]) < float_max_int)%Z)
    by (vm_compute; reflexivity).
  split; [exact Hfs|]. split; [exact Hlen|].
  destruct (proj1 Variance_is_welford_sample_variance _ _ Hfs Hlen) as (s & Hs & _ & _ & Hv).
  exists s. split; [exact Hs|]. rewrite Hv. vm_compute. reflexivity.
Defined.

(** ** Update *)

Section UpdateRow.
Context (R : Relation.t) (fd : list (string * (Row.t -> Value))).
Hypothesis R_indexed : indexed R.
Hypothesis fd_keys : NoDup (map fst fd).
Hypothesis fd_names : Forall (fun k => In k (Relation.names R)) (map fst fd).

Local Abbreviation pos := (position (Relation._index R)).

Lemma key_position (k : string) :
  In k (map fst fd) ->
  Relation._index R !! k = Some (pos k) /\
  pos k < length (Relation._attributes R) /\
  exists a, Relation._attributes R !! pos k = Some a /\ Attribute.name a = k.
Proof.
  intros Hk. rewrite List.Forall_forall in fd_names. apply fd_names in Hk.
  destruct (attribute_of_name R k R_indexed Hk) as (i & a & Hi & Ha & Hn & _).
  unfold Relation.index, Relation.lookup_index in Hi.
  destruct (Relation._index R !! k) as [j|] eqn:Hj; [|discriminate].
  inversion Hi; subst j. unfold position. rewrite Hj. simpl.
  split; [reflexivity|]. split; [eapply lookup_lt_Some; eauto | eauto].
Qed.

Lemma positions_NoDup : NoDup (map (fun kf => pos (fst kf)) fd).
Proof.
  assert (Hinj : forall k k', In k (map fst fd) -> In k' (map fst fd) ->
                              pos k = pos k' -> k = k').
  { intros k k' Hk Hk' Heq.
    destruct (key_position k Hk) as (_ & _ & a & Ha & Hn).
    destruct (key_position k' Hk') as (_ & _ & a' & Ha' & Hn').
    rewrite Heq in Ha. congruence. }
  clear fd_names. induction fd as [|[k f] rest IH]; simpl in *; [constructor|].
  apply NoDup_cons in fd_keys as [Hk Hrest]. apply NoDup_cons. split.
  - rewrite list_elem_of_In, in_map_iff. intros ([k' f'] & Heq & Hin). simpl in Heq.
    apply Hk. rewrite list_elem_of_In.
    assert (k' = k) as <-.
    { apply Hinj; [right; apply in_map_iff; exists (k', f'); auto | now left | exact Heq]. }
    apply in_map_iff. exists (k', f'); auto.
  - apply IH; [exact Hrest|]. intros; apply Hinj; auto.
Qed.

Lemma assigned_cons (t acc : tuple) (kf : string * (Row.t -> Value))
      (items : list (string * (Row.t -> Value))) :
  assigned (Relation._index R) t acc (kf :: items)
  = assigned (Relation._index R) t
      (<[pos (fst kf) := snd kf (Row.mk (Relation._index R) t)]> acc) items.
Proof. reflexivity. Qed.

Lemma assigned_length (t : tuple) (items : list (string * (Row.t -> Value))) :
  forall acc, length (assigned (Relation._index R) t acc items) = length acc.
Proof.
  induction items as [|kf items IH]; intros acc; [reflexivity|].
  rewrite assigned_cons, IH. apply length_insert.
Qed.

Lemma assigned_other (t : tuple) (items : list (string * (Row.t -> Value))) (i : nat) :
  forall acc, ~ In i (map (fun kf => pos (fst kf)) items) ->
              assigned (Relation._index R) t acc items !! i = acc !! i.
Proof.
  induction items as [|kf items IH]; intros acc Hi; [reflexivity|].
  rewrite assigned_cons, IH by (intros H; apply Hi; now right).
  apply list_lookup_insert_ne. intros Heq; apply Hi; now left.
Qed.

Lemma assigned_key (t : tuple) (items : list (string * (Row.t -> Value))) :
  forall acc k f,
    NoDup (map (fun kf => pos (fst kf)) items) ->
    In (k, f) items -> pos k < length acc ->
    assigned (Relation._index R) t acc items !! pos k
    = Some (f (Row.mk (Relation._index R) t)).
Proof.
  induction items as [|kf items IH]; intros acc k f Hnd Hin Hlt; [destruct Hin|].
  cbn [map] in Hnd. apply NoDup_cons in Hnd as [Hhd Hnd]. rewrite assigned_cons.
  destruct Hin as [->|Hin].
  - rewrite assigned_other.
    + now apply list_lookup_insert_eq.
    + now rewrite <- list_elem_of_In.
  - apply IH; [assumption..|]. now rewrite length_insert.
Qed.

Lemma assign_step (u : Update.t) (t acc : tuple) (i j : nat) (f : Row.t -> Value) :
  Update._idx u !! i = Some j -> j < length acc ->
  Update.assign u t acc (i, f) = Ok (<[j := f (Row.mk (Update._index u) t)]> acc).
Proof.
  intros Hi Hj. unfold Update.assign, getitem, setitem. rewrite Hi.
  cbn [mbind result_bind]. now rewrite decide_True.
Qed.

Lemma assign_loop (u : Update.t) (t : tuple) :
  Update._index u = Relation._index R ->
  forall (todo done : list (string * (Row.t -> Value))) (acc : tuple),
    Update._idx u = map (fun kf => pos (fst kf)) (done ++ todo) ->
    Forall (fun kf => pos (fst kf) < length acc) todo ->
    for_loop (Update.assign u t) acc
             (combine (seq (length done) (length todo)) (map snd todo))
    = Ok (assigned (Relation._index R) t acc todo).
Proof.
  intros Hindex. induction todo as [|[k f] todo IH]; intros done acc Hidx Hlt; [reflexivity|].
  apply Forall_cons in Hlt as [Hk Hlt].
  cbn [length seq map combine for_loop snd].
  rewrite (assign_step u t acc (length done) (pos k) f); [|
    rewrite Hidx, map_app, lookup_app_r, length_map, Nat.sub_diag
      by (rewrite length_map; reflexivity); reflexivity | exact Hk].
  cbn [mbind result_bind]. rewrite Hindex, assigned_cons.
  replace (S (length done)) with (length (done ++ [(k, f)])) by (rewrite length_app; simpl; lia).
  apply IH.
  - now rewrite <- app_assoc.
  - eapply Forall_impl; [exact Hlt|]. intros kf; simpl. now rewrite length_insert.
Qed.

Lemma assign_all (u : Update.t) (t : tuple) :
  Update._index u = Relation._index R ->
  Update._idx u = map (fun kf => pos (fst kf)) fd ->
  Update._fs u = map snd fd ->
  length t = length (Relation._attributes R) ->
  for_loop (Update.assign u t) t (enumerate (Update._fs u))
  = Ok (assigned (Relation._index R) t t fd).
Proof.
  intros Hindex Hidx Hfs Ht. unfold enumerate. rewrite Hfs, length_map.
  apply (assign_loop u t Hindex fd [] t Hidx).
  rewrite List.Forall_forall. intros [k f] Hin. simpl.
  destruct (key_position k) as (_ & Hlt & _).
  - apply in_map_iff. exists (k, f); auto.
  - now rewrite Ht.
Qed.
End UpdateRow.

Lemma Update_init (R : Relation.t) (fd : list (string * (Row.t -> Value))) :
  indexed R ->
  Forall (fun k => In k (Relation.names R)) (map fst fd) ->
  Update.__init__ R fd
  = Ok (Update.mk (Relation._attributes R) (Relation._index R) (Relation.__iter__ R)
          (map (fun kf => position (Relation._index R) (fst kf)) fd) (map snd fd)).
Proof.
  intros HR Hnames. unfold Update.__init__.
  rewrite (comprehension_pure _ (position (Relation._index R))).
  - cbn [mbind result_bind]. now rewrite map_map.
  - rewrite List.Forall_forall in *. intros k Hk. specialize (Hnames k Hk).
    destruct (attribute_of_name R k HR Hnames) as (i & _ & Hi & _).
    unfold Relation.index, Relation.lookup_index, position in *.
    destruct (Relation._index R !! k); [reflexivity | discriminate].
Qed.

Lemma Update_drain (R : Relation.t) (fd : list (string * (Row.t -> Value))) :
  indexed R -> NoDup (map fst fd) ->
  Forall (fun k => In k (Relation.names R)) (map fst fd) ->
  forall (itr : iterator) (fuel : nat),
    Forall (fun t : tuple => length t = length (Relation._attributes R)) itr ->
    length itr < fuel ->
    drain Update.__next__ fuel
          (Update.mk (Relation._attributes R) (Relation._index R) itr
             (map (fun kf => position (Relation._index R) (fst kf)) fd) (map snd fd))
    = (map (fun t => assigned (Relation._index R) t t fd) itr, Exhausted).
Proof.
  intros HR Hnd Hnames. induction itr as [|t itr IH]; intros fuel Hconf Hfuel;
    (destruct fuel as [|fuel]; [inversion Hfuel|]); [reflexivity|].
  apply Forall_cons in Hconf as [Ht Hconf]. simpl in Hfuel.
  cbn [drain]. unfold Update.__next__ at 1.
  cbn [next Update._itr Update._fs Update._attributes Update._index Update._idx].
  rewrite (assign_all R fd HR Hnames) by (reflexivity || assumption).
  rewrite IH by (assumption || lia). reflexivity.
Qed.

(** C9. The update operator has the schema of its input and yields one
    tuple per input tuple, of the same length; in it the column a name of
    [fd] resolves to holds the value of that name's function on the row of
    the input tuple as it was drawn, and every other column holds the input
    tuple's value. *)
Theorem Update_uses_the_original_row
        (R : Relation.t) (fd : list (string * (Row.t -> Value))) (fuel : nat) :
  indexed R -> conforming R ->
  NoDup (map fst fd) ->
  Forall (fun k => In k (Relation.names R)) (map fst fd) ->
  length (Relation.__iter__ R) < fuel ->
  exists (u : Update.t) (out : list tuple),
    Update.__init__ R fd = Ok u /\
    Update._attributes u = Relation._attributes R /\
    Update._index u = Relation._index R /\
    drain Update.__next__ fuel u = (out, Exhausted) /\
    Forall2 (fun t t' : tuple =>
               length t' = length t /\
               forall i : nat,
                 (forall name f, In (name, f) fd ->
                                 Relation._index R !! name = Some i ->
                                 t' !! i = Some (f (Row.mk (Relation._index R) t))) /\
                 ((forall name f, In (name, f) fd -> Relation._index R !! name <> Some i) ->
                  t' !! i = t !! i))
            (Relation.__iter__ R) out.
Proof.
  intros HR Hconf Hnd Hnames Hfuel.
  eexists; eexists. split; [now apply Update_init|].
  split; [reflexivity|]. split; [reflexivity|].
  split; [now apply Update_drain|].
  unfold conforming in Hconf. clear Hfuel.
  induction Hconf as [|t itr Ht _ IH]; cbn [map]; [constructor|].
  constructor; [|exact IH].
  split; [apply assigned_length|]. intros i; split.
  - intros name f Hin Hi.
    destruct (key_position R fd HR Hnames name) as (Hpos & Hlt & _).
    { apply in_map_iff. exists (name, f); auto. }
    assert (i = position (Relation._index R) name) as -> by congruence.
    apply assigned_key; [now apply positions_NoDup | exact Hin | now rewrite Ht].
  - intros Hother. apply assigned_other. rewrite in_map_iff. intros ([k f] & Heq & Hin).
    simpl in Heq. apply (Hother k f Hin).
    destruct (key_position R fd HR Hnames k) as (Hpos & _).
    { apply in_map_iff. exists (k, f); auto. }
    now rewrite Hpos, Heq.
Qed.

Lemma Update_uses_the_original_row_witness :
  let R := Relation.__init__ [Attribute.mk "Low" Tint; Attribute.mk "High" Tint] None
             [[VInt 1; VInt 2]; [VInt 3; VInt 4]] in
  let column (name : string) (r : Row.t) : Value :=
    match Row.__call__ r name with Ok v => v | Raise _ => VInt 0 end in
  let fd := [("Low", column "High"); ("High", column "Low")] in
  exists u : Update.t,
    Update.__init__ R fd = Ok u /\
    drain Update.__next__ 3 u = ([[VInt 2; VInt 1]; [VInt 4; VInt 3]], Exhausted).
Proof.
  intros R column fd.
  destruct (Update_uses_the_original_row R fd 3) as (u & out & Hu & _ & _ & Hdrain & _).
  - reflexivity.
  - forall_by ltac:(reflexivity).
  - repeat (apply NoDup_cons_2; [rewrite list_elem_of_In; simpl; intuition discriminate|]).
    apply NoDup_nil_2.
  - forall_by ltac:(simpl; auto 10).
  - simpl; lia.
  - exists u. split; [exact Hu|]. clear Hdrain.
    vm_compute in Hu. injection Hu as <-. vm_compute. reflexivity.
Defined.

(** ** Horizontal concatenation *)

Lemma HCat_next_stopped (attributes : list Attribute.t) (index : gmap string nat)
      (itrs : list iterator) :
  Exists (fun itr => itr = []) itrs ->
  HCat.__next__ (HCat.mk attributes index itrs)
  = if forallb (fun itr : iterator => bool_decide (itr = [])) itrs
    then StopIteration else Raised RuntimeError.
Proof.
  intros Hex. unfold HCat.__next__. cbn [HCat._itrs].
  assert (Hany : existsb id (map HCat.is_None (map next itrs)) = true).
  { apply existsb_exists. apply List.Exists_exists in Hex as (itr & Hin & ->).
    exists true. split; [|reflexivity].
    apply in_map_iff. exists None. split; [reflexivity|].
    apply in_map_iff. exists []. auto. }
  rewrite Hany.
  assert (Hall : forallb id (map HCat.is_None (map next itrs))
                 = forallb (fun itr : iterator => bool_decide (itr = [])) itrs).
  { clear. induction itrs as [|[|t itr] itrs IH]; simpl; [reflexivity| |reflexivity].
    rewrite IH. reflexivity. }
  rewrite Hall. destruct (forallb _ itrs); reflexivity.
Qed.

Lemma HCat_next_yield (attributes : list Attribute.t) (index : gmap string nat)
      (itrs : list iterator) :
  Forall (fun itr => itr <> []) itrs ->
  exists (ts : list tuple) (itrs' : list iterator),
    HCat.__next__ (HCat.mk attributes index itrs)
    = Yield (concat ts) (HCat.mk attributes index itrs') /\
    Forall3 (fun itr t itr' => itr = t :: itr') itrs ts itrs'.
Proof.
  intros Hall. unfold HCat.__next__. cbn [HCat._itrs HCat._attributes HCat._index].
  induction Hall as [|itr itrs Hitr _ (ts & itrs' & Hnext & H3)].
  - exists [], []. split; [reflexivity | constructor].
  - destruct itr as [|t itr]; [congruence|].
    exists (t :: ts), (itr :: itrs'). split; [|now constructor].
    cbn [map next HCat.is_None existsb id] in *.
    destruct (existsb id (map HCat.is_None (map next itrs))); [destruct (negb _); discriminate|].
    cbn [orb concat]. inversion Hnext; subst. reflexivity.
Qed.

Lemma HCat_drain (attributes : list Attribute.t) (index : gmap string nat) :
  forall (fuel : nat) (itrs : list iterator),
    Exists (fun itr => length itr < fuel) itrs ->
    exists (m : nat) (out : list tuple) (o : outcome),
      drain HCat.__next__ fuel (HCat.mk attributes index itrs) = (out, o) /\
      length out = m /\
      Forall (fun itr => m <= length itr) itrs /\
      Exists (fun itr => length itr = m) itrs /\
      (forall k : nat,
          k < m ->
          exists ts : list tuple,
            Forall2 (fun (itr : iterator) t => itr !! k = Some t) itrs ts /\
            out !! k = Some (concat ts)) /\
      (Forall (fun itr => length itr = m) itrs -> o = Exhausted) /\
      (Exists (fun itr => length itr <> m) itrs -> o = Failed RuntimeError).
Proof.
  induction fuel as [|fuel IH]; intros itrs Hfuel.
  { apply List.Exists_exists in Hfuel as (itr & _ & H). inversion H. }
  destruct (decide (Exists (fun itr : iterator => itr = []) itrs)) as [Hstop|Hgo].
  - exists 0, [].
    exists (if forallb (fun itr : iterator => bool_decide (itr = [])) itrs
            then Exhausted else Failed RuntimeError).
    cbn [drain]. rewrite HCat_next_stopped by exact Hstop.
    split; [destruct (forallb _ itrs); reflexivity|]. split; [reflexivity|].
    split; [apply List.Forall_forall; intros; lia|].
    split; [eapply List.Exists_impl; [|exact Hstop]; intros itr ->; reflexivity|].
    split; [intros k Hk; inversion Hk|]. split.
    + intros Hall. replace (forallb _ itrs) with true; [reflexivity|].
      symmetry. apply forallb_forall. intros itr Hin.
      rewrite List.Forall_forall in Hall. specialize (Hall itr Hin).
      apply bool_decide_eq_true. now destruct itr.
    + intros Hex. replace (forallb _ itrs) with false; [reflexivity|].
      symmetry. apply not_true_is_false. intros Hall.
      apply List.Exists_exists in Hex as (itr & Hin & Hne).
      rewrite forallb_forall in Hall. specialize (Hall itr Hin).
      apply bool_decide_eq_true in Hall. subst itr. now apply Hne.
  - assert (Hall : Forall (fun itr : iterator => itr <> []) itrs).
    { apply List.Forall_forall. intros itr Hin Hnil. apply Hgo.
      apply List.Exists_exists. eauto. }
    destruct (HCat_next_yield attributes index itrs Hall) as (ts & itrs' & Hnext & H3).
    assert (Hfuel' : Exists (fun itr => length itr < fuel) itrs').
    { clear -Hfuel H3. induction H3 as [|itr t itr' itrs ts itrs' -> _ IH]; [inversion Hfuel|].
      apply Exists_cons in Hfuel as [H|H]; [left; simpl in H; lia | right; auto]. }
    destruct (IH itrs' Hfuel') as (m & out & o & Hdrain & Hlen & Hmin & Hex & Hrows & Hend & Hfail).
    exists (S m), (concat ts :: out), o.
    cbn [drain]. rewrite Hnext, Hdrain.
    split; [reflexivity|]. split; [simpl; lia|].
    split; [|split; [|split; [|split]]].
    + clear -H3 Hmin. induction H3 as [|itr t itr' itrs ts itrs' -> _ IH]; [constructor|].
      apply Forall_cons in Hmin as [H Hmin]. constructor; [simpl; lia | auto].
    + clear -H3 Hex. induction H3 as [|itr t itr' itrs ts itrs' -> _ IH]; [inversion Hex|].
      apply Exists_cons in Hex as [H|H]; [left; simpl; lia | right; auto].
    + intros [|k] Hk.
      * exists ts. split; [|reflexivity].
        clear -H3. induction H3 as [|itr t itr' itrs ts itrs' -> _ IH]; constructor; auto.
      * destruct (Hrows k ltac:(lia)) as (ts' & Hts' & Hout).
        exists ts'. split; [|exact Hout].
        clear -H3 Hts'. revert ts' Hts'.
        induction H3 as [|itr t itr' itrs ts itrs' -> _ IH]; intros ts' Hts';
          inversion Hts'; subst; constructor; auto.
    + intros Heq. apply Hend.
      clear -H3 Heq. induction H3 as [|itr t itr' itrs ts itrs' -> _ IH]; [constructor|].
      apply Forall_cons in Heq as [H Heq]. constructor; [simpl in H; lia | auto].
    + intros Hne. apply Hfail.
      clear -H3 Hne. induction H3 as [|itr t itr' itrs ts itrs' -> _ IH]; [inversion Hne|].
      apply Exists_cons in Hne as [H|H]; [left; simpl in H; lia | right; auto].
Qed.

(** C8. Horizontal concatenation of accepted inputs yields, at each step,
    the concatenation in input order of one tuple drawn from every input,
    for as many steps [m] as the shortest input has tuples. At step [m] some
    input is exhausted: the iteration ends normally when every input is,
    and fails with the [RuntimeError] "Unequal tuple counts" when another
    input still has a tuple. *)
Theorem HCat_draws_one_tuple_from_every_input
        (r1 r2 : Relation.t) (rest : list Relation.t) (h : HCat.t) (fuel : nat) :
  HCat.__init__ r1 r2 rest = Ok h ->
  length (Relation.__iter__ r1) < fuel ->
  let itrs := map Relation.__iter__ (r1 :: r2 :: rest) in
  exists (m : nat) (out : list tuple) (o : outcome),
    drain HCat.__next__ fuel h = (out, o) /\
    length out = m /\
    Forall (fun itr => m <= length itr) itrs /\
    Exists (fun itr => length itr = m) itrs /\
    (forall k : nat,
        k < m ->
        exists ts : list tuple,
          Forall2 (fun (itr : iterator) t => itr !! k = Some t) itrs ts /\
          out !! k = Some (concat ts)) /\
    (Forall (fun itr => length itr = m) itrs -> o = Exhausted) /\
    (Exists (fun itr => length itr <> m) itrs -> o = Failed RuntimeError).
Proof.
  intros Hh Hfuel itrs. unfold HCat.__init__ in Hh.
  apply bind_Ok in Hh as (name_type & _ & Hh). injection Hh as <-.
  apply HCat_drain. left. exact Hfuel.
Qed.

Lemma HCat_draws_one_tuple_from_every_input_witness :
  let names := Relation.__init__ [Attribute.mk "Name" Tstr] None
                 [[VStr "Lisa"]; [VStr "Bart"]] in
  let ages := Relation.__init__ [Attribute.mk "Age" Tint] None
                [[VInt 8]; [VInt 10]; [VInt 9]] in
  exists h : HCat.t,
    HCat.__init__ names ages [] = Ok h /\
    drain HCat.__next__ 3 h
    = ([[VStr "Lisa"; VInt 8]; [VStr "Bart"; VInt 10]], Failed RuntimeError).
Proof.
  intros names ages.
  assert (Hh : exists h, HCat.__init__ names ages [] = Ok h) by (eexists; vm_compute; reflexivity).
  destruct Hh as (h & Hh). exists h. split; [exact Hh|].
  destruct (HCat_draws_one_tuple_from_every_input names ages [] h 3 Hh ltac:(simpl; lia))
    as (m & out & o & Hdrain & _).
  vm_compute in Hh. injection Hh as <-. vm_compute. reflexivity.
Defined.

(** ** Equality of values is symmetric and transitive *)

Lemma xreal_eqb_sym (a b : xreal) : xreal_eqb a b = xreal_eqb b a.
Proof.
  destruct a, b; simpl; try reflexivity.
  apply eq_true_iff_eq. rewrite !Qeq_bool_iff. split; intros H; now symmetry.
Qed.

Lemma xreal_eqb_trans (a b c : xreal) :
  xreal_eqb a b = true -> xreal_eqb b c = true -> xreal_eqb a c = true.
Proof.
  destruct a, b, c; simpl; try congruence.
  rewrite !Qeq_bool_iff. intros H1 H2. now rewrite H1.
Qed.

Lemma py_eq_sym (v w : Value) : py_eq v w = py_eq w v.
Proof.
  destruct v, w; cbn [py_eq number]; try reflexivity; try apply xreal_eqb_sym.
  apply String.eqb_sym.
Qed.

Lemma py_eq_trans (u v w : Value) :
  py_eq u v = true -> py_eq v w = true -> py_eq u w = true.
Proof.
  destruct u, v, w; cbn [py_eq number]; try congruence; try apply xreal_eqb_trans.
  rewrite !String.eqb_eq. congruence.
Qed.

Lemma tuple_eq_sym (a : tuple) : forall b : tuple, tuple_eq a b = tuple_eq b a.
Proof.
  induction a as [|x a IH]; intros [|y b]; simpl; try reflexivity.
  now rewrite py_eq_sym, IH.
Qed.

Lemma tuple_eq_trans (a : tuple) :
  forall b c : tuple, tuple_eq a b = true -> tuple_eq b c = true -> tuple_eq a c = true.
Proof.
  induction a as [|x a IH]; intros [|y b] [|z c]; simpl; try congruence.
  rewrite !andb_true_iff. intros [H1 H2] [H3 H4]. split.
  - eapply py_eq_trans; eauto.
  - eapply IH; eauto.
Qed.

(** Two keys that are equal are equal to the same keys. *)
(** ** Comparison of tuples and the identity of objects *)

Lemma py_eq_refl (v : Value) : is_NaN v = false -> py_eq v v = true.
Proof.
  destruct v as [s|z|f]; cbn [is_NaN py_eq number].
  - intros _. apply String.eqb_refl.
  - intros _. cbn [xreal_eqb]. apply Qeq_bool_iff. reflexivity.
  - destruct (float_value f); cbn [xreal_eqb]; try reflexivity; try discriminate.
    intros _. apply Qeq_bool_iff. reflexivity.
Qed.

Lemma item_eq_by_value (x y : object) :
  (address x = address y -> content x = content y) ->
  is_NaN (content x) = false ->
  item_eq x y = py_eq (content x) (content y).
Proof.
  intros Hco Hx. unfold item_eq.
  destruct (N.eqb_spec (address x) (address y)) as [Heq|Hne]; [|reflexivity].
  rewrite <- (Hco Heq). cbn [orb]. symmetry. now apply py_eq_refl.
Qed.

(** The interpreter's comparison of a tuple that holds no NaN with any
    tuple is the comparison of their values: that an item is the very
    object it is compared with makes a difference for a NaN only. *)
Lemma tuples_without_NaN_compare_by_value (a : list object) :
  forall b : list object,
    coherent (a ++ b) ->
    nan_free (map content a) = true ->
    tuple_eq_of_objects a b = tuple_eq (map content a) (map content b) /\
    tuple_lt_of_objects a b = tuple_lt (map content a) (map content b).
Proof.
  induction a as [|x a IH]; intros [|y b] Hco Hnan; try (split; reflexivity).
  cbn [nan_free forallb map] in Hnan. apply andb_prop in Hnan as [Hx Ha].
  apply negb_true_iff in Hx.
  assert (Hxy : item_eq x y = py_eq (content x) (content y)).
  { apply item_eq_by_value; [|exact Hx]. apply Hco.
    - now left.
    - apply in_or_app. right. now left. }
  destruct (IH b) as [IHeq IHlt]; [|exact Ha|].
  { intros u v Hu Hv. apply Hco.
    - apply in_app_or in Hu as [Hu|Hu]; [right; apply in_or_app; now left|].
      right. apply in_or_app. right. now right.
    - apply in_app_or in Hv as [Hv|Hv]; [right; apply in_or_app; now left|].
      right. apply in_or_app. right. now right. }
  cbn [tuple_eq_of_objects tuple_lt_of_objects tuple_eq tuple_lt map].
  rewrite Hxy, IHeq, IHlt. split; reflexivity.
Qed.

(** The same NaN object in two tuples: equal for the interpreter, unequal
    by value. *)
Example the_same_NaN_in_two_tuples :
  let N := mk_object 1 (VFloat nan) in
  tuple_eq_of_objects [N] [N] = true /\
  tuple_eq (map content [N]) (map content [N]) = false /\
  tuple_lt_of_objects [N; mk_object 2 (VInt 1)] [N; mk_object 3 (VInt 2)] = Ok true /\
  tuple_lt (map content [N; mk_object 2 (VInt 1)]) (map content [N; mk_object 3 (VInt 2)])
  = Ok false.
Proof. repeat split; vm_compute; reflexivity. Qed.

Lemma tuple_eq_class (k q : tuple) :
  tuple_eq k q = true -> forall k0 : tuple, tuple_eq k0 k = tuple_eq k0 q.
Proof.
  intros Hkq k0. apply eq_true_iff_eq. split; intros H.
  - eapply tuple_eq_trans; eauto.
  - eapply tuple_eq_trans; [exact H|]. now rewrite tuple_eq_sym.
Qed.

(** ** The hash table of the join *)

Lemma lookup_same_class (k q : tuple) (d : list (tuple * list tuple)) :
  tuple_eq k q = true -> HashNaturalJoin.lookup k d = HashNaturalJoin.lookup q d.
Proof.
  intros Hkq. induction d as [|[k0 v] d IH]; simpl; [reflexivity|].
  rewrite (tuple_eq_class k q Hkq k0), IH. reflexivity.
Qed.



(** ** Natural join *)

Lemma getitem_Some {A : Type} (t : list A) (i : nat) (v : A) :
  t !! i = Some v -> getitem t i = Ok v.
Proof. unfold getitem. now intros ->. Qed.

Lemma project_select (idx : list nat) (t : tuple) :
  Forall (fun i => i < length t) idx ->
  HashNaturalJoin.project idx t = Ok (select idx t).
Proof.
  unfold HashNaturalJoin.project, select.
  induction 1 as [|i idx Hi _ IH]; [reflexivity|].
  cbn [comprehension omap list_omap].
  destruct (lookup_lt_is_Some_2 t i Hi) as [v Hv].
  rewrite (getitem_Some t i v Hv), Hv, IH. reflexivity.
Qed.

Section JoinConstruction.
Context (left right : Relation.t).
Hypothesis left_indexed : indexed left.
Hypothesis right_indexed : indexed right.
Hypothesis types_agree :
  Forall (fun r => forall la, Relation.attribute left (Attribute.name r) = Ok la ->
                              Attribute.type r = Attribute.type la)
         (Relation._attributes right).

Local Abbreviation left_names := (list_to_set (Relation.names left) : gset string).






End JoinConstruction.







(** ** Sorting *)

Lemma StronglySorted_snoc {A : Type} (R : A -> A -> Prop) (l : list A) (x : A) :
  StronglySorted R l -> Forall (fun y => R y x) l -> StronglySorted R (l ++ [x]).
Proof.
  induction 1 as [|y l Hl IH Hy]; intros Hx; cbn [app].
  - constructor; constructor.
  - apply Forall_cons in Hx as [Hyx Hx]. constructor; [now apply IH|].
    apply Forall_app. split; [exact Hy | now constructor].
Qed.

Section StableSorting.
Context {A K : Type} (lt : K -> K -> result bool) (ks : list K).
Hypothesis ks_consistent : consistent_order lt ks = true.

Local Abbreviation ltb := (fun a b : K => holds (lt a b)).
Local Abbreviation keyed l := (Forall (fun x : K * A => In (fst x) ks) l).
Local Abbreviation ascending :=
  (StronglySorted (fun x y : K * A => ltb (fst y) (fst x) = false)).

Lemma consistent_pair (a b : K) :
  In a ks -> In b ks ->
  lt a b = Ok (ltb a b) /\ (ltb a b = true -> ltb b a = false) /\
  forall c, In c ks -> ltb a c = true -> ltb a b = true \/ ltb b c = true.
Proof.
  intros Ha Hb. unfold consistent_order in ks_consistent.
  rewrite forallb_forall in ks_consistent. specialize (ks_consistent a Ha).
  rewrite forallb_forall in ks_consistent. specialize (ks_consistent b Hb).
  apply andb_prop in ks_consistent as [H Htrans]. apply andb_prop in H as [Hdef Hasym].
  split; [|split].
  - destruct (lt a b); [reflexivity | discriminate].
  - intros Hab. rewrite Hab in Hasym. simpl in Hasym. now destruct (holds (lt b a)).
  - intros c Hc Hac. rewrite forallb_forall in Htrans. specialize (Htrans c Hc).
    rewrite Hac in Htrans. simpl in Htrans. now apply orb_prop in Htrans.
Qed.

Lemma place_Forall (P : K * A -> Prop) (x : K * A) (placed : list (K * A)) :
  P x -> Forall P placed -> Forall P (place ltb x placed).
Proof.
  intros Hx. induction 1 as [|y rest Hy Hrest IH]; cbn [place].
  - repeat constructor; assumption.
  - destruct (holds (lt (fst x) (fst y))); repeat constructor; assumption.
Qed.

Lemma place_all_Forall (P : K * A -> Prop) (l : list (K * A)) :
  forall placed, Forall P l -> Forall P placed -> Forall P (place_all ltb l placed).
Proof.
  induction l as [|x l IH]; intros placed Hl Hplaced; [exact Hplaced|].
  apply Forall_cons in Hl as [Hx Hl]. apply IH; [exact Hl|]. now apply place_Forall.
Qed.

Lemma place_ascending (x : K * A) (placed : list (K * A)) :
  In (fst x) ks -> keyed placed -> ascending placed -> ascending (place ltb x placed).
Proof.
  intros Hx Hkeyed Hasc. induction Hasc as [|y rest Hrest IH Hy]; cbn [place].
  - repeat constructor.
  - apply Forall_cons in Hkeyed as [Hyk Hkeyed].
    destruct (consistent_pair _ _ Hx Hyk) as (_ & Hasym & _).
    destruct (holds (lt (fst x) (fst y))) eqn:Hxy.
    + constructor; [now constructor|]. constructor; [now apply Hasym|].
      rewrite List.Forall_forall in Hy, Hkeyed |- *. intros z Hz.
      destruct (holds (lt (fst z) (fst x))) eqn:Hzx; [|reflexivity].
      destruct (consistent_pair _ _ (Hkeyed z Hz) Hyk) as (_ & _ & Htrans).
      destruct (Htrans _ Hx Hzx) as [Hzy|Hyx].
      * now rewrite (Hy z Hz) in Hzy.
      * now rewrite (Hasym eq_refl) in Hyx.
    + constructor; [now apply IH|]. apply place_Forall; assumption.
Qed.

Lemma place_all_ascending (l : list (K * A)) :
  forall placed,
    keyed l -> keyed placed -> ascending placed -> ascending (place_all ltb l placed).
Proof.
  induction l as [|x l IH]; intros placed Hl Hplaced Hasc; [exact Hasc|].
  apply Forall_cons in Hl as [Hx Hl]. apply IH; [exact Hl | |].
  - now apply place_Forall.
  - now apply place_ascending.
Qed.

Lemma place_last (x : K * A) (placed : list (K * A)) :
  Forall (fun y => ltb (fst x) (fst y) = false) placed ->
  place ltb x placed = placed ++ [x].
Proof.
  induction 1 as [|y rest Hy _ IH]; [reflexivity|].
  cbn [place]. rewrite Hy, IH. reflexivity.
Qed.

Lemma ascending_app (l1 l2 : list (K * A)) :
  ascending (l1 ++ l2) ->
  Forall (fun y => Forall (fun x => ltb (fst x) (fst y) = false) l2) l1.
Proof.
  induction l1 as [|y l1 IH]; intros H; [constructor|].
  inversion H as [|? ? Hrest Hy]; subst. constructor; [|now apply IH].
  apply Forall_app in Hy as [_ Hy]. exact Hy.
Qed.

(** Sorting a sorted list leaves it as it is. *)
Lemma place_all_sorted (l : list (K * A)) :
  forall placed, ascending (placed ++ l) -> place_all ltb l placed = placed ++ l.
Proof.
  induction l as [|x l IH]; intros placed Hasc; [now rewrite app_nil_r|].
  cbn [place_all fold_left]. fold (place_all ltb l (place ltb x placed)).
  rewrite place_last.
  - rewrite IH; rewrite <- app_assoc; [reflexivity | exact Hasc].
  - apply ascending_app in Hasc. eapply Forall_impl; [exact Hasc|].
    intros y Hy. now apply Forall_cons in Hy as [Hy _].
Qed.

(** *** The interpreter's sort on consistently ordered keys *)

Lemma lt_keys (a b : K) : In a ks -> In b ks -> lt a b = Ok (ltb a b).
Proof. intros Ha Hb. apply (consistent_pair a b Ha Hb). Qed.

Lemma ascending_lookup (l : list (K * A)) :
  ascending l ->
  forall (i j : nat) (x y : K * A),
    i < j -> l !! i = Some x -> l !! j = Some y -> ltb (fst y) (fst x) = false.
Proof.
  induction 1 as [|z l Hl IH Hz]; intros i j x y Hij Hi Hj; [discriminate|].
  destruct j as [|j]; [lia|]. destruct i as [|i]; simpl in Hi, Hj.
  - injection Hi as <-. rewrite List.Forall_forall in Hz. apply Hz.
    apply list_elem_of_In. eapply list_elem_of_lookup_2; eauto.
  - apply (IH i j x y); [lia | exact Hi | exact Hj].
Qed.

(** An item is placed before the first item that is above it. *)
Lemma place_at (x : K * A) (placed : list (K * A)) :
  forall m : nat,
    (forall j y, j < m -> placed !! j = Some y -> ltb (fst x) (fst y) = false) ->
    (forall y, placed !! m = Some y -> ltb (fst x) (fst y) = true) ->
    m <= length placed ->
    place ltb x placed = take m placed ++ x :: drop m placed.
Proof.
  induction placed as [|y rest IH]; intros m Hlow Hhigh Hm.
  - simpl in Hm. replace m with 0 by lia. reflexivity.
  - destruct m as [|m].
    + cbn [place]. rewrite (Hhigh y eq_refl). reflexivity.
    + cbn [place]. rewrite (Hlow 0 y ltac:(lia) eq_refl). simpl. f_equal.
      apply IH.
      * intros j z Hj Hz. apply (Hlow (S j) z); [lia | exact Hz].
      * intros z Hz. apply Hhigh. exact Hz.
      * simpl in Hm. lia.
Qed.

(** The binary search finds that place in a sorted list. *)
Lemma bisect_spec (pivot : K) (placed : list (K * A)) :
  In pivot ks -> keyed placed -> ascending placed ->
  forall fuel l r : nat,
    l < r -> r <= length placed -> r - l <= fuel ->
    (forall j y, j < l -> placed !! j = Some y -> ltb pivot (fst y) = false) ->
    (forall j y, r <= j -> placed !! j = Some y -> ltb pivot (fst y) = true) ->
    exists m : nat,
      bisect lt fuel pivot placed l r = Ok m /\ m <= length placed /\
      (forall j y, j < m -> placed !! j = Some y -> ltb pivot (fst y) = false) /\
      (forall j y, m <= j -> placed !! j = Some y -> ltb pivot (fst y) = true).
Proof.
  intros Hp Hkeyed Hasc.
  assert (Hin : forall j z, placed !! j = Some z -> In (fst z) ks).
  { intros j z Hz. rewrite List.Forall_forall in Hkeyed. apply Hkeyed.
    apply list_elem_of_In. eapply list_elem_of_lookup_2; eauto. }
  induction fuel as [|fuel IH]; intros l r Hlr Hr Hfuel Hlow Hhigh; [lia|].
  cbn [bisect].
  assert (Hhalf : (r - l) / 2 < r - l) by (apply Nat.div_lt; lia).
  set (p := l + (r - l) / 2) in *.
  assert (Hpl : l <= p) by (unfold p; lia).
  assert (Hpr : p < r) by (unfold p; lia).
  destruct (lookup_lt_is_Some_2 placed p ltac:(lia)) as [y Hy].
  rewrite (getitem_Some _ _ _ Hy). cbn [mbind result_bind].
  rewrite (lt_keys _ _ Hp (Hin p y Hy)). cbn [mbind result_bind].
  destruct (holds (lt pivot (fst y))) eqn:Hc.
  - assert (Hhigh' : forall j z, p <= j -> placed !! j = Some z -> ltb pivot (fst z) = true).
    { intros j z Hj Hz. destruct (decide (j = p)) as [->|Hne]; [congruence|].
      assert (Hzy : ltb (fst z) (fst y) = false)
        by (apply (ascending_lookup placed Hasc p j y z); [lia | exact Hy | exact Hz]).
      destruct (consistent_pair pivot (fst z) Hp (Hin j z Hz)) as (_ & _ & Htrans).
      destruct (Htrans (fst y) (Hin p y Hy) Hc) as [H|H]; [exact H | congruence]. }
    destruct (l <? p) eqn:Hlp.
    + apply Nat.ltb_lt in Hlp. apply IH; [exact Hlp | lia | lia | exact Hlow | exact Hhigh'].
    + apply Nat.ltb_ge in Hlp. exists l. split; [reflexivity|]. split; [lia|].
      split; [exact Hlow|]. intros j z Hj Hz. apply (Hhigh' j z); [lia | exact Hz].
  - assert (Hlow' : forall j z, j < S p -> placed !! j = Some z -> ltb pivot (fst z) = false).
    { intros j z Hj Hz. destruct (decide (j = p)) as [->|Hne]; [congruence|].
      assert (Hyz : ltb (fst y) (fst z) = false)
        by (apply (ascending_lookup placed Hasc j p z y); [lia | exact Hz | exact Hy]).
      destruct (holds (lt pivot (fst z))) eqn:Hpz; [|reflexivity].
      destruct (consistent_pair pivot (fst y) Hp (Hin p y Hy)) as (_ & _ & Htrans).
      destruct (Htrans (fst z) (Hin j z Hz) Hpz) as [H|H]; congruence. }
    destruct (S p <? r) eqn:Hpr'.
    + apply Nat.ltb_lt in Hpr'. apply IH; [exact Hpr' | lia | lia | exact Hlow' | exact Hhigh].
    + apply Nat.ltb_ge in Hpr'. exists (S p). split; [reflexivity|]. split; [lia|].
      split; [exact Hlow'|]. intros j z Hj Hz. apply (Hhigh j z); [lia | exact Hz].
Qed.

Lemma binary_insert_place (x : K * A) (placed : list (K * A)) :
  In (fst x) ks -> keyed placed -> ascending placed ->
  binary_insert lt placed x = Ok (place ltb x placed).
Proof.
  intros Hx Hkeyed Hasc. unfold binary_insert.
  destruct (decide (length placed = 0)) as [Hnil|Hlen].
  - destruct placed; [reflexivity | discriminate].
  - destruct (bisect_spec (fst x) placed Hx Hkeyed Hasc (length placed) 0 (length placed))
      as (m & -> & Hm & Hlow & Hhigh); [lia | lia | lia | intros; lia | |].
    + intros j z Hj Hz. apply lookup_lt_Some in Hz. lia.
    + cbn [mbind result_bind]. f_equal. symmetry. apply place_at; [exact Hlow | | exact Hm].
      intros z Hz. apply (Hhigh m z); [lia | exact Hz].
Qed.

Lemma binarysort_place_all (rest : list (K * A)) :
  forall run : list (K * A),
    keyed rest -> keyed run -> ascending run ->
    binarysort lt run rest = Ok (place_all ltb rest run).
Proof.
  unfold binarysort.
  induction rest as [|x rest IH]; intros run Hrest Hrun Hasc; [reflexivity|].
  apply Forall_cons in Hrest as [Hx Hrest].
  cbn [for_loop]. rewrite binary_insert_place by assumption. cbn [mbind result_bind].
  apply IH; [exact Hrest | now apply place_Forall | now apply place_ascending].
Qed.

(** A run that does not descend is left as it is, and a run that descends
    everywhere is reversed, by placing its items one after the other. *)
Lemma run_ascending_place_all (l : list (K * A)) :
  forall (acc : list (K * A)) (p : K * A),
    keyed l -> keyed (acc ++ [p]) -> ascending (acc ++ [p]) ->
    exists n : nat,
      run_ascending lt (fst p) l = Ok n /\ n <= length l /\
      place_all ltb (take n l) (acc ++ [p]) = (acc ++ [p]) ++ take n l.
Proof.
  induction l as [|x l IH]; intros acc p Hl Hacc Hasc.
  - exists 0. split; [reflexivity|]. split; [reflexivity|]. simpl. now rewrite app_nil_r.
  - apply Forall_cons in Hl as [Hx Hl]. cbn [run_ascending].
    assert (Hpk : In (fst p) ks).
    { apply Forall_app in Hacc as [_ Hp]. now apply Forall_cons in Hp as [Hp _]. }
    rewrite (lt_keys _ _ Hx Hpk). cbn [mbind result_bind].
    destruct (holds (lt (fst x) (fst p))) eqn:Hc.
    + exists 0. split; [reflexivity|]. split; [lia|]. simpl. now rewrite app_nil_r.
    + assert (Hall : Forall (fun y : K * A => ltb (fst x) (fst y) = false) (acc ++ [p])).
      { apply Forall_app. split; [|constructor; [exact Hc | constructor]].
        pose proof (ascending_app _ _ Hasc) as Hbelow.
        apply Forall_app in Hacc as [Hacc _].
        rewrite List.Forall_forall in Hbelow, Hacc |- *. intros y Hy.
        specialize (Hbelow y Hy). apply Forall_cons in Hbelow as [Hpy _].
        destruct (holds (lt (fst x) (fst y))) eqn:Hxy; [|reflexivity].
        destruct (consistent_pair (fst x) (fst p) Hx Hpk) as (_ & _ & Htrans).
        destruct (Htrans (fst y) (Hacc y Hy) Hxy) as [H|H]; congruence. }
      destruct (IH (acc ++ [p]) x Hl) as (n & Hn & Hle & Hplace).
      * apply Forall_app. split; [exact Hacc | constructor; [exact Hx | constructor]].
      * apply StronglySorted_snoc; [exact Hasc | exact Hall].
      * exists (S n). rewrite Hn. split; [reflexivity|]. split; [simpl; lia|].
        simpl take. cbn [place_all fold_left].
        fold (place_all ltb (take n l) (place ltb x (acc ++ [p]))).
        rewrite (place_last x (acc ++ [p]) Hall), Hplace.
        now rewrite <- !app_assoc.
Qed.

Lemma run_descending_place_all (l : list (K * A)) :
  forall (acc : list (K * A)) (p : K * A),
    keyed l -> In (fst p) ks ->
    exists n : nat,
      run_descending lt (fst p) l = Ok n /\ n <= length l /\
      place_all ltb (take n l) (p :: acc) = rev (take n l) ++ p :: acc.
Proof.
  induction l as [|x l IH]; intros acc p Hl Hp.
  - exists 0. repeat split; reflexivity.
  - apply Forall_cons in Hl as [Hx Hl]. cbn [run_descending].
    rewrite (lt_keys _ _ Hx Hp). cbn [mbind result_bind].
    destruct (holds (lt (fst x) (fst p))) eqn:Hc.
    + destruct (IH (p :: acc) x Hl Hx) as (n & Hn & Hle & Hplace).
      exists (S n). rewrite Hn. split; [reflexivity|]. split; [simpl; lia|].
      simpl take. cbn [place_all fold_left place]. rewrite Hc.
      fold (place_all ltb (take n l) (x :: p :: acc)).
      rewrite Hplace. cbn [rev]. now rewrite <- app_assoc.
    + exists 0. split; [reflexivity|]. split; [lia | reflexivity].
Qed.

Lemma count_run_place_all (l : list (K * A)) :
  keyed l -> 2 <= length l ->
  exists (n : nat) (descending : bool),
    count_run lt l = Ok (n, descending) /\ n <= length l /\
    (if descending then rev (take n l) else take n l) = place_all ltb (take n l) [].
Proof.
  intros Hl Hlen. destruct l as [|x [|y l]]; simpl in Hlen; try lia.
  apply Forall_cons in Hl as [Hx Hl]. apply Forall_cons in Hl as [Hy Hl].
  cbn [count_run]. rewrite (lt_keys _ _ Hy Hx). cbn [mbind result_bind].
  destruct (holds (lt (fst y) (fst x))) eqn:Hc.
  - destruct (run_descending_place_all l [x] y Hl Hy) as (n & -> & Hle & Hplace).
    exists (2 + n), true. split; [reflexivity|]. split; [simpl; lia|].
    simpl take. cbn [place_all fold_left place]. rewrite Hc.
    fold (place_all ltb (take n l) [y; x]).
    rewrite Hplace. cbn [rev]. now rewrite <- !app_assoc.
  - destruct (run_ascending_place_all l [x] y Hl) as (n & -> & Hle & Hplace).
    + repeat constructor; assumption.
    + repeat constructor. exact Hc.
    + exists (2 + n), false. split; [reflexivity|]. split; [simpl; lia|].
      simpl take. cbn [place_all fold_left place]. rewrite Hc.
      fold (place_all ltb (take n l) [x; y]).
      symmetry. exact Hplace.
Qed.

(** On consistently ordered keys the sort places the items one after the
    other, each after the items already placed that are not above it. *)
Lemma sort_ascending_place_all (l : list (K * A)) :
  keyed l -> sort_ascending lt l = Ok (place_all ltb l []).
Proof.
  intros Hl. unfold sort_ascending. destruct (length l <? 2) eqn:Hlen.
  - apply Nat.ltb_lt in Hlen. destruct l as [|x [|y l]]; simpl in Hlen; try lia; reflexivity.
  - apply Nat.ltb_ge in Hlen.
    destruct (count_run_place_all l Hl Hlen) as (n & descending & -> & Hn & Hrun).
    cbn [mbind result_bind fst snd]. rewrite Hrun.
    rewrite binarysort_place_all.
    + f_equal. unfold place_all. rewrite <- fold_left_app. now rewrite take_drop.
    + now apply Forall_drop.
    + apply place_all_Forall; [now apply Forall_take | constructor].
    + apply place_all_ascending; [now apply Forall_take | constructor | constructor].
Qed.

(** Items whose keys are pairwise unordered keep their relative order. *)
Section Classes.
Context (member : K -> bool).
Hypothesis members_unordered :
  forall a b : K, member a = true -> member b = true -> ltb a b = false.

Local Abbreviation in_class := (fun x : K * A => member (fst x)).

Lemma place_class (x : K * A) (placed : list (K * A)) :
  In (fst x) ks -> keyed placed -> ascending placed ->
  List.filter in_class (place ltb x placed)
  = List.filter in_class placed ++ (if member (fst x) then [x] else []).
Proof.
  intros Hx Hkeyed Hasc. induction Hasc as [|y rest Hrest IH Hy]; cbn [place].
  - cbn [List.filter]. destruct (member (fst x)); reflexivity.
  - pose proof Hkeyed as Hall. apply Forall_cons in Hkeyed as [Hyk Hkeyed].
    destruct (holds (lt (fst x) (fst y))) eqn:Hxy.
    + cbn [List.filter]. destruct (member (fst x)) eqn:Hmx; [|now rewrite app_nil_r].
      assert (Hnone : Forall (fun z : K * A => member (fst z) = false) (y :: rest)).
      { assert (Hbelow : Forall (fun z : K * A => ltb (fst x) (fst z) = true) (y :: rest)).
        { constructor; [exact Hxy|].
          rewrite List.Forall_forall in Hy, Hkeyed |- *. intros z Hz.
          destruct (consistent_pair _ _ Hx (Hkeyed z Hz)) as (_ & _ & Htrans).
          destruct (Htrans _ Hyk Hxy) as [Hxz|Hzy]; [exact Hxz|].
          now rewrite (Hy z Hz) in Hzy. }
        eapply Forall_impl; [exact Hbelow|]. intros z Hxz. cbv beta in Hxz.
        destruct (member (fst z)) eqn:Hmz; [|reflexivity].
        now rewrite (members_unordered _ _ Hmx Hmz) in Hxz. }
      apply Forall_cons in Hnone as [Hny Hnrest]. rewrite Hny.
      replace (List.filter in_class rest) with (@nil (K * A)); [reflexivity|].
      clear -Hnrest. induction Hnrest as [|z rest Hz _ IH]; [reflexivity|].
      cbn [List.filter]. now rewrite Hz.
    + cbn [List.filter]. rewrite IH by assumption.
      destruct (member (fst y)); reflexivity.
Qed.

Lemma place_all_class (l : list (K * A)) :
  forall placed,
    keyed l -> keyed placed -> ascending placed ->
    List.filter in_class (place_all ltb l placed)
    = List.filter in_class placed ++ List.filter in_class l.
Proof.
  induction l as [|x l IH]; intros placed Hl Hplaced Hasc; [now rewrite app_nil_r|].
  apply Forall_cons in Hl as [Hx Hl].
  cbn [place_all fold_left]. fold (place_all ltb l (place ltb x placed)).
  rewrite IH; [| exact Hl | now apply place_Forall | now apply place_ascending].
  rewrite place_class by assumption. cbn [List.filter].
  rewrite <- app_assoc. now destruct (member (fst x)).
Qed.
End Classes.
End StableSorting.

(** Equal keys are not ordered. *)
Lemma string_ltb_irrefl (s : string) : String.ltb s s = false.
Proof.
  unfold String.ltb. pose proof (String.compare_antisym s s) as H.
  destruct (String.compare s s); try reflexivity; discriminate.
Qed.

Lemma xreal_eqb_not_ltb (a b : xreal) : xreal_eqb a b = true -> xreal_ltb a b = false.
Proof.
  destruct a, b; simpl; try congruence.
  rewrite Qeq_bool_iff. intros H. apply negb_false_iff, Qle_bool_iff.
  rewrite H. apply Qle_refl.
Qed.

Lemma py_eq_not_lt (v w : Value) : py_eq v w = true -> py_lt v w = Ok false.
Proof.
  destruct v, w; cbn [py_eq py_lt number]; try discriminate;
    try (intros H; now rewrite (xreal_eqb_not_ltb _ _ H)).
  rewrite String.eqb_eq. intros ->. now rewrite string_ltb_irrefl.
Qed.

Lemma tuple_eq_not_lt (a : tuple) :
  forall b : tuple, tuple_eq a b = true -> tuple_lt a b = Ok false.
Proof.
  induction a as [|x a IH]; intros [|y b]; simpl; try discriminate; [reflexivity|].
  rewrite andb_true_iff. intros [Hxy Hab]. rewrite Hxy. now apply IH.
Qed.

Lemma obj_eq_unordered (a b k : pyobj) :
  obj_eq a k = true -> obj_eq b k = true -> holds (obj_lt a b) = false.
Proof.
  destruct a as [u|s], b as [v|t], k as [w|q]; cbn [obj_eq obj_lt]; try discriminate.
  - intros Hu Hv. rewrite py_eq_sym in Hv.
    now rewrite (py_eq_not_lt _ _ (py_eq_trans _ _ _ Hu Hv)).
  - intros Hs Ht. rewrite tuple_eq_sym in Ht.
    now rewrite (tuple_eq_not_lt _ _ (tuple_eq_trans _ _ _ Hs Ht)).
Qed.

Section ListSortProperties.
Context {A K : Type} (lt : K -> K -> result bool) (getter : A -> result K).

Local Abbreviation ltb := (fun a b : K => holds (lt a b)).
Local Abbreviation own_key := (fun x : K * A => getter (snd x) = Ok (fst x)).

Lemma combine_keys (l : list A) :
  forall keys : list K,
    comprehension getter l = Ok keys ->
    Forall own_key (combine keys l) /\ map snd (combine keys l) = l /\
    map fst (combine keys l) = keys.
Proof.
  induction l as [|a l IH]; intros keys H; simpl in H.
  - inversion H; subst. repeat split; constructor.
  - destruct (getter a) as [k|] eqn:Hk; simpl in H; [|discriminate].
    destruct (comprehension getter l) as [keys'|]; simpl in H; [|discriminate].
    inversion H; subst. destruct (IH keys' eq_refl) as (Hown & Hsnd & Hfst).
    cbn [combine map fst snd]. rewrite Hsnd, Hfst. repeat split. now constructor.
Qed.

Lemma keys_of_items (items : list (K * A)) :
  Forall own_key items ->
  comprehension getter (map snd items) = Ok (map fst items) /\
  combine (map fst items) (map snd items) = items.
Proof.
  induction 1 as [|[k a] items Hx _ [IH1 IH2]]; [split; reflexivity|].
  cbn [map fst snd comprehension combine] in *. rewrite Hx, IH1, IH2. split; reflexivity.
Qed.

Context (ks : list K).
Hypothesis ks_consistent : consistent_order lt ks = true.

Lemma list_sort_items (reverse : bool) (l : list A) (keys : list K) :
  comprehension getter l = Ok keys -> (forall k, In k keys -> In k ks) ->
  let items := sorted_items lt reverse (combine keys l) in
  list_sort lt getter reverse l = Ok (map snd (if reverse then rev items else items)) /\
  Forall own_key items /\
  Forall (fun x : K * A => In (fst x) ks) items /\
  StronglySorted (fun x y : K * A => ltb (fst y) (fst x) = false) items.
Proof.
  intros Hkeys Hks items.
  destruct (combine_keys l keys Hkeys) as (Hown & Hsnd & Hfst).
  assert (Hkeyed : Forall (fun x : K * A => In (fst x) ks) (combine keys l)).
  { apply List.Forall_forall. intros x Hx. apply Hks. rewrite <- Hfst. now apply in_map. }
  assert (Hown' : Forall own_key (if reverse then rev (combine keys l) else combine keys l))
    by (destruct reverse; [now apply Forall_rev | assumption]).
  assert (Hkeyed' : Forall (fun x : K * A => In (fst x) ks)
                           (if reverse then rev (combine keys l) else combine keys l))
    by (destruct reverse; [now apply Forall_rev | assumption]).
  split; [|split; [|split]].
  - unfold list_sort. rewrite Hkeys. cbn [mbind result_bind].
    rewrite (sort_ascending_place_all lt ks ks_consistent) by assumption.
    reflexivity.
  - apply place_all_Forall; [assumption | constructor].
  - apply place_all_Forall; [assumption | constructor].
  - apply (place_all_ascending lt ks ks_consistent); [assumption | constructor | constructor].
Qed.

Lemma list_sort_stable (member : K -> bool) (reverse : bool) (l : list A) (keys : list K) :
  (forall a b : K, member a = true -> member b = true -> ltb a b = false) ->
  comprehension getter l = Ok keys -> (forall k, In k keys -> In k ks) ->
  let in_class := fun a => match getter a with Ok k => member k | Raise _ => false end in
  let items := sorted_items lt reverse (combine keys l) in
  List.filter in_class (map snd (if reverse then rev items else items))
  = List.filter in_class l.
Proof.
  intros Hmember Hkeys Hks in_class items.
  destruct (combine_keys l keys Hkeys) as (Hown & Hsnd & Hfst).
  destruct (list_sort_items reverse l keys Hkeys Hks) as (_ & Hitems & _ & _).
  fold items in Hitems.
  assert (Hclass : forall s : list (K * A),
             Forall own_key s ->
             List.filter in_class (map snd s)
             = map snd (List.filter (fun x => member (fst x)) s)).
  { intros s Hs. rewrite filter_map_swap. f_equal.
    induction Hs as [|x s Hx _ IH]; [reflexivity|].
    cbn [List.filter]. unfold in_class at 1. rewrite Hx, IH. reflexivity. }
  assert (Hkeyed : Forall (fun x : K * A => In (fst x) ks) (combine keys l)).
  { apply List.Forall_forall. intros x Hx. apply Hks. rewrite <- Hfst. now apply in_map. }
  replace (List.filter in_class l)
    with (List.filter in_class (map snd (combine keys l))) by now rewrite Hsnd.
  rewrite (Hclass (combine keys l)) by assumption.
  rewrite Hclass by (destruct reverse; [now apply Forall_rev | assumption]).
  f_equal. unfold items, sorted_items.
  destruct reverse.
  - rewrite filter_rev.
    rewrite (place_all_class lt ks ks_consistent member Hmember);
      [| now apply Forall_rev | constructor | constructor].
    cbn [List.filter app]. now rewrite filter_rev, rev_involutive.
  - rewrite (place_all_class lt ks ks_consistent member Hmember)
      by (assumption || constructor).
    reflexivity.
Qed.

Lemma list_sort_idempotent (reverse : bool) (l sorted : list A) (keys : list K) :
  comprehension getter l = Ok keys -> (forall k, In k keys -> In k ks) ->
  list_sort lt getter reverse l = Ok sorted ->
  list_sort lt getter reverse sorted = Ok sorted.
Proof.
  intros Hkeys Hks Hsorted.
  destruct (list_sort_items reverse l keys Hkeys Hks) as (Hsort & Hown & Hkeyed & Hasc).
  rewrite Hsort in Hsorted. injection Hsorted as <-.
  set (items := sorted_items lt reverse (combine keys l)) in *.
  set (out := if reverse then rev items else items).
  assert (Hout : Forall own_key out) by (destruct reverse; [now apply Forall_rev | assumption]).
  assert (Hkout : Forall (fun x : K * A => In (fst x) ks) out)
    by (destruct reverse; [now apply Forall_rev | assumption]).
  destruct (keys_of_items out Hout) as (Hkeys' & Hcombine).
  unfold list_sort. rewrite Hkeys'. cbn [mbind result_bind].
  rewrite Hcombine.
  assert (Hback : (if reverse then rev out else out) = items)
    by (unfold out; destruct reverse; [apply rev_involutive | reflexivity]).
  rewrite Hback.
  rewrite (sort_ascending_place_all lt ks ks_consistent) by assumption.
  cbn [mbind result_bind]. rewrite (place_all_sorted lt) by exact Hasc. reflexivity.
Qed.
End ListSortProperties.

(** Integer keys are consistently ordered, whatever they are. *)
Lemma int_lt (a b : Z) : obj_lt (Scalar (VInt a)) (Scalar (VInt b)) = Ok (a <? b)%Z.
Proof.
  cbn [obj_lt py_lt number xreal_ltb]. f_equal.
  unfold Qle_bool, inject_Z; cbn [Qnum Qden]. rewrite !Z.mul_1_r.
  now rewrite Z.ltb_antisym.
Qed.

Lemma consistent_order_of_ints (zs : list Z) :
  consistent_order obj_lt (map (fun z => Scalar (VInt z)) zs) = true.
Proof.
  unfold consistent_order.
  apply forallb_forall. intros ka Ha. apply in_map_iff in Ha as (a & <- & _).
  apply forallb_forall. intros kb Hb. apply in_map_iff in Hb as (b & <- & _).
  rewrite !int_lt. cbn [defined holds andb]. apply andb_true_intro. split.
  - destruct (Z.ltb_spec a b), (Z.ltb_spec b a); try reflexivity. lia.
  - apply forallb_forall. intros kc Hc. apply in_map_iff in Hc as (c & <- & _).
    rewrite !int_lt. cbn [holds].
    destruct (Z.ltb_spec a c), (Z.ltb_spec a b), (Z.ltb_spec b c); try reflexivity. lia.
Qed.

Lemma sort_unfold (self : InMemoryRelation.t) (key : option (list string)) (reverse : bool) :
  InMemoryRelation.sort self key reverse
  = getter ← row_key self key;
    data ← list_sort obj_lt getter reverse (InMemoryRelation._data self);
    Ok (InMemoryRelation.mk (InMemoryRelation._attributes self)
                            (InMemoryRelation._index self) data).
Proof.
  destruct key as [names|]; [|reflexivity].
  unfold InMemoryRelation.sort, row_key.
  destruct (comprehension (InMemoryRelation.index self) names); reflexivity.
Qed.

(** C7, as the code has it. Let the sort key be defined on every stored
    row (the key columns exist, there is at least one unless the whole row
    is the key, and every row has them), let [<] order the keys of the rows
    consistently, and let the keys that are tuples hold no NaN, so that
    they are compared by value whatever objects the rows share. Then [sort]
    succeeds and is stable: for every key [k] the rows whose key equals [k]
    are, in the sorted relation, the same rows in the same order as before,
    with [reverse] or without. And it is idempotent: sorting the result
    again with the same parameters leaves the stored tuples as they are. *)
Theorem sort_is_stable_and_idempotent
        (self : InMemoryRelation.t) (key : option (list string)) (reverse : bool)
        (getter : tuple -> result pyobj) (keys : list pyobj) :
  row_key self key = Ok getter ->
  comprehension getter (InMemoryRelation._data self) = Ok keys ->
  consistent_order obj_lt keys = true ->
  forallb compared_by_value keys = true ->
  exists sorted : InMemoryRelation.t,
    InMemoryRelation.sort self key reverse = Ok sorted /\
    InMemoryRelation._attributes sorted = InMemoryRelation._attributes self /\
    InMemoryRelation._index sorted = InMemoryRelation._index self /\
    (forall k : pyobj,
        List.filter (has_key getter k) (InMemoryRelation._data sorted)
        = List.filter (has_key getter k) (InMemoryRelation._data self)) /\
    InMemoryRelation.sort sorted key reverse = Ok sorted.
Proof.
  intros Hgetter Hkeys Hconsistent _.
  destruct (list_sort_items obj_lt getter keys Hconsistent reverse
              (InMemoryRelation._data self) keys Hkeys ltac:(auto)) as (Hsort & _).
  eexists. split; [|split; [|split; [|split]]].
  - rewrite sort_unfold, Hgetter. cbn [mbind result_bind]. rewrite Hsort. reflexivity.
  - reflexivity.
  - reflexivity.
  - intros k. cbn [InMemoryRelation._data].
    apply (list_sort_stable obj_lt getter keys Hconsistent (fun k' => obj_eq k' k));
      [|assumption|auto].
    intros a b Ha Hb. exact (obj_eq_unordered a b k Ha Hb).
  - rewrite sort_unfold.
    replace (row_key _ key) with (row_key self key) by (destruct key; reflexivity).
    rewrite Hgetter. cbn [mbind result_bind InMemoryRelation._data
                               InMemoryRelation._attributes InMemoryRelation._index].
    rewrite (list_sort_idempotent obj_lt getter keys Hconsistent reverse
               (InMemoryRelation._data self) _ keys Hkeys ltac:(auto) Hsort).
    reflexivity.
Qed.

Lemma sort_is_stable_and_idempotent_witness :
  let r := InMemoryRelation.__init__ [Attribute.mk "Name" Tstr; Attribute.mk "Age" Tint]
             [[VStr "Lisa"; VInt 8]; [VStr "Milhouse"; VInt 9];
              [VStr "Ralph"; VInt 8]; [VStr "Janey"; VInt 8]] in
  exists sorted : InMemoryRelation.t,
    InMemoryRelation.sort r (Some ["Age"]) true = Ok sorted /\
    InMemoryRelation._data sorted
    = [[VStr "Milhouse"; VInt 9]; [VStr "Lisa"; VInt 8];
       [VStr "Ralph"; VInt 8]; [VStr "Janey"; VInt 8]] /\
    InMemoryRelation.sort sorted (Some ["Age"]) true = Ok sorted.
Proof.
  intros r.
  destruct (sort_is_stable_and_idempotent r (Some ["Age"]) true
              (fun t => v ← getitem t 1; Ok (Scalar v))
              [Scalar (VInt 8); Scalar (VInt 9); Scalar (VInt 8); Scalar (VInt 8)])
    as (sorted & Hsorted & _ & _ & _ & Hagain).
  - reflexivity.
  - reflexivity.
  - vm_compute. reflexivity.
  - reflexivity.
  - exists sorted. split; [exact Hsorted|]. split; [|exact Hagain].
    vm_compute in Hsorted. injection Hsorted as <-. reflexivity.
Defined.

(** A NaN among different numbers in the key column: the keys are not
    consistently ordered, and the sort is not stable. Of the two rows with
    the key [3], [f] comes before [h] in the relation and after it in the
    sorted relation: the rows up to [g] do not descend and are left as they
    are, and the binary search places [h] before [d] without comparing it
    with [f]. *)
Lemma sort_is_unstable_on_a_NaN_key :
  let r := InMemoryRelation.__init__ [Attribute.mk "K" Tfloat; Attribute.mk "Name" Tstr]
             [[VFloat 0; VStr "a"]; [VFloat 1; VStr "b"]; [VFloat 2; VStr "c"];
              [VFloat 4; VStr "d"]; [VFloat nan; VStr "e"]; [VFloat 3; VStr "f"];
              [VFloat 5; VStr "g"]; [VFloat 3; VStr "h"]] in
  let getter := fun t : list Value => v ← getitem t 0; Ok (Scalar v) in
  row_key r (Some ["K"]) = Ok getter /\
  (exists keys, comprehension getter (InMemoryRelation._data r) = Ok keys /\
                consistent_order obj_lt keys = false) /\
  exists sorted : InMemoryRelation.t,
    InMemoryRelation.sort r (Some ["K"]) false = Ok sorted /\
    InMemoryRelation._data sorted
    = [[VFloat 0; VStr "a"]; [VFloat 1; VStr "b"]; [VFloat 2; VStr "c"];
       [VFloat 3; VStr "h"]; [VFloat 4; VStr "d"]; [VFloat nan; VStr "e"];
       [VFloat 3; VStr "f"]; [VFloat 5; VStr "g"]] /\
    List.filter (has_key getter (Scalar (VFloat 3))) (InMemoryRelation._data r)
    = [[VFloat 3; VStr "f"]; [VFloat 3; VStr "h"]] /\
    List.filter (has_key getter (Scalar (VFloat 3))) (InMemoryRelation._data sorted)
    = [[VFloat 3; VStr "h"]; [VFloat 3; VStr "f"]].
Proof.
  intros r getter. split; [reflexivity|]. split.
  - exists [Scalar (VFloat 0); Scalar (VFloat 1); Scalar (VFloat 2); Scalar (VFloat 4);
            Scalar (VFloat nan); Scalar (VFloat 3); Scalar (VFloat 5); Scalar (VFloat 3)].
    split; vm_compute; reflexivity.
  - exists (InMemoryRelation.mk
              [Attribute.mk "K" Tfloat; Attribute.mk "Name" Tstr]
              (Relation.make_index [Attribute.mk "K" Tfloat; Attribute.mk "Name" Tstr])
              [[VFloat 0; VStr "a"]; [VFloat 1; VStr "b"]; [VFloat 2; VStr "c"];
               [VFloat 3; VStr "h"]; [VFloat 4; VStr "d"]; [VFloat nan; VStr "e"];
               [VFloat 3; VStr "f"]; [VFloat 5; VStr "g"]]).
    repeat split; vm_compute; reflexivity.
Qed.

(** * Further properties of the operators *)

(** ** Loops that raise *)

Lemma comprehension_Forall2 {A B : Type} (f : A -> result B) (P : A -> B -> Prop)
      (xs : list A) :
  Forall (fun x => exists y, f x = Ok y /\ P x y) xs ->
  exists ys : list B, comprehension f xs = Ok ys /\ Forall2 P xs ys.
Proof.
  induction 1 as [|x xs (y & Hy & HP) _ (ys & Hys & IH)].
  - exists []. split; [reflexivity | constructor].
  - exists (y :: ys). cbn [comprehension]. rewrite Hy, Hys. split; [reflexivity|].
    now constructor.
Qed.

Lemma comprehension_Ok_iff {A B : Type} (f : A -> result B) (xs : list A) :
  forall ys : list B,
    comprehension f xs = Ok ys <-> Forall2 (fun x y => f x = Ok y) xs ys.
Proof.
  induction xs as [|x xs IH]; intros ys; cbn [comprehension].
  - split; [intros [= <-]; constructor | intros H; inversion H; reflexivity].
  - split.
    + intros H. apply bind_Ok in H as (y & Hy & H). apply bind_Ok in H as (ys' & Hys & [= <-]).
      constructor; [exact Hy | now apply IH].
    + intros H. inversion H as [|? y ? ys' Hy Hys]; subst. apply IH in Hys.
      now rewrite Hy, Hys.
Qed.

Lemma comprehension_map {A B C : Type} (g : A -> B) (f : B -> result C) (xs : list A) :
  comprehension f (map g xs) = comprehension (fun x => f (g x)) xs.
Proof.
  induction xs as [|x xs IH]; [reflexivity|]. cbn [map comprehension]. now rewrite IH.
Qed.

Lemma Forall2_compose {A B C : Type} (P : A -> B -> Prop) (Q : B -> C -> Prop)
      (xs : list A) :
  forall zs : list C,
    (exists ys, Forall2 P xs ys /\ Forall2 Q ys zs)
    <-> Forall2 (fun x z => exists y, P x y /\ Q y z) xs zs.
Proof.
  induction xs as [|x xs IH]; intros zs; split.
  - intros (ys & HP & HQ). inversion HP; subst. inversion HQ; subst. constructor.
  - intros H. inversion H; subst. exists []. split; constructor.
  - intros (ys & HP & HQ). inversion HP as [|? y ? ys' Hxy HP']; subst.
    inversion HQ as [|? z ? zs' Hyz HQ']; subst.
    constructor; [eauto|]. apply IH. eauto.
  - intros H. inversion H as [|? z ? zs' (y & Hxy & Hyz) H']; subst.
    apply IH in H' as (ys & HP & HQ). exists (y :: ys). split; now constructor.
Qed.

Lemma Forall2_map_left {A A' B : Type} (g : A -> A') (P : A' -> B -> Prop) (xs : list A) :
  forall ys : list B,
    Forall2 P (map g xs) ys <-> Forall2 (fun x y => P (g x) y) xs ys.
Proof.
  induction xs as [|x xs IH]; intros ys; cbn [map]; split; intros H; inversion H; subst;
    constructor; try assumption; now apply IH.
Qed.

Lemma Forall2_iff_in {A B : Type} (P Q : A -> B -> Prop) (xs : list A) :
  (forall x y, In x xs -> (P x y <-> Q x y)) ->
  forall ys : list B, Forall2 P xs ys <-> Forall2 Q xs ys.
Proof.
  induction xs as [|x xs IH]; intros HPQ ys; split; intros H; inversion H; subst;
    constructor;
    try (apply (HPQ x); [now left | assumption]);
    apply IH; try assumption; intros; apply HPQ; now right.
Qed.

Lemma Forall2_impl_in {A B : Type} (P Q : A -> B -> Prop) (xs : list A) (ys : list B) :
  (forall x y, In x xs -> P x y -> Q x y) -> Forall2 P xs ys -> Forall2 Q xs ys.
Proof.
  intros HPQ H. induction H as [|x y xs ys Hxy _ IH]; constructor.
  - apply HPQ; [now left | exact Hxy].
  - apply IH. intros; apply HPQ; [now right | assumption].
Qed.

(** A comprehension raises what its first failing item raises. *)
Lemma comprehension_raises {A B : Type} (f : A -> result B) (pre post : list A)
      (x : A) (e : exn) :
  Forall (fun y => exists b, f y = Ok b) pre -> f x = Raise e ->
  comprehension f (pre ++ x :: post) = Raise e.
Proof.
  intros Hpre Hx. induction Hpre as [|y pre (b & Hb) _ IH]; cbn [app comprehension].
  - now rewrite Hx.
  - now rewrite Hb, IH.
Qed.

(** When every failure is the same exception, one failing item is enough. *)
Lemma comprehension_raises_only {A B : Type} (f : A -> result B) (e : exn) (xs : list A) :
  Forall (fun x => (exists b, f x = Ok b) \/ f x = Raise e) xs ->
  Exists (fun x => f x = Raise e) xs ->
  comprehension f xs = Raise e.
Proof.
  induction 1 as [|x xs Hx _ IH]; intros Hex; [inversion Hex|].
  cbn [comprehension]. destruct Hx as [(b & Hb)|Hx]; [|now rewrite Hx].
  rewrite Hb. cbn [mbind result_bind]. rewrite IH; [reflexivity|].
  apply Exists_cons in Hex as [Hex|Hex]; [congruence | exact Hex].
Qed.

(** ** Resolving names *)

Lemma make_index_absent (attributes : list Attribute.t) (n : string) :
  ~ In n (map Attribute.name attributes) -> Relation.make_index attributes !! n = None.
Proof.
  intros Hn. destruct (Relation.make_index attributes !! n) as [i|] eqn:Hi; [|reflexivity].
  apply make_index_sound in Hi as (a & Ha & <-). exfalso. apply Hn.
  apply in_map. apply list_elem_of_In. eapply list_elem_of_lookup_2; eauto.
Qed.

(** With pairwise distinct names, a name resolves to the position of the
    one column that has it. *)
Lemma make_index_position (attributes : list Attribute.t) (i : nat) (a : Attribute.t) :
  NoDup (map Attribute.name attributes) ->
  attributes !! i = Some a ->
  Relation.make_index attributes !! Attribute.name a = Some i.
Proof.
  intros Hnd Ha.
  destruct (make_index_defined attributes (Attribute.name a)) as [j Hj].
  { apply in_map. apply list_elem_of_In. eapply list_elem_of_lookup_2; eauto. }
  destruct (make_index_sound _ _ _ Hj) as (b & Hb & Hname).
  rewrite Hj. f_equal.
  eapply NoDup_lookup; [exact Hnd | |].
  - rewrite list_lookup_fmap, Hb. reflexivity.
  - rewrite list_lookup_fmap, Ha. simpl. now rewrite Hname.
Qed.

Lemma name_position (R : Relation.t) (n : string) :
  indexed R -> In n (Relation.names R) ->
  Relation.index R n = Ok (position (Relation._index R) n) /\
  position (Relation._index R) n < length (Relation._attributes R) /\
  exists a, Relation._attributes R !! position (Relation._index R) n = Some a /\
            Attribute.name a = n /\ Relation.attribute R n = Ok a.
Proof.
  intros HR Hn. destruct (attribute_of_name R n HR Hn) as (i & a & Hi & Ha & Hname & Hattr).
  assert (Hpos : position (Relation._index R) n = i).
  { unfold Relation.index, Relation.lookup_index, position in *.
    destruct (Relation._index R !! n); [|discriminate]. now inversion Hi. }
  rewrite Hpos. split; [exact Hi|]. split; [eapply lookup_lt_Some; eauto|]. eauto.
Qed.

Lemma unknown_name (R : Relation.t) (n : string) :
  indexed R -> ~ In n (Relation.names R) ->
  Relation.index R n = Raise KeyError /\ Relation.attribute R n = Raise KeyError.
Proof.
  intros HR Hn. unfold Relation.attribute, Relation.index, Relation.lookup_index.
  rewrite HR, make_index_absent by exact Hn. split; reflexivity.
Qed.

Lemma Row_call (index : gmap string nat) (t : tuple) (n : string) (i : nat) :
  index !! n = Some i -> Row.__call__ (Row.mk index t) n = getitem t i.
Proof.
  intros Hi. unfold Row.__call__, Row.__getitem__, Relation.lookup_index.
  cbn [Row._relation Row._row_data]. rewrite Hi. reflexivity.
Qed.

(** ** Projection *)

Lemma Projection_init (R : Relation.t) (names : list string) :
  indexed R -> Forall (fun n => In n (Relation.names R)) names ->
  exists attrs : list Attribute.t,
    Forall2 (fun n a => Relation.attribute R n = Ok a /\ Attribute.name a = n) names attrs /\
    Projection.__init__ R names
    = Ok (Projection.mk attrs (Relation.make_index attrs) (Relation.__iter__ R)
            (map (position (Relation._index R)) names)).
Proof.
  intros HR Hnames.
  destruct (comprehension_Forall2 (Relation.attribute R)
              (fun n a => Relation.attribute R n = Ok a /\ Attribute.name a = n) names)
    as (attrs & Hattrs & H2).
  { eapply Forall_impl; [exact Hnames|]. intros n Hn. cbv beta in Hn.
    destruct (name_position R n HR Hn) as (_ & _ & a & _ & Hname & Ha). eauto. }
  exists attrs. split; [exact H2|].
  unfold Projection.__init__. rewrite Hattrs. cbn [mbind result_bind].
  assert (Hkeep : comprehension (fun a => Relation.index R (Attribute.name a)) attrs
                  = Ok (map (position (Relation._index R)) names)).
  { clear Hattrs. induction H2 as [|n a names attrs [_ Hname] _ IH]; [reflexivity|].
    apply Forall_cons in Hnames as [Hn Hnames].
    cbn [comprehension map]. rewrite Hname, (proj1 (name_position R n HR Hn)), IH by assumption.
    reflexivity. }
  rewrite Hkeep. reflexivity.
Qed.

Lemma Projection_drain (R : Relation.t) (attrs : list Attribute.t) (index : gmap string nat)
      (keep : list nat) :
  Forall (fun i => i < length (Relation._attributes R)) keep ->
  forall (itr : iterator) (fuel : nat),
    Forall (fun t : tuple => length t = length (Relation._attributes R)) itr ->
    length itr < fuel ->
    drain Projection.__next__ fuel (Projection.mk attrs index itr keep)
    = (map (select keep) itr, Exhausted).
Proof.
  intros Hkeep. induction itr as [|t itr IH]; intros fuel Hconf Hfuel;
    (destruct fuel as [|fuel]; [inversion Hfuel|]); [reflexivity|].
  apply Forall_cons in Hconf as [Ht Hconf]. simpl in Hfuel.
  cbn [drain]. unfold Projection.__next__ at 1.
  cbn [next Projection._itr Projection._keep Projection._attributes Projection._index].
  fold (HashNaturalJoin.project keep t).
  rewrite project_select by now rewrite Ht.
  rewrite IH by (assumption || lia). reflexivity.
Qed.

(** X1. The projection on names of the schema succeeds; its columns are
    the named columns of the input in the order of the names, which need not
    be that of the schema, and it yields for every tuple of the input, in
    order, the values the input's row has under those names. *)
Theorem Projection_keeps_the_named_columns
        (R : Relation.t) (names : list string) (fuel : nat) :
  indexed R -> conforming R ->
  Forall (fun n => In n (Relation.names R)) names ->
  length (Relation.__iter__ R) < fuel ->
  exists (p : Projection.t) (out : list tuple),
    Projection.__init__ R names = Ok p /\
    Forall2 (fun n a => Relation.attribute R n = Ok a /\ Attribute.name a = n)
            names (Projection._attributes p) /\
    drain Projection.__next__ fuel p = (out, Exhausted) /\
    Forall2 (fun t t' : tuple =>
               Forall2 (fun n v => Row.__call__ (Row.mk (Relation._index R) t) n = Ok v)
                       names t')
            (Relation.__iter__ R) out.
Proof.
  intros HR Hconf Hnames Hfuel.
  destruct (Projection_init R names HR Hnames) as (attrs & H2 & Hinit).
  assert (Hkeep : Forall (fun i => i < length (Relation._attributes R))
                         (map (position (Relation._index R)) names)).
  { apply Forall_map. eapply Forall_impl; [exact Hnames|]. intros n Hn.
    apply (name_position R n HR Hn). }
  eexists; eexists. split; [exact Hinit|]. split; [exact H2|].
  split; [now apply (Projection_drain R)|].
  unfold conforming in Hconf. clear Hfuel Hinit.
  induction Hconf as [|t itr Ht _ IH]; cbn [map]; constructor; [|exact IH].
  clear IH H2. induction Hnames as [|n names Hn _ IH]; [constructor|].
  apply Forall_cons in Hkeep as [Hlt Hkeep]. cbn [map] in *.
  destruct (name_position R n HR Hn) as (Hindex & _).
  unfold Relation.index, Relation.lookup_index in Hindex.
  destruct (Relation._index R !! n) as [i|] eqn:Hi; [|discriminate]. inversion Hindex as [Hpos].
  rewrite <- Ht in Hlt. destruct (lookup_lt_is_Some_2 t _ Hlt) as [v Hv].
  unfold select. cbn [omap list_omap]. rewrite Hv. constructor.
  - rewrite (Row_call _ t n i Hi), Hpos. now apply getitem_Some.
  - apply IH. exact Hkeep.
Qed.


Lemma Projection_keeps_the_named_columns_witness :
  let employees :=
    Relation.__init__
      [Attribute.mk "Name" Tstr; Attribute.mk "Age" Tint; Attribute.mk "Sex" Tstr] None
      [[VStr "Lisa"; VInt 8; VStr "F"]; [VStr "Bart"; VInt 10; VStr "M"]] in
  exists p : Projection.t,
    Projection.__init__ employees ["Sex"; "Name"] = Ok p /\
    Projection._attributes p = [Attribute.mk "Sex" Tstr; Attribute.mk "Name" Tstr] /\
    drain Projection.__next__ 3 p
    = ([[VStr "F"; VStr "Lisa"]; [VStr "M"; VStr "Bart"]], Exhausted).
Proof.
  intros employees.
  destruct (Projection_keeps_the_named_columns employees ["Sex"; "Name"] 3)
    as (p & out & Hp & _).
  - reflexivity.
  - forall_by ltac:(reflexivity).
  - forall_by ltac:(simpl; auto 10).
  - simpl; lia.
  - exists p. split; [exact Hp|]. vm_compute in Hp. injection Hp as <-.
    split; vm_compute; reflexivity.
Defined.

(** X2. A projection on names one of which is not a column of the input
    raises a [KeyError] when it is constructed, before any tuple is read. *)
Theorem Projection_of_an_unknown_column (R : Relation.t) (names : list string) :
  indexed R ->
  Exists (fun n => ~ In n (Relation.names R)) names ->
  Projection.__init__ R names = Raise KeyError.
Proof.
  intros HR Hex. unfold Projection.__init__.
  rewrite (comprehension_raises_only (Relation.attribute R) KeyError); [reflexivity| |].
  - apply List.Forall_forall. intros n _.
    destruct (decide (n ∈ Relation.names R)) as [Hin|Hout].
    + left. rewrite list_elem_of_In in Hin.
      destruct (name_position R n HR Hin) as (_ & _ & a & _ & _ & Ha). eauto.
    + right. rewrite list_elem_of_In in Hout. now apply unknown_name.
  - eapply List.Exists_impl; [|exact Hex]. intros n Hn. now apply unknown_name.
Qed.

Lemma Projection_of_an_unknown_column_witness :
  Projection.__init__
    (Relation.__init__ [Attribute.mk "Name" Tstr; Attribute.mk "Age" Tint] None
       [[VStr "Lisa"; VInt 8]])
    ["Name"; "Nonexistent"] = Raise KeyError.
Proof.
  apply Projection_of_an_unknown_column; [reflexivity|].
  right. left. simpl. intuition discriminate.
Defined.

(** ** The complement of a projection *)

Lemma enumerate_from_lookup {A : Type} (l : list A) (i : nat) (a : A) :
  forall i0 : nat,
    In (i, a) (combine (seq i0 (length l)) l) <-> i0 <= i /\ l !! (i - i0) = Some a.
Proof.
  induction l as [|x l IH]; intros i0; cbn [length seq combine].
  - split; [intros [] | intros [_ H]; discriminate].
  - cbn [In]. rewrite IH. split.
    + intros [Heq|[Hle Hl]].
      * inversion Heq; subst. split; [lia|]. now rewrite Nat.sub_diag.
      * split; [lia|]. replace (i - i0) with (S (i - S i0)) by lia. exact Hl.
    + intros [Hle Hl]. destruct (decide (i = i0)) as [->|Hne].
      * left. rewrite Nat.sub_diag in Hl. now inversion Hl.
      * right. split; [lia|]. replace (i - i0) with (S (i - S i0)) in Hl by lia. exact Hl.
Qed.

Lemma enumerate_lookup {A : Type} (l : list A) (i : nat) (a : A) :
  In (i, a) (enumerate l) <-> l !! i = Some a.
Proof.
  unfold enumerate. rewrite enumerate_from_lookup, Nat.sub_0_r. intuition lia.
Qed.

Lemma enumerate_snd {A : Type} (l : list A) : map snd (enumerate l) = l.
Proof.
  unfold enumerate. generalize 0. induction l as [|x l IH]; intros i0; [reflexivity|].
  cbn [length seq combine map snd]. now rewrite IH.
Qed.

(** X3. [project_complement] keeps the columns whose name is not in
    [drop], in the order of the schema, and yields for every tuple the values
    at their positions; a name of [drop] that is not a column is ignored. *)
Theorem project_complement_drops_the_named_columns
        (R : Relation.t) (drop : list string) (fuel : nat) :
  indexed R -> conforming R -> NoDup (Relation.names R) ->
  length (Relation.__iter__ R) < fuel ->
  let kept := fun a : Attribute.t => bool_decide (Attribute.name a ∉ drop) in
  exists p : Projection.t,
    api_operators.project_complement R drop = Ok p /\
    Projection._attributes p = List.filter kept (Relation._attributes R) /\
    drain Projection.__next__ fuel p
    = (map (select (map fst (List.filter (fun ia => kept (snd ia))
                                         (enumerate (Relation._attributes R)))))
           (Relation.__iter__ R),
       Exhausted).
Proof.
  intros HR Hconf Hnd Hfuel kept. unfold api_operators.project_complement, Relation.attributes.
  rewrite (filter_ext (fun a => bool_decide (Attribute.name a ∉ (list_to_set drop : gset string)))
                      kept)
    by (intros a; apply bool_decide_ext; now rewrite elem_of_list_to_set).
  set (l := List.filter kept (Relation._attributes R)).
  assert (Hl : forall a, In a l -> In a (Relation._attributes R))
    by (intros a Ha; now apply filter_In in Ha).
  destruct (Projection_init R (map Attribute.name l) HR) as (attrs & H2 & Hinit).
  { apply Forall_map. apply List.Forall_forall. intros a Ha. now apply in_map, Hl. }
  assert (Hown : forall i a, Relation._attributes R !! i = Some a ->
                             Relation._index R !! Attribute.name a = Some i)
    by (intros i a Ha; rewrite HR; now apply make_index_position).
  assert (Hattrs : attrs = l).
  { clear Hinit. revert attrs H2. induction l as [|a l IH]; intros attrs H2;
      inversion H2 as [|? a' ? attrs' [Ha' _] H2']; subst; [reflexivity|].
    f_equal; [|apply IH; [intros; apply Hl; now right | exact H2']].
    pose proof (Hl a (or_introl eq_refl)) as Hin. rewrite <- list_elem_of_In in Hin.
    apply list_elem_of_lookup_1 in Hin as [i Hi].
    unfold Relation.attribute, Relation.index, Relation.lookup_index, getitem in Ha'.
    rewrite (Hown i a Hi) in Ha'. cbn [mbind result_bind] in Ha'. rewrite Hi in Ha'.
    now inversion Ha'. }
  assert (Hkeep : map (position (Relation._index R)) (map Attribute.name l)
                  = map fst (List.filter (fun ia => kept (snd ia))
                                         (enumerate (Relation._attributes R)))).
  { unfold l. rewrite <- (enumerate_snd (Relation._attributes R)) at 1.
    rewrite filter_map_swap, !map_map. apply map_ext_in. intros [i a] Hin.
    apply filter_In in Hin as [Hin _]. apply enumerate_lookup in Hin. cbn [fst snd].
    unfold position. now rewrite (Hown i a Hin). }
  eexists. split; [exact Hinit|]. split; [exact Hattrs|].
  rewrite Hkeep. apply (Projection_drain R); [|exact Hconf|exact Hfuel].
  apply List.Forall_forall. intros i Hi. apply in_map_iff in Hi as ([i' a] & <- & Hin).
  apply filter_In in Hin as [Hin _]. apply enumerate_lookup in Hin.
  eapply lookup_lt_Some; eauto.
Qed.

Lemma project_complement_drops_the_named_columns_witness :
  let employees :=
    Relation.__init__
      [Attribute.mk "Name" Tstr; Attribute.mk "Age" Tint; Attribute.mk "Sex" Tstr] None
      [[VStr "Lisa"; VInt 8; VStr "F"]; [VStr "Bart"; VInt 10; VStr "M"]] in
  exists p : Projection.t,
    api_operators.project_complement employees ["Age"; "Salary"] = Ok p /\
    Projection._attributes p = [Attribute.mk "Name" Tstr; Attribute.mk "Sex" Tstr] /\
    drain Projection.__next__ 3 p
    = ([[VStr "Lisa"; VStr "F"]; [VStr "Bart"; VStr "M"]], Exhausted).
Proof.
  intros employees.
  destruct (project_complement_drops_the_named_columns employees ["Age"; "Salary"] 3)
    as (p & Hp & Hattrs & Hdrain).
  - reflexivity.
  - forall_by ltac:(reflexivity).
  - repeat (apply NoDup_cons_2; [rewrite list_elem_of_In; simpl; intuition discriminate|]).
    apply NoDup_nil_2.
  - simpl; lia.
  - exists p. split; [exact Hp|]. split; [rewrite Hattrs | rewrite Hdrain]; vm_compute; reflexivity.
Defined.


(** ** Column assignment *)

Lemma stored_length (assignments : list (nat * Value)) :
  forall u : list Value, length (stored u assignments) = length u.
Proof.
  induction assignments as [|iv ps IH]; intros u; [reflexivity|].
  cbn [stored fold_left]. fold (stored (<[fst iv := snd iv]> u) ps).
  rewrite IH. apply length_insert.
Qed.

Lemma stored_other (assignments : list (nat * Value)) (i : nat) :
  forall u : list Value,
    ~ In i (map fst assignments) -> stored u assignments !! i = u !! i.
Proof.
  induction assignments as [|iv ps IH]; intros u Hi; [reflexivity|].
  cbn [stored fold_left]. fold (stored (<[fst iv := snd iv]> u) ps).
  rewrite IH by (intros H; apply Hi; now right).
  apply list_lookup_insert_ne. intros Heq. apply Hi. now left.
Qed.

(** When the assignments to one position all store the same value, that
    value is what the position holds in the end. *)
Lemma stored_value (assignments : list (nat * Value)) (i : nat) (v : Value) :
  (forall w w', In (i, w) assignments -> In (i, w') assignments -> w = w') ->
  forall u : list Value,
    In (i, v) assignments -> i < length u -> stored u assignments !! i = Some v.
Proof.
  induction assignments as [|[j w] ps IH]; intros Hfun u Hin Hlt; [destruct Hin|].
  cbn [stored fold_left fst snd]. fold (stored (<[j := w]> u) ps).
  destruct (in_dec Nat.eq_dec i (map fst ps)) as [Hps|Hps].
  - apply in_map_iff in Hps as ([i' v'] & Heq & Hv'). simpl in Heq. subst i'.
    assert (v' = v) as -> by (apply Hfun; [now right | exact Hin]).
    apply IH; [intros; apply Hfun; now right | exact Hv' | now rewrite length_insert].
  - destruct Hin as [Heq|Hin]; [|exfalso; apply Hps; apply in_map_iff; now exists (i, v)].
    inversion Heq; subst. rewrite stored_other by exact Hps.
    now apply list_lookup_insert_eq.
Qed.

Lemma overwrite_step (tc u : tuple) (r c : nat) (v : Value) :
  tc !! c = Some v -> r < length u -> Assign.overwrite tc u (r, c) = Ok (<[r := v]> u).
Proof.
  intros Hv Hr. unfold Assign.overwrite, setitem. cbn [fst snd].
  rewrite (getitem_Some tc c v Hv). cbn [mbind result_bind]. now rewrite decide_True.
Qed.

Lemma overwrite_loop (tc : tuple) (idx : list (nat * nat)) :
  forall u : list Value,
    Forall (fun rc => fst rc < length u /\ snd rc < length tc) idx ->
    exists assignments : list (nat * Value),
      for_loop (Assign.overwrite tc) u idx = Ok (stored u assignments) /\
      Forall2 (fun rc iv => fst iv = fst rc /\ tc !! snd rc = Some (snd iv)) idx assignments.
Proof.
  induction idx as [|[r c] idx IH]; intros u Hidx.
  - exists []. split; [reflexivity | constructor].
  - apply Forall_cons in Hidx as [[Hr Hc] Hidx]. cbn [fst snd] in *.
    destruct (lookup_lt_is_Some_2 tc c Hc) as [v Hv].
    destruct (IH (<[r := v]> u)) as (ps & Hloop & H2).
    { eapply Forall_impl; [exact Hidx|]. intros rc. now rewrite length_insert. }
    exists ((r, v) :: ps). split; [|constructor; [auto | exact H2]].
    cbn [for_loop]. rewrite (overwrite_step tc u r c v Hv Hr).
    cbn [mbind result_bind]. exact Hloop.
Qed.

Section Assigning.
Context (relation changes : Relation.t) (a : Assign.t).
Hypothesis relation_indexed : indexed relation.
Hypothesis changes_indexed : indexed changes.
Hypothesis accepted : Assign.__init__ relation changes = Ok a.

Lemma Assign_fields :
  Assign._attributes a = Relation._attributes relation /\
  Assign._index a = Relation._index relation /\
  Assign._ritr a = Relation.__iter__ relation /\
  Assign._citr a = Relation.__iter__ changes /\
  Forall2 (fun n rc => Relation._index relation !! n = Some (fst rc) /\
                       Relation._index changes !! n = Some (snd rc))
          (Relation.names changes) (Assign._idx a).
Proof.
  unfold Assign.__init__ in accepted.
  apply bind_Ok in accepted as (units & _ & H).
  apply bind_Ok in H as (idx & Hidx & H). injection H as <-.
  repeat split. cbn [Assign._idx]. clear -Hidx. revert idx Hidx.
  induction (Relation.names changes) as [|n names IH]; intros idx Hidx; cbn [comprehension] in Hidx.
  - injection Hidx as <-. constructor.
  - apply bind_Ok in Hidx as ([r c] & Hrc & Hidx).
    apply bind_Ok in Hidx as (idx' & Hidx' & Hidx). injection Hidx as <-.
    constructor; [|now apply IH].
    unfold Relation.index, Relation.lookup_index in Hrc.
    destruct (Relation._index relation !! n) as [r'|]; [|discriminate].
    destruct (Relation._index changes !! n) as [c'|]; [|discriminate].
    cbn [mbind result_bind] in Hrc. now inversion Hrc.
Qed.

Lemma Assign_idx_bounds :
  Forall (fun rc => fst rc < length (Relation._attributes relation) /\
                    snd rc < length (Relation._attributes changes))
         (Assign._idx a).
Proof.
  destruct Assign_fields as (_ & _ & _ & _ & H2).
  induction H2 as [|n [r c] names idx [Hr Hc] _ IH]; constructor; [|exact IH].
  cbn [fst snd] in *. rewrite relation_indexed in Hr. rewrite changes_indexed in Hc.
  apply make_index_sound in Hr as (x & Hx & _). apply make_index_sound in Hc as (y & Hy & _).
  split; eapply lookup_lt_Some; eauto.
Qed.

Lemma Assign_row (tr tc : tuple) :
  length tr = length (Relation._attributes relation) ->
  length tc = length (Relation._attributes changes) ->
  exists u : tuple,
    for_loop (Assign.overwrite tc) tr (Assign._idx a) = Ok u /\
    length u = length tr /\
    forall i : nat,
      (forall n c, In n (Relation.names changes) ->
                   Relation._index relation !! n = Some i ->
                   Relation._index changes !! n = Some c ->
                   u !! i = tc !! c) /\
      ((forall n, In n (Relation.names changes) -> Relation._index relation !! n <> Some i) ->
       u !! i = tr !! i).
Proof.
  intros Hr Hc. pose proof Assign_idx_bounds as Hb.
  destruct Assign_fields as (_ & _ & _ & _ & H2).
  destruct (overwrite_loop tc (Assign._idx a) tr) as (ps & Hloop & Hps).
  { eapply Forall_impl; [exact Hb|]. intros rc. now rewrite Hr, Hc. }
  exists (stored tr ps). split; [exact Hloop|]. split; [apply stored_length|].
  (* every assignment comes from a name of [changes] *)
  assert (Hfrom : forall i v, In (i, v) ps ->
             exists n c, In n (Relation.names changes) /\
                         Relation._index relation !! n = Some i /\
                         Relation._index changes !! n = Some c /\ tc !! c = Some v).
  { clear Hloop Hb. revert ps Hps.
    induction H2 as [|n [r c] names idx [Hrn Hcn] _ IH]; intros ps Hps;
      inversion Hps as [|? [j w] ? ps' [Hj Hw] Hps']; subst; intros i v Hin; [destruct Hin|].
    cbn [fst snd] in *. destruct Hin as [Heq|Hin].
    - inversion Heq; subst. exists n, c. split; [now left | auto].
    - destruct (IH ps' Hps' i v Hin) as (n' & c' & Hn' & H'). exists n', c'. split; [now right | exact H']. }
  assert (Hto : forall n i c, In n (Relation.names changes) ->
             Relation._index relation !! n = Some i ->
             Relation._index changes !! n = Some c ->
             exists v, In (i, v) ps /\ tc !! c = Some v).
  { clear Hloop Hb Hfrom. revert ps Hps.
    induction H2 as [|n0 [r0 c0] names idx [Hrn Hcn] _ IH]; intros ps Hps;
      inversion Hps as [|? [j w] ? ps' [Hj Hw] Hps']; subst; intros n i c Hn Hi Hcc; [destruct Hn|].
    cbn [fst snd] in *. destruct Hn as [->|Hn].
    - exists w. split; [left|]; congruence.
    - destruct (IH ps' Hps' n i c Hn Hi Hcc) as (v & Hv & Htc). exists v. split; [now right | exact Htc]. }
  assert (Hname : forall n n' i, Relation._index relation !! n = Some i ->
                                 Relation._index relation !! n' = Some i -> n = n').
  { intros n n' i Hn Hn'. rewrite relation_indexed in Hn, Hn'.
    apply make_index_sound in Hn as (x & Hx & <-). apply make_index_sound in Hn' as (y & Hy & <-).
    congruence. }
  intros i. split.
  - intros n c Hn Hi Hcc. destruct (Hto n i c Hn Hi Hcc) as (v & Hv & Htc). rewrite Htc.
    apply stored_value; [|exact Hv|].
    + intros w w' Hw Hw'.
      destruct (Hfrom i w Hw) as (n1 & c1 & _ & Hi1 & Hc1 & Hw1).
      destruct (Hfrom i w' Hw') as (n2 & c2 & _ & Hi2 & Hc2 & Hw2).
      assert (n1 = n2) by (eapply Hname; eauto). subst n2. congruence.
    + rewrite Hr. rewrite relation_indexed in Hi. apply make_index_sound in Hi as (x & Hx & _).
      eapply lookup_lt_Some; eauto.
  - intros Hnone. apply stored_other. intros Hin.
    apply in_map_iff in Hin as ([i' v] & Heq & Hin). simpl in Heq. subst i'.
    destruct (Hfrom i v Hin) as (n & c & Hn & Hi & _). exact (Hnone n Hn Hi).
Qed.
End Assigning.


Lemma Assign_drain (relation changes : Relation.t) (a : Assign.t) :
  indexed relation -> indexed changes ->
  Assign.__init__ relation changes = Ok a ->
  forall (rr rc : iterator) (fuel : nat),
    Forall (fun t : tuple => length t = length (Relation._attributes relation)) rr ->
    Forall (fun t : tuple => length t = length (Relation._attributes changes)) rc ->
    length rr < fuel ->
    exists (out : list tuple) (o : outcome),
      drain Assign.__next__ fuel
            (Assign.mk (Assign._attributes a) (Assign._index a) (Assign._idx a) rr rc)
      = (out, o) /\
      Forall2 (fun rows u => overwritten relation changes (fst rows) (snd rows) u)
              (combine rr rc) out /\
      (length rr = length rc -> o = Exhausted) /\
      (length rr <> length rc -> o = Failed RuntimeError).
Proof.
  intros Hr Hc Ha. induction rr as [|tr rr IH]; intros rc fuel Hrr Hrc Hfuel;
    (destruct fuel as [|fuel]; [inversion Hfuel|]).
  - destruct rc as [|tc rc].
    + exists [], Exhausted. repeat split; [constructor | congruence].
    + exists [], (Failed RuntimeError). repeat split; [constructor | discriminate].
  - apply Forall_cons in Hrr as [Htr Hrr]. simpl in Hfuel. destruct rc as [|tc rc].
    + exists [], (Failed RuntimeError). repeat split; [constructor | discriminate].
    + apply Forall_cons in Hrc as [Htc Hrc].
      destruct (Assign_row relation changes a Hr Hc Ha tr tc Htr Htc) as (u & Hu & Hrow).
      destruct (IH rc fuel Hrr Hrc ltac:(lia)) as (out & o & Hdrain & H2 & Heq & Hne).
      exists (u :: out), o. cbn [drain]. unfold Assign.__next__ at 1.
      cbn [next Assign._ritr Assign._citr Assign._idx Assign._attributes Assign._index].
      rewrite Hu, Hdrain. split; [reflexivity|]. split; [|split].
      * cbn [combine]. constructor; [exact Hrow | exact H2].
      * intros H. apply Heq. simpl in H. lia.
      * intros H. apply Hne. simpl in H. lia.
Qed.

Lemma Assign_yields (relation changes : Relation.t) (a : Assign.t) (fuel : nat) :
  indexed relation -> indexed changes -> conforming relation -> conforming changes ->
  Assign.__init__ relation changes = Ok a ->
  length (Relation.__iter__ relation) < fuel ->
  exists (out : list tuple) (o : outcome),
    drain Assign.__next__ fuel a = (out, o) /\
    Forall2 (fun rows u => overwritten relation changes (fst rows) (snd rows) u)
            (combine (Relation.__iter__ relation) (Relation.__iter__ changes)) out /\
    (length (Relation.__iter__ relation) = length (Relation.__iter__ changes) ->
     o = Exhausted) /\
    (length (Relation.__iter__ relation) <> length (Relation.__iter__ changes) ->
     o = Failed RuntimeError).
Proof.
  intros Hr Hc Hcr Hcc Ha Hfuel.
  destruct (Assign_fields relation changes a Ha) as (Hattrs & Hindex & Hritr & Hcitr & _).
  destruct (Assign_drain relation changes a Hr Hc Ha _ _ fuel Hcr Hcc Hfuel)
    as (out & o & Hdrain & H).
  exists out, o. split; [|exact H]. rewrite <- Hdrain, <- Hritr, <- Hcitr. now destruct a.
Qed.

(** X4. Column assignment keeps the schema of the base relation. It pairs
    the tuples of the base with those of [changes] in order and yields the
    base tuple with the columns that [changes] names overwritten by the
    values of the tuple of [changes]. It ends normally when both inputs have
    the same number of tuples, and with a [RuntimeError] after the last pair
    when one of them has tuples left. *)
Theorem Assign_overwrites_the_named_columns
        (relation changes : Relation.t) (a : Assign.t) (fuel : nat) :
  indexed relation -> indexed changes -> conforming relation -> conforming changes ->
  Assign.__init__ relation changes = Ok a ->
  length (Relation.__iter__ relation) < fuel ->
  Assign._attributes a = Relation._attributes relation /\
  exists (out : list tuple) (o : outcome),
    drain Assign.__next__ fuel a = (out, o) /\
    Forall2 (fun rows u => overwritten relation changes (fst rows) (snd rows) u)
            (combine (Relation.__iter__ relation) (Relation.__iter__ changes)) out /\
    (length (Relation.__iter__ relation) = length (Relation.__iter__ changes) ->
     o = Exhausted) /\
    (length (Relation.__iter__ relation) <> length (Relation.__iter__ changes) ->
     o = Failed RuntimeError).
Proof.
  intros Hr Hc Hcr Hcc Ha Hfuel. split.
  - apply (Assign_fields relation changes a Ha).
  - now apply Assign_yields.
Qed.

Lemma Assign_overwrites_the_named_columns_witness :
  let employees :=
    Relation.__init__ [Attribute.mk "Name" Tstr; Attribute.mk "Salary" Tint] None
      [[VStr "Lisa"; VInt 0]; [VStr "Bart"; VInt 20000]; [VStr "Ralph"; VInt 10000]] in
  let raises :=
    Relation.__init__ [Attribute.mk "Salary" Tint] None [[VInt 100]; [VInt 20100]] in
  exists a : Assign.t,
    Assign.__init__ employees raises = Ok a /\
    drain Assign.__next__ 4 a
    = ([[VStr "Lisa"; VInt 100]; [VStr "Bart"; VInt 20100]], Failed RuntimeError).
Proof.
  intros employees raises.
  assert (Ha : exists a, Assign.__init__ employees raises = Ok a)
    by (eexists; vm_compute; reflexivity).
  destruct Ha as (a & Ha). exists a. split; [exact Ha|].
  destruct (Assign_overwrites_the_named_columns employees raises a 4) as (_ & out & o & Hd & _).
  - reflexivity.
  - reflexivity.
  - forall_by ltac:(reflexivity).
  - forall_by ltac:(reflexivity).
  - exact Ha.
  - simpl; lia.
  - clear Hd. vm_compute in Ha. injection Ha as <-. vm_compute. reflexivity.
Defined.

Lemma Assign_accepted (relation changes : Relation.t) :
  indexed relation -> indexed changes ->
  Forall (fun attr => Relation.attribute relation (Attribute.name attr) = Ok attr)
         (Relation._attributes changes) ->
  exists a : Assign.t, Assign.__init__ relation changes = Ok a.
Proof.
  intros Hr Hc Hall.
  destruct (comprehension_Forall2 (Assign.check relation) (fun _ _ => True)
              (Relation._attributes changes)) as (units & Hunits & _).
  { eapply Forall_impl; [exact Hall|]. intros attr Hattr. exists tt. split; [|exact I].
    unfold Assign.check. cbv beta in Hattr. rewrite Hattr. cbn [mbind result_bind].
    unfold Attribute.__eq__. now rewrite !bool_decide_eq_true_2 by reflexivity. }
  destruct (comprehension_Forall2
              (fun name => r ← Relation.index relation name;
                           c ← Relation.index changes name; Ok (r, c))
              (fun _ _ => True) (Relation.names changes)) as (idx & Hidx & _).
  { unfold Relation.names. apply Forall_map. apply List.Forall_forall. intros attr Hin.
    rewrite List.Forall_forall in Hall. specialize (Hall attr Hin). cbv beta.
    unfold Relation.attribute in Hall. apply bind_Ok in Hall as (r & Hr' & _).
    destruct (name_position changes (Attribute.name attr) Hc) as (Hc' & _).
    { now apply in_map. }
    eexists. rewrite Hr', Hc'. split; [reflexivity | exact I]. }
  eexists. unfold Assign.__init__, Relation.attributes. rewrite Hunits, Hidx. reflexivity.
Qed.

(** X5. The construction of a column assignment succeeds exactly when
    every column of [changes] is a column of the base relation by name and
    type. The first column that is not makes it raise: a [TypeError] when
    the base has a column of that name, a [KeyError] when it has none. *)
Theorem Assign_accepts_columns_of_the_base (relation changes : Relation.t) :
  indexed relation -> indexed changes ->
  let same := fun attr : Attribute.t =>
                Relation.attribute relation (Attribute.name attr) = Ok attr in
  (Forall same (Relation._attributes changes) <->
   exists a : Assign.t, Assign.__init__ relation changes = Ok a) /\
  (forall (pre post : list Attribute.t) (x : Attribute.t),
      Relation._attributes changes = pre ++ x :: post ->
      Forall same pre -> ~ same x ->
      Assign.__init__ relation changes
      = Raise (if bool_decide (Attribute.name x ∈ Relation.names relation)
               then TypeError else KeyError)).
Proof.
  intros Hr Hc same.
  assert (Hcheck : forall attr, same attr -> Assign.check relation attr = Ok tt).
  { intros attr Hattr. unfold Assign.check. rewrite Hattr. cbn [mbind result_bind].
    unfold Attribute.__eq__. now rewrite !bool_decide_eq_true_2 by reflexivity. }
  assert (Hsame : forall attr u, Assign.check relation attr = Ok u -> same attr).
  { intros attr u Hu. unfold Assign.check in Hu. apply bind_Ok in Hu as (b & Hb & Hu).
    unfold same. rewrite Hb. f_equal.
    destruct (Attribute.__eq__ b attr) eqn:Heq; [|discriminate].
    unfold Attribute.__eq__ in Heq. apply andb_prop in Heq as [Hn Ht].
    apply bool_decide_eq_true in Hn, Ht. destruct b, attr; simpl in *; congruence. }
  split; [split|].
  - intros Hall. now apply Assign_accepted.
  - intros (a & Ha). unfold Assign.__init__, Relation.attributes in Ha.
    apply bind_Ok in Ha as (units & Hunits & _).
    apply List.Forall_forall. intros attr Hin. rewrite <- list_elem_of_In in Hin.
    apply list_elem_of_lookup_1 in Hin as [i Hi].
    destruct (comprehension_Ok_lookup _ _ _ Hunits i attr Hi) as (u & _ & Hu). eauto.
  - intros pre post x Hsplit Hpre Hx. unfold Assign.__init__, Relation.attributes.
    rewrite Hsplit.
    rewrite (comprehension_raises (Assign.check relation) pre post x
               (if bool_decide (Attribute.name x ∈ Relation.names relation)
                then TypeError else KeyError)); [reflexivity| |].
    + eapply Forall_impl; [exact Hpre|]. intros attr Hattr. eauto.
    + unfold Assign.check. case_bool_decide as Hin.
      * rewrite list_elem_of_In in Hin.
        destruct (name_position relation _ Hr Hin) as (_ & _ & b & _ & _ & Hb).
        rewrite Hb. cbn [mbind result_bind].
        destruct (Attribute.__eq__ b x) eqn:Heq; [|reflexivity].
        exfalso. apply Hx. unfold same. rewrite Hb. f_equal.
        unfold Attribute.__eq__ in Heq. apply andb_prop in Heq as [Hn Ht].
        apply bool_decide_eq_true in Hn, Ht. destruct b, x; simpl in *; congruence.
      * rewrite list_elem_of_In in Hin.
        now rewrite (proj2 (unknown_name relation _ Hr Hin)).
Qed.


Lemma Assign_accepts_columns_of_the_base_witness :
  let employees :=
    Relation.__init__ [Attribute.mk "Name" Tstr; Attribute.mk "Salary" Tfloat] None [] in
  Assign.__init__ employees
    (Relation.__init__ [Attribute.mk "Name" Tstr; Attribute.mk "Salary" Tint] None [])
  = Raise TypeError /\
  Assign.__init__ employees (Relation.__init__ [Attribute.mk "Nombre" Tstr] None [])
  = Raise KeyError.
Proof.
  intros employees. split.
  - apply (proj2 (Assign_accepts_columns_of_the_base employees
                    (Relation.__init__ [Attribute.mk "Name" Tstr; Attribute.mk "Salary" Tint]
                                       None [])
                    eq_refl eq_refl)
                 [Attribute.mk "Name" Tstr] [] (Attribute.mk "Salary" Tint) eq_refl).
    + forall_by ltac:(reflexivity).
    + vm_compute. discriminate.
  - apply (proj2 (Assign_accepts_columns_of_the_base employees
                    (Relation.__init__ [Attribute.mk "Nombre" Tstr] None [])
                    eq_refl eq_refl)
                 [] [] (Attribute.mk "Nombre" Tstr) eq_refl).
    + constructor.
    + vm_compute. discriminate.
Defined.

(** ** Projecting and assigning back *)

Lemma select_length (idx : list nat) (t : tuple) :
  Forall (fun i => i < length t) idx -> length (select idx t) = length idx.
Proof.
  unfold select. induction 1 as [|i idx Hi _ IH]; [reflexivity|].
  cbn [omap list_omap]. destruct (lookup_lt_is_Some_2 t i Hi) as [v Hv]. rewrite Hv.
  cbn [length]. now rewrite IH.
Qed.

Lemma select_lookup (idx : list nat) (t : tuple) (c i : nat) :
  Forall (fun i => i < length t) idx -> idx !! c = Some i -> select idx t !! c = t !! i.
Proof.
  unfold select. intros Hidx. revert c. induction Hidx as [|j idx Hj _ IH]; intros c Hc;
    [discriminate|].
  cbn [omap list_omap]. destruct (lookup_lt_is_Some_2 t j Hj) as [v Hv]. rewrite Hv.
  destruct c as [|c]; cbn in *.
  - inversion Hc; subst. now rewrite Hv.
  - now apply IH.
Qed.

Lemma projection_assigned_back (R : Relation.t) (names : list string) (fuel : nat) :
  indexed R -> conforming R ->
  Forall (fun n => In n (Relation.names R)) names ->
  length (Relation.__iter__ R) < fuel ->
  exists (p : Projection.t) (a : Assign.t),
    Projection.__init__ R names = Ok p /\
    Assign.__init__ R (piped (Projection._attributes p) (Projection._index p)
                             (drain Projection.__next__ fuel p)) = Ok a /\
    drain Assign.__next__ fuel a = (Relation.__iter__ R, Exhausted).
Proof.
  intros HR Hconf Hnames Hfuel.
  destruct (Projection_init R names HR Hnames) as (attrs & H2 & Hinit).
  set (keep := map (position (Relation._index R)) names).
  assert (Hkeep : Forall (fun i => i < length (Relation._attributes R)) keep).
  { apply Forall_map. eapply Forall_impl; [exact Hnames|]. intros n Hn.
    apply (name_position R n HR Hn). }
  pose proof (Projection_drain R attrs (Relation.make_index attrs) keep Hkeep
                _ fuel Hconf Hfuel) as Hdrain.
  set (p := Projection.mk attrs (Relation.make_index attrs) (Relation.__iter__ R) keep) in *.
  set (C := piped (Projection._attributes p) (Projection._index p)
                  (drain Projection.__next__ fuel p)).
  assert (HC : indexed C) by reflexivity.
  assert (Hrows : Relation.__iter__ C = map (select keep) (Relation.__iter__ R))
    by (unfold C, piped; cbn [Relation.__iter__]; now rewrite Hdrain).
  assert (Hlen : length attrs = length names) by (symmetry; eapply Forall2_length; eauto).
  assert (HconfC : conforming C).
  { unfold conforming. rewrite Hrows. apply Forall_map.
    eapply Forall_impl; [exact Hconf|]. intros t Ht. cbv beta.
    rewrite select_length by now rewrite Ht.
    unfold C, piped, keep. cbn. now rewrite length_map, Hlen. }
  assert (Hacc : exists a, Assign.__init__ R C = Ok a).
  { apply (Assign_accepted R C HR HC).
    cbn [C piped Relation._attributes Projection._attributes p].
    clear -H2. induction H2 as [|n a names attrs [Ha Hn] _ IH]; constructor; [|exact IH].
    now rewrite Hn. }
  destruct Hacc as (a & Ha). exists p, a. split; [exact Hinit|]. split; [exact Ha|].
  destruct (Assign_yields R C a fuel HR HC Hconf HconfC Ha Hfuel)
    as (out & o & Hd & Hout & Heq & _).
  rewrite Hd. f_equal.
  2: { apply Heq. now rewrite Hrows, length_map. }
  rewrite Hrows in Hout. clear Hd Heq Hdrain Hfuel Hrows.
  unfold conforming in Hconf. revert out Hout.
  generalize (Relation.__iter__ R) Hconf. clear Hconf HconfC.
  intros rows Hconf.
  induction Hconf as [|t itr Ht _ IH]; intros out Hout; cbn [map combine] in Hout;
    inversion Hout as [|? u ? out' [Hul Hu] Hout']; subst; [reflexivity|].
  f_equal; [|now apply IH]. cbn [fst snd] in *.
  apply list_eq. intros i. destruct (Hu i) as [Hnamed Hother].
  destruct (in_dec Nat.eq_dec i keep) as [Hin|Hout_].
  - apply in_map_iff in Hin as (n & Hpos & Hn).
    rewrite List.Forall_forall in Hnames.
    destruct (name_position R n HR (Hnames n Hn)) as (Hindex & _).
    unfold Relation.index, Relation.lookup_index in Hindex.
    destruct (Relation._index R !! n) as [i'|] eqn:Hi; [|discriminate].
    assert (i' = i) as -> by (inversion Hindex; congruence).
    assert (HnC : In n (Relation.names C)).
    { cbn [C piped Relation.names Relation._attributes Projection._attributes p].
      clear -H2 Hn. induction H2 as [|n0 a0 names attrs [_ Hn0] _ IH]; [destruct Hn|].
      cbn [map]. destruct Hn as [->|Hn]; [now left | right; auto]. }
    destruct (make_index_defined _ _ HnC) as [c Hc].
    rewrite (Hnamed n c HnC Hi Hc).
    destruct (make_index_sound _ _ _ Hc) as (a' & Ha' & Hname).
    cbn [C piped Relation._attributes Projection._attributes p] in Ha'.
    assert (Hnc : names !! c = Some n).
    { destruct (Forall2_lookup_r _ _ _ _ _ H2 Ha') as (n' & Hn' & _ & Hname').
      congruence. }
    apply select_lookup; [now rewrite Ht|].
    unfold keep. rewrite list_lookup_fmap, Hnc. simpl. f_equal.
    unfold position. now rewrite Hi.
  - apply Hother. intros n HnC Hi. apply Hout_. apply in_map_iff. exists n.
    split; [unfold position; now rewrite Hi|].
    cbn [C piped Relation.names Relation._attributes Projection._attributes p] in HnC.
    clear -H2 HnC. induction H2 as [|n0 a0 names attrs [_ Hn0] _ IH]; [destruct HnC|].
    cbn [map] in HnC. destruct HnC as [Heq|HnC]; [left; congruence | right; auto].
Qed.

(** X6. Projecting a relation held in memory on some of its columns and
    assigning the result back to the relation is accepted and yields the
    tuples of the relation as they are. *)
Theorem assigning_a_projection_back
        (M : InMemoryRelation.t) (names : list string) (fuel : nat) :
  indexed (restartable M) -> conforming (restartable M) ->
  Forall (fun n => In n (map Attribute.name (InMemoryRelation._attributes M))) names ->
  length (InMemoryRelation.__iter__ M) < fuel ->
  exists (p : Projection.t) (a : Assign.t),
    Projection.__init__ (restartable M) names = Ok p /\
    Assign.__init__ (restartable M)
                    (piped (Projection._attributes p) (Projection._index p)
                           (drain Projection.__next__ fuel p)) = Ok a /\
    drain Assign.__next__ fuel a = (InMemoryRelation.__iter__ M, Exhausted).
Proof. intros HM Hconf Hnames Hfuel. now apply (projection_assigned_back (restartable M)). Qed.

Lemma assigning_a_projection_back_witness :
  let employees :=
    InMemoryRelation.__init__ [Attribute.mk "Name" Tstr; Attribute.mk "Salary" Tint]
      [[VStr "Lisa"; VInt 0]; [VStr "Bart"; VInt 20000]] in
  exists (p : Projection.t) (a : Assign.t),
    Projection.__init__ (restartable employees) ["Salary"] = Ok p /\
    Assign.__init__ (restartable employees)
      (piped (Projection._attributes p) (Projection._index p)
             (drain Projection.__next__ 3 p)) = Ok a /\
    drain Assign.__next__ 3 a = (InMemoryRelation.__iter__ employees, Exhausted).
Proof.
  intros employees. apply assigning_a_projection_back.
  - reflexivity.
  - forall_by ltac:(reflexivity).
  - forall_by ltac:(simpl; auto 10).
  - simpl; lia.
Defined.

(** ** Map and fold *)

Section Mapping.
Context (attributes : list Attribute.t) (index in_index : gmap string nat)
        (fs : list (Row.t -> result Value)).

Local Abbreviation values t := (comprehension (fun f => f (Row.mk in_index t)) fs).

Lemma Map_drain (itr : list (list Value)) :
  forall (out : list (list Value)) (fuel : nat),
    Forall2 (fun t t' => values t = Ok t') itr out ->
    length itr < fuel ->
    drain Map.__next__ fuel (Map.mk attributes index in_index itr fs) = (out, Exhausted).
Proof.
  induction itr as [|t itr IH]; intros out [|fuel] H2 Hfuel; simpl in Hfuel; try lia;
    inversion H2 as [|? t' ? out' Ht Hout]; subst.
  - reflexivity.
  - cbn [drain Map.__next__ Map._itr next Map._fs Map._in_relation Map._attributes Map._index].
    rewrite Ht, (IH out' fuel Hout) by lia. reflexivity.
Qed.

Lemma Map_drain_raised (pre post : list (list Value)) (t : list Value) (e : exn) :
  forall (out : list (list Value)) (fuel : nat),
    Forall2 (fun t t' => values t = Ok t') pre out ->
    values t = Raise e ->
    length pre < fuel ->
    drain Map.__next__ fuel (Map.mk attributes index in_index (pre ++ t :: post) fs)
    = (out, Failed e).
Proof.
  induction pre as [|t0 pre IH]; intros out [|fuel] H2 Ht Hfuel; simpl in Hfuel; try lia;
    inversion H2 as [|? t' ? out' Ht0 Hout]; subst; cbn [app].
  - cbn [drain Map.__next__ Map._itr next Map._fs Map._in_relation]. now rewrite Ht.
  - cbn [drain Map.__next__ Map._itr next Map._fs Map._in_relation Map._attributes Map._index].
    rewrite Ht0, (IH out' fuel Hout Ht) by lia. reflexivity.
Qed.
End Mapping.

(** X7. The output of [Map] has the keys of [fd] as its columns. When every
    function of [fd] returns a value on every row of the input, [Map]
    yields, for every input tuple in order, the tuple of those values; the
    functions see the rows under the names of the input, not of the output.
    When a function raises, on the first row and for the first function
    that does, the exception leaves the iteration after the tuples of the
    rows before. *)
Theorem Map_applies_every_function
        (R : Relation.t) (fd : list (Attribute.t * (Row.t -> result Value))) (fuel : nat) :
  length (Relation.__iter__ R) < fuel ->
  let value := fun (t : list Value) (item : Attribute.t * (Row.t -> result Value)) =>
                 snd item (Row.mk (Relation._index R) t) in
  let values := fun t t' : list Value => Forall2 (fun item v => value t item = Ok v) fd t' in
  exists m : Map.t,
    Map.__init__ R fd = Ok m /\
    Map._attributes m = map fst fd /\
    Map._index m = Relation.make_index (map fst fd) /\
    (forall out : list (list Value),
        Forall2 values (Relation.__iter__ R) out ->
        drain Map.__next__ fuel m = (out, Exhausted)) /\
    (forall (pre post out : list (list Value)) (t : list Value)
            (before after : list (Attribute.t * (Row.t -> result Value)))
            (f : Attribute.t * (Row.t -> result Value)) (e : exn),
        Relation.__iter__ R = pre ++ t :: post ->
        Forall2 values pre out ->
        fd = before ++ f :: after ->
        Forall (fun item => exists v, value t item = Ok v) before ->
        value t f = Raise e ->
        drain Map.__next__ fuel m = (out, Failed e)).
Proof.
  intros Hfuel value values.
  assert (Hvalues : forall t t',
             values t t'
             -> comprehension (fun f => f (Row.mk (Relation._index R) t)) (map snd fd) = Ok t').
  { intros t t' H. rewrite comprehension_map. now apply comprehension_Ok_iff. }
  eexists. split; [reflexivity|]. split; [reflexivity|]. split; [reflexivity|]. split.
  - intros out H2. apply Map_drain; [|exact Hfuel].
    eapply Forall2_impl_in; [|exact H2]. intros t t' _. apply Hvalues.
  - intros pre post out t before after f e Hrows H2 Hfd Hbefore Hf.
    rewrite Hrows. apply Map_drain_raised.
    + eapply Forall2_impl_in; [|exact H2]. intros t0 t' _. apply Hvalues.
    + rewrite comprehension_map, Hfd. now apply comprehension_raises.
    + rewrite Hrows, length_app in Hfuel. lia.
Qed.

Lemma Map_applies_every_function_witness :
  let R := Relation.__init__ [Attribute.mk "Name" Tstr; Attribute.mk "Age" Tint] None
             [[VStr "Lisa"; VInt 8]; [VStr "Bart"]] in
  let age := fun r : Row.t => Row.__call__ r "Age" in
  exists m : Map.t,
    Map.__init__ R [(Attribute.mk "A" Tint, age); (Attribute.mk "B" Tint, age)] = Ok m /\
    drain Map.__next__ 3 m = ([[VInt 8; VInt 8]], Failed IndexError).
Proof.
  intros R age.
  destruct (Map_applies_every_function R
              [(Attribute.mk "A" Tint, age); (Attribute.mk "B" Tint, age)] 3
              ltac:(simpl; lia))
    as (m & Hm & _ & _ & _ & Hraised).
  exists m. split; [exact Hm|].
  apply (Hraised [[VStr "Lisa"; VInt 8]] [] [[VInt 8; VInt 8]] [VStr "Bart"]
                 [] [(Attribute.mk "B" Tint, age)] (Attribute.mk "A" Tint, age) IndexError).
  - reflexivity.
  - repeat constructor.
  - reflexivity.
  - constructor.
  - reflexivity.
Defined.

Section Folding.
Context (self : Fold.t) (t : list Value).

Local Abbreviation row := (Row.mk (Relation._index (Fold._in_relation self)) t).

Lemma combine_at_positions (v : list Value) (n : nat) :
  length (Fold._fs self) = length v -> n <= length v ->
  exists v' : list Value,
    for_loop (Fold.combine_at self t) v (seq 0 n) = Ok v' /\
    length v' = length v /\
    forall i : nat,
      v' !! i = if decide (i < n)
                then match Fold._fs self !! i, v !! i with
                     | Some f, Some x => Some (f x row)
                     | _, _ => None
                     end
                else v !! i.
Proof.
  intros Hfs. induction n as [|n IH]; intros Hn.
  - exists v. split; [reflexivity|]. split; [reflexivity|]. intros i.
    destruct (decide (i < 0)); [lia | reflexivity].
  - destruct IH as (v' & Hloop & Hlen & Hv'); [lia|].
    destruct (lookup_lt_is_Some_2 (Fold._fs self) n ltac:(lia)) as [f Hf].
    destruct (lookup_lt_is_Some_2 v n ltac:(lia)) as [x Hx].
    exists (<[n := f x row]> v').
    rewrite seq_S, for_loop_app, Hloop. cbn [mbind result_bind Nat.add for_loop].
    assert (Hxn : v' !! n = Some x).
    { rewrite Hv'. destruct (decide (n < n)); [lia | exact Hx]. }
    unfold Fold.combine_at, getitem, setitem. rewrite Hf, Hxn. cbn [mbind result_bind].
    destruct (decide (n < length v')) as [_|Hge]; [|lia].
    split; [reflexivity|]. split; [now rewrite length_insert|].
    intros i. destruct (decide (i = n)) as [->|Hne].
    + rewrite list_lookup_insert_eq by lia.
      destruct (decide (n < S n)); [|lia]. now rewrite Hf, Hx.
    + rewrite list_lookup_insert_ne by congruence. rewrite Hv'.
      destruct (decide (i < n)), (decide (i < S n)); try lia; reflexivity.
Qed.

Lemma fold_row_zip (v : list Value) :
  length (Fold._fs self) = length v ->
  Fold.fold_row self v t = Ok (zip_with (fun f x => f x row) (Fold._fs self) v).
Proof.
  intros Hfs. unfold Fold.fold_row.
  destruct (combine_at_positions v (length v) Hfs (le_n _)) as (v' & -> & Hlen & Hv').
  f_equal. apply list_eq. intros i. rewrite Hv', lookup_zip_with.
  destruct (decide (i < length v)) as [Hi|Hi].
  - destruct (lookup_lt_is_Some_2 (Fold._fs self) i ltac:(lia)) as [f ->].
    destruct (lookup_lt_is_Some_2 v i Hi) as [x ->]. reflexivity.
  - rewrite (lookup_ge_None_2 v i) by lia.
    now destruct (Fold._fs self !! i).
Qed.
End Folding.

Lemma zip_with_zip_with {A B : Type} (g h : A -> B -> B) (fs : list A) :
  forall v : list B,
    zip_with g fs (zip_with h fs v) = zip_with (fun f x => g f (h f x)) fs v.
Proof.
  induction fs as [|f fs IH]; intros [|x v]; simpl; try reflexivity. now rewrite IH.
Qed.

Lemma for_loop_ext {A S : Type} (f g : S -> A -> result S) (xs : list A) :
  (forall s x, f s x = g s x) -> forall s : S, for_loop f s xs = for_loop g s xs.
Proof.
  intros Hfg. induction xs as [|x xs IH]; intros s; simpl; [reflexivity|].
  rewrite Hfg. destruct (g s x); simpl; [apply IH | reflexivity].
Qed.

Lemma Fold_loop (self : Fold.t) (rows : list (list Value)) :
  forall v : list Value,
    length (Fold._fs self) = length v ->
    for_loop (Fold.fold_row self) v rows
    = Ok (zip_with
            (fun f x =>
               fold_left (fun x t => f x (Row.mk (Relation._index (Fold._in_relation self)) t))
                         rows x)
            (Fold._fs self) v).
Proof.
  induction rows as [|t rows IH]; intros v Hfs; cbn [for_loop fold_left].
  - f_equal. symmetry. apply list_eq. intros i. rewrite lookup_zip_with.
    destruct (decide (i < length v)) as [Hi|Hi].
    + destruct (lookup_lt_is_Some_2 (Fold._fs self) i ltac:(lia)) as [f ->].
      destruct (lookup_lt_is_Some_2 v i Hi) as [x ->]. reflexivity.
    + rewrite (lookup_ge_None_2 v i) by lia. now destruct (Fold._fs self !! i).
  - rewrite fold_row_zip by exact Hfs. cbn [mbind result_bind].
    rewrite IH by (rewrite length_zip_with; lia).
    now rewrite zip_with_zip_with.
Qed.

(** X8. [Fold] yields one tuple, whatever the number of input tuples: for every
    item [(f, init)] of [fd], the left fold of [f] over the rows of the
    input starting from [init]. The columns are folded independently, and an
    input without tuples gives the initial values. *)
Theorem Fold_folds_every_column
        (R : Relation.t) (fd : list (Attribute.t * ((Value -> Row.t -> Value) * Value))) :
  exists s s' : Fold.t,
    Fold.__init__ R fd = Ok s /\
    Fold._attributes s = map fst fd /\
    Fold.__iter__ s
    = Ok (map (fun item =>
                 fold_left (fun x t => fst (snd item) x (Row.mk (Relation._index R) t))
                           (Relation.__iter__ R) (snd (snd item)))
              fd,
          s').
Proof.
  eexists. eexists. split; [reflexivity|]. split; [reflexivity|].
  unfold Fold.__iter__, Fold.run.
  cbn [Fold._in_relation Fold._v Fold._fs Fold._attributes Fold._index].
  rewrite Fold_loop by (cbn [Fold._fs]; now rewrite !length_map).
  cbn [mbind result_bind Fold._fs Fold._in_relation].
  assert (Hzip : forall (h : (Value -> Row.t -> Value) -> Value -> Value),
             zip_with h (map (fun item => fst (snd item)) fd)
                        (map (fun item => snd (snd item)) fd)
             = map (fun item => h (fst (snd item)) (snd (snd item))) fd).
  { intros h. induction fd as [|item rest IH]; simpl; [reflexivity | now rewrite IH]. }
  rewrite Hzip. reflexivity.
Qed.

(** X9. The generator of [Fold] keeps its values in the object: run a second
    time, on the rows [rows'], it continues from the values it reached on
    [rows] instead of starting from the initial values again. *)
Theorem Fold_continues_from_its_last_values
        (s s' : Fold.t) (rows rows' : list (list Value)) (v : list Value) :
  Fold.run s rows = Ok (v, s') ->
  Fold.run s' rows' = Fold.run s (rows ++ rows').
Proof.
  unfold Fold.run. intros Hrun.
  apply bind_Ok in Hrun as (v0 & Hv0 & Hrun). injection Hrun as <- <-.
  rewrite for_loop_app, Hv0. cbn [mbind result_bind Fold._v Fold._attributes Fold._index
                                  Fold._in_relation Fold._fs].
  rewrite (for_loop_ext (Fold.fold_row (Fold.mk (Fold._attributes s) (Fold._index s)
                                                (Fold._in_relation s) (Fold._fs s) v0))
                        (Fold.fold_row s)); [reflexivity|].
  intros u t. unfold Fold.fold_row. apply for_loop_ext. intros w i. reflexivity.
Qed.

Lemma Fold_continues_from_its_last_values_witness :
  let R := Relation.__init__ [Attribute.mk "Age" Tint] None [] in
  let add := fun (x : Value) (r : Row.t) =>
               match Row.__call__ r "Age" ≫= py_add x with Ok v => v | Raise _ => x end in
  exists s s1 s2 : Fold.t,
    Fold.__init__ R [(Attribute.mk "Total" Tint, (add, VInt 0))] = Ok s /\
    Fold.run s [[VInt 8]; [VInt 10]] = Ok ([VInt 18], s1) /\
    Fold.run s1 [[VInt 1]] = Ok ([VInt 19], s2).
Proof.
  intros R add.
  pose (total := [Attribute.mk "Total" Tint]).
  exists (Fold.mk total (Relation.make_index total) R [add] [VInt 0]).
  exists (Fold.mk total (Relation.make_index total) R [add] [VInt 18]).
  eexists. split; [reflexivity|]. split; [reflexivity|].
  rewrite (Fold_continues_from_its_last_values
             (Fold.mk total (Relation.make_index total) R [add] [VInt 0])
             (Fold.mk total (Relation.make_index total) R [add] [VInt 18])
             [[VInt 8]; [VInt 10]] [[VInt 1]] [VInt 18] eq_refl).
  reflexivity.
Defined.

(** ** Aggregation: the values *)

Lemma feed_Ok (t : list Value) (fs fs' : list (nat * aggregator)) :
  Aggregate.feed t fs = Ok fs'
  <-> Forall2 (fun p p' => fst p' = fst p /\
                           (x ← getitem t (fst p); call (snd p) x) = Ok (snd p'))
              fs fs'.
Proof.
  unfold Aggregate.feed. rewrite comprehension_Ok_iff.
  apply Forall2_iff_in. intros [i a] [i' a'] _. cbn [fst snd].
  destruct (getitem t i) as [x|e]; cbn [mbind result_bind]; [|split; [|intros []]; discriminate].
  destruct (call a x) as [a1|e]; cbn [mbind result_bind]; [|split; [|intros []]; discriminate].
  split; [intros [= <- <-]; auto | intros [-> [= ->]]; reflexivity].
Qed.

(** When the loop over the input succeeds, every aggregator has been called
    on the values of its own column, in row order, and on nothing else. *)
Lemma Aggregate_loop (rows : list (list Value)) :
  forall fs fs' : list (nat * aggregator),
    for_loop (fun fs t => Aggregate.feed t fs) fs rows = Ok fs'
    <-> Forall2 (fun p p' =>
                   fst p' = fst p /\
                   for_loop (fun a t => x ← getitem t (fst p); call a x) (snd p) rows
                   = Ok (snd p'))
                fs fs'.
Proof.
  induction rows as [|t rows IH]; intros fs fs'; cbn [for_loop].
  - split.
    + intros [= <-]. induction fs; constructor; auto.
    + intros H. f_equal. induction H as [|[i a] [i' a'] ? ? [Hi Ha]]; [reflexivity|].
      cbn [fst snd] in *. injection Ha as <-. subst. now f_equal.
  - split.
    + intros H. apply bind_Ok in H as (fs1 & H1 & H). apply feed_Ok in H1. apply IH in H.
      assert (H2 := proj1 (Forall2_compose _ _ fs fs') (ex_intro _ fs1 (conj H1 H))).
      revert H2. apply Forall2_impl_in. intros [i a] [i' a'] _. cbn [fst snd].
      intros ([i1 a1] & [Hi1 Ha1] & [Hi' Ha']). cbn [fst snd] in *. subst.
      split; [reflexivity|]. now rewrite Ha1.
    + intros H.
      assert (H2 : Forall2 (fun p p' =>
                    exists p1 : nat * aggregator,
                      (fst p1 = fst p /\
                       (x ← getitem t (fst p); call (snd p) x) = Ok (snd p1)) /\
                      (fst p' = fst p1 /\
                       for_loop (fun a t => x ← getitem t (fst p1); call a x) (snd p1) rows
                       = Ok (snd p'))) fs fs').
      { revert H. apply Forall2_impl_in. intros [i a] [i' a'] _. cbn [fst snd].
        intros [-> Ha]. apply bind_Ok in Ha as (a1 & Ha1 & Ha).
        exists (i, a1). cbn [fst snd]. auto. }
      apply Forall2_compose in H2 as (fs1 & H1 & H2).
      apply feed_Ok in H1. apply IH in H2. now rewrite H1.
Qed.

Lemma loop_over_column (i : nat) (rows : list (list Value)) :
  Forall (fun t : list Value => i < length t) rows ->
  forall a : aggregator,
    for_loop (fun a t => x ← getitem t i; call a x) a rows
    = for_loop call a (column i rows).
Proof.
  induction 1 as [|t rows Ht _ IH]; intros a; [reflexivity|].
  destruct (lookup_lt_is_Some_2 t i Ht) as [x Hx].
  unfold column. cbn [for_loop omap list_omap]. rewrite Hx. cbn [for_loop].
  unfold getitem. rewrite Hx. cbn [mbind result_bind].
  destruct (call a x); cbn [mbind result_bind]; [apply IH | reflexivity].
Qed.

Lemma Aggregate_init (R : Relation.t) (aggregators : list (string * AggregateType)) :
  indexed R ->
  Forall (fun nf => In (fst nf) (Relation.names R)) aggregators ->
  exists attributes : list Attribute.t,
    Aggregate.__init__ R aggregators
    = Ok (Aggregate.mk attributes (Relation.make_index attributes) (Relation.__iter__ R)
            (map (fun nf => (position (Relation._index R) (fst nf), construct (snd nf)))
                 aggregators)).
Proof.
  intros HR Hall.
  destruct (comprehension_Forall2 (Aggregate.attr R) (fun _ _ => True) aggregators)
    as (attrs & Hattrs & _).
  { eapply List.Forall_impl; [|exact Hall]. intros [n f] Hn.
    destruct (Aggregate_attr_Ok R n f HR Hn) as (src & _ & _ & Ha). eauto. }
  exists attrs. unfold Aggregate.__init__. rewrite Hattrs. cbn [mbind result_bind].
  rewrite (comprehension_pure _
             (fun nf => (position (Relation._index R) (fst nf), construct (snd nf)))).
  - reflexivity.
  - eapply List.Forall_impl; [|exact Hall]. intros [n f] Hn. cbn [fst snd] in *.
    destruct (name_position R n HR Hn) as (-> & _). reflexivity.
Qed.

(** X10. The one tuple of an aggregation holds, for every pair of a column name
    and an aggregator class, the value of a fresh aggregator of the class
    that was called on the values of the column in row order. The
    aggregation succeeds exactly when each column's aggregator does on its
    own. *)
Theorem Aggregate_folds_every_column
        (R : Relation.t) (aggregators : list (string * AggregateType)) :
  indexed R -> conforming R ->
  Forall (fun nf => In (fst nf) (Relation.names R)) aggregators ->
  exists a : Aggregate.t,
    Aggregate.__init__ R aggregators = Ok a /\
    forall vs : list (option Value),
      Aggregate.__iter__ a = Ok vs
      <-> comprehension
            (fun nf => aggregated (snd nf)
                         (column (position (Relation._index R) (fst nf))
                                 (Relation.__iter__ R)))
            aggregators
          = Ok vs.
Proof.
  intros HR Hconf Hall.
  destruct (Aggregate_init R aggregators HR Hall) as (attrs & Hinit).
  eexists. split; [exact Hinit|]. intros vs.
  unfold Aggregate.__iter__. cbn [Aggregate._fs Aggregate._itr].
  rewrite comprehension_Ok_iff.
  split.
  - intros H. apply bind_Ok in H as (fs' & Hloop & Hvs).
    apply Aggregate_loop in Hloop. apply Forall2_map_left in Hloop.
    apply comprehension_Ok_iff in Hvs.
    assert (H2 := proj1 (Forall2_compose _ _ aggregators vs)
                        (ex_intro _ fs' (conj Hloop Hvs))).
    clear Hloop Hvs. revert H2. apply Forall2_impl_in.
    intros [n f] v Hin. cbn [fst snd].
    assert (Hn : In n (Relation.names R)).
    { rewrite List.Forall_forall in Hall. apply (Hall _ Hin). }
    destruct (name_position R n HR Hn) as (_ & Hpos & _).
    rewrite loop_over_column.
    2: { eapply List.Forall_impl; [|exact Hconf]. cbn beta. intros t ->. exact Hpos. }
    unfold aggregated.
    intros ([i a'] & [_ Ha'] & Hv). cbn [fst snd] in *. now rewrite Ha'.
  - intros H.
    assert (H2 : Forall2
                   (fun nf v =>
                      exists p' : nat * aggregator,
                        (fst p' = position (Relation._index R) (fst nf) /\
                         for_loop (fun a t => x ← getitem t (position (Relation._index R) (fst nf));
                                              call a x)
                                  (construct (snd nf)) (Relation.__iter__ R)
                         = Ok (snd p')) /\
                        value (snd p') = Ok v)
                   aggregators vs).
    { revert H. apply Forall2_impl_in. intros [n f] v Hin. cbn [fst snd].
      assert (Hn : In n (Relation.names R)).
      { rewrite List.Forall_forall in Hall. apply (Hall _ Hin). }
      destruct (name_position R n HR Hn) as (_ & Hpos & _).
      rewrite loop_over_column.
      2: { eapply List.Forall_impl; [|exact Hconf]. cbn beta. intros t ->. exact Hpos. }
      unfold aggregated.
      intros Hv. apply bind_Ok in Hv as (a' & Ha' & Hv).
      exists (position (Relation._index R) n, a'). cbn [fst snd]. auto. }
    apply Forall2_compose in H2 as (fs' & Hloop & Hvs).
    apply (Forall2_map_left
             (fun nf => (position (Relation._index R) (fst nf), construct (snd nf)))
             (fun p p' => fst p' = fst p /\
                          for_loop (fun a t => x ← getitem t (fst p); call a x)
                                   (snd p) (Relation.__iter__ R) = Ok (snd p'))) in Hloop.
    apply Aggregate_loop in Hloop. rewrite Hloop. cbn [mbind result_bind].
    now apply comprehension_Ok_iff.
Qed.

Lemma Aggregate_folds_every_column_witness :
  let R := Relation.__init__ [Attribute.mk "Name" Tstr; Attribute.mk "Age" Tint] None
             [[VStr "Lisa"; VInt 8]; [VStr "Bart"; VInt 10]] in
  exists a : Aggregate.t,
    Aggregate.__init__ R [("Age", Sum); ("Name", Max); ("Name", Count)] = Ok a /\
    Aggregate.__iter__ a = Ok [Some (VInt 18); Some (VStr "Lisa"); Some (VInt 2)].
Proof.
  intros R.
  destruct (Aggregate_folds_every_column R [("Age", Sum); ("Name", Max); ("Name", Count)]
              ltac:(reflexivity)
              ltac:(forall_by ltac:(reflexivity))
              ltac:(forall_by ltac:(simpl; auto 10)))
    as (a & Ha & Hvs).
  exists a. split; [exact Ha|]. apply Hvs. vm_compute. reflexivity.
Defined.

Lemma column_length (i : nat) (rows : list (list Value)) :
  Forall (fun t : list Value => i < length t) rows ->
  length (column i rows) = length rows.
Proof.
  induction 1 as [|t rows Ht _ IH]; [reflexivity|].
  destruct (lookup_lt_is_Some_2 t i Ht) as [x Hx].
  unfold column. cbn [omap list_omap]. rewrite Hx. cbn [length]. f_equal. exact IH.
Qed.

Lemma Count_loop (xs : list Value) :
  forall k : Z,
    for_loop call (ACount (Count.mk k)) xs
    = Ok (ACount (Count.mk (k + Z.of_nat (length xs)))).
Proof.
  induction xs as [|x xs IH]; intros k; cbn [for_loop length].
  - do 3 f_equal. lia.
  - cbn [call Count.__call__ Count._n mbind result_bind]. rewrite IH. do 3 f_equal. lia.
Qed.

(** X11. [Count] on any column gives the number of tuples of the input,
    whatever the values of the column are, and cannot fail. *)
Theorem Count_is_the_number_of_tuples (R : Relation.t) (n : string) :
  indexed R -> conforming R -> In n (Relation.names R) ->
  exists a : Aggregate.t,
    Aggregate.__init__ R [(n, Count)] = Ok a /\
    Aggregate._attributes a = [Attribute.mk (n +:+ "_Count") Tint] /\
    Aggregate.__iter__ a = Ok [Some (VInt (Z.of_nat (length (Relation.__iter__ R))))].
Proof.
  intros HR Hconf Hn.
  destruct (Aggregate_init R [(n, Count)] HR ltac:(forall_by ltac:(exact Hn)))
    as (attrs & Hinit).
  eexists. split; [exact Hinit|]. split.
  - unfold Aggregate.__init__ in Hinit.
    destruct (Aggregate_attr_Ok R n Count HR Hn) as (src & _ & _ & Ha).
    cbn [comprehension] in Hinit. rewrite Ha in Hinit.
    cbn [mbind result_bind fst] in Hinit.
    destruct (Relation.index R n); cbn [mbind result_bind] in Hinit; [|discriminate].
    injection Hinit as <-. reflexivity.
  - unfold Aggregate.__iter__. cbn [Aggregate._fs Aggregate._itr map fst snd].
    destruct (name_position R n HR Hn) as (_ & Hpos & _).
    assert (Hwide : Forall (fun t : list Value => position (Relation._index R) n < length t)
                           (Relation.__iter__ R)).
    { eapply List.Forall_impl; [|exact Hconf]. cbn beta. intros t ->. exact Hpos. }
    rewrite (proj2 (Aggregate_loop (Relation.__iter__ R) _
                      [(position (Relation._index R) n,
                        ACount (Count.mk (Z.of_nat (length (Relation.__iter__ R)))))])).
    + reflexivity.
    + constructor; [|constructor]. split; [reflexivity|]. cbn [fst snd].
      rewrite loop_over_column by exact Hwide.
      cbn [construct]. unfold Count.__init__. rewrite Count_loop.
      now rewrite column_length by exact Hwide.
Qed.

Lemma Count_is_the_number_of_tuples_witness :
  let R := Relation.__init__ [Attribute.mk "Name" Tstr; Attribute.mk "Age" Tint] None
             [[VStr "Lisa"; VInt 8]; [VStr "Bart"; VInt 10]] in
  exists a : Aggregate.t,
    Aggregate.__init__ R [("Name", Count)] = Ok a /\
    Aggregate.__iter__ a = Ok [Some (VInt 2)].
Proof.
  intros R.
  destruct (Count_is_the_number_of_tuples R "Name"
              ltac:(reflexivity) ltac:(forall_by ltac:(reflexivity))
              ltac:(simpl; auto))
    as (a & Ha & _ & Hv).
  exists a. split; [exact Ha | exact Hv].
Defined.

(** X12. Over an input without tuples, the aggregation still yields one tuple:
    [0] for [Count] and for [Sum] (an [int], whatever the column's type),
    [None] for [Max] and [Min], [0.0] for [Mean] and a NaN for
    [Variance]. *)
Theorem Aggregate_of_no_tuples
        (R : Relation.t) (aggregators : list (string * AggregateType)) :
  indexed R ->
  Forall (fun nf => In (fst nf) (Relation.names R)) aggregators ->
  Relation.__iter__ R = [] ->
  exists a : Aggregate.t,
    Aggregate.__init__ R aggregators = Ok a /\
    Aggregate.__iter__ a = Ok (map (fun nf => value_of_nothing (snd nf)) aggregators).
Proof.
  intros HR Hall Hrows.
  destruct (Aggregate_init R aggregators HR Hall) as (attrs & Hinit).
  eexists. split; [exact Hinit|].
  unfold Aggregate.__iter__. cbn [Aggregate._fs Aggregate._itr]. rewrite Hrows.
  cbn [for_loop mbind result_bind].
  clear. induction aggregators as [|[n f] rest IH]; [reflexivity|].
  cbn [map comprehension fst snd]. rewrite IH.
  destruct f; reflexivity.
Qed.

Lemma Aggregate_of_no_tuples_witness :
  let R := Relation.__init__ [Attribute.mk "Name" Tstr; Attribute.mk "Height" Tfloat] None [] in
  exists a : Aggregate.t,
    Aggregate.__init__ R [("Height", Sum); ("Name", Max); ("Height", Variance)] = Ok a /\
    Aggregate.__iter__ a = Ok [Some (VInt 0); None; Some (VFloat nan)].
Proof.
  intros R.
  destruct (Aggregate_of_no_tuples R [("Height", Sum); ("Name", Max); ("Height", Variance)]
              ltac:(reflexivity) ltac:(forall_by ltac:(simpl; auto 10)) ltac:(reflexivity))
    as (a & Ha & Hv).
  exists a. split; [exact Ha | exact Hv].
Defined.

Lemma Sum_loop (zs : list Z) :
  forall s : Z,
    for_loop call (ASum (Sum.mk (VInt s))) (map VInt zs)
    = Ok (ASum (Sum.mk (VInt (fold_left Z.add zs s)))).
Proof.
  induction zs as [|z zs IH]; intros s; [reflexivity|].
  cbn [map for_loop call Sum.__call__ Sum._sum py_add mbind result_bind fold_left].
  apply IH.
Qed.

Lemma py_lt_int (a b : Z) : py_lt (VInt a) (VInt b) = Ok (a <? b)%Z.
Proof. exact (int_lt a b). Qed.

Lemma Max_loop (zs : list Z) :
  forall m : Z,
    for_loop call (AMax (Max.mk (Some (VInt m)))) (map VInt zs)
    = Ok (AMax (Max.mk (Some (VInt (fold_left Z.max zs m))))).
Proof.
  induction zs as [|z zs IH]; intros m; [reflexivity|].
  cbn [map for_loop call Max.__call__ Max._max fold_left]. unfold py_max.
  rewrite py_lt_int. cbn [mbind result_bind].
  replace (if (m <? z)%Z then VInt z else VInt m) with (VInt (Z.max m z))
    by (destruct (Z.ltb_spec m z); f_equal; lia).
  apply IH.
Qed.

Lemma Min_loop (zs : list Z) :
  forall m : Z,
    for_loop call (AMin (Min.mk (Some (VInt m)))) (map VInt zs)
    = Ok (AMin (Min.mk (Some (VInt (fold_left Z.min zs m))))).
Proof.
  induction zs as [|z zs IH]; intros m; [reflexivity|].
  cbn [map for_loop call Min.__call__ Min._min fold_left]. unfold py_min.
  rewrite py_lt_int. cbn [mbind result_bind].
  replace (if (z <? m)%Z then VInt z else VInt m) with (VInt (Z.min m z))
    by (destruct (Z.ltb_spec z m); f_equal; lia).
  apply IH.
Qed.

(** X13. On a column of integers, [Sum] is the exact integer sum, and [Max] and
    [Min] are the greatest and the least value; none of them can fail or
    round. *)
Theorem Sum_Max_Min_of_integers (z : Z) (zs : list Z) :
  aggregated Sum (map VInt (z :: zs)) = Ok (Some (VInt (fold_left Z.add zs z))) /\
  aggregated Max (map VInt (z :: zs)) = Ok (Some (VInt (fold_left Z.max zs z))) /\
  aggregated Min (map VInt (z :: zs)) = Ok (Some (VInt (fold_left Z.min zs z))).
Proof.
  unfold aggregated. repeat split.
  - cbn [construct]. unfold Sum.__init__. rewrite Sum_loop. reflexivity.
  - cbn [construct map for_loop call Max.__call__ Max._max Max.__init__ mbind result_bind].
    rewrite Max_loop. reflexivity.
  - cbn [construct map for_loop call Min.__call__ Min._min Min.__init__ mbind result_bind].
    rewrite Min_loop. reflexivity.
Qed.

(** X14. [Sum], [Mean] and [Variance] fail with a [TypeError] on a column that
    starts with a string, although the schema declares the type of the
    column for their result: [Sum] starts from the integer [0], and the two
    others subtract a float. *)
Theorem Sum_Mean_Variance_of_strings (s : string) (xs : list Value) :
  aggregated Sum (VStr s :: xs) = Raise TypeError /\
  aggregated Mean (VStr s :: xs) = Raise TypeError /\
  aggregated Variance (VStr s :: xs) = Raise TypeError.
Proof. repeat split. Qed.

(** ** Type names *)

(** X15. [parse_type] is the inverse of [type_string]: it accepts the three type
    names, each for its own type, and raises a [KeyError] on every other
    string. *)
Theorem parse_type_inverts_type_string (name : string) :
  (forall type : pytype,
      AttributeTypes.parse_type name = Ok type
      <-> name = AttributeTypes.type_string (Attribute.__init__ name type)) /\
  (forall a : Attribute.t,
      AttributeTypes.parse_type (AttributeTypes.type_string a) = Ok (Attribute.type a)) /\
  (forall e : exn, AttributeTypes.parse_type name = Raise e -> e = KeyError).
Proof.
  split; [|split].
  - intros type. unfold AttributeTypes.parse_type, AttributeTypes.type_string.
    cbn [Attribute.__init__ Attribute._type].
    destruct (String.eqb_spec name "float") as [->|Hf].
    { destruct type; split; intros H; try discriminate; try reflexivity. }
    destruct (String.eqb_spec name "int") as [->|Hi].
    { destruct type; split; intros H; try discriminate; try reflexivity. }
    destruct (String.eqb_spec name "str") as [->|Hs].
    { destruct type; split; intros H; try discriminate; try reflexivity. }
    split; [discriminate|]. destruct type; intros ->; congruence.
  - intros [n []]; reflexivity.
  - intros e. unfold AttributeTypes.parse_type.
    repeat (destruct (String.eqb _ _); [discriminate|]). now intros [= <-].
Qed.

(** ** Type alteration *)

Lemma lookup_map {A B : Type} (f : A -> B) (l : list A) (i : nat) :
  map f l !! i = f <$> l !! i.
Proof.
  revert i. induction l as [|x l IH]; intros [|i]; cbn [map]; try reflexivity. apply IH.
Qed.

Lemma filtered_positions_from {A : Type} (p : nat * A -> bool) (l : list A) :
  forall i0 : nat,
    NoDup (map fst (List.filter p (combine (seq i0 (length l)) l))) /\
    forall i, In i (map fst (List.filter p (combine (seq i0 (length l)) l))) -> i0 <= i.
Proof.
  induction l as [|x l IH]; intros i0; cbn [length seq combine List.filter map].
  - split; [constructor | intros i []].
  - destruct (IH (S i0)) as [Hnd Hge].
    destruct (p (i0, x)); cbn [map fst].
    + split.
      * constructor; [|exact Hnd]. rewrite list_elem_of_In. intros Hin.
        apply Hge in Hin. lia.
      * intros i [<-|Hin]; [lia|]. apply Hge in Hin. lia.
    + split; [exact Hnd|]. intros i Hin. apply Hge in Hin. lia.
Qed.

Lemma altered_NoDup (td : gmap string pytype) (attributes : list Attribute.t) :
  NoDup (AlterType.altered td attributes).
Proof. apply (filtered_positions_from _ attributes 0). Qed.

Lemma altered_In (td : gmap string pytype) (attributes : list Attribute.t) (i : nat) :
  In i (AlterType.altered td attributes)
  <-> exists a, attributes !! i = Some a /\ is_Some (td !! Attribute.name a).
Proof.
  unfold AlterType.altered. rewrite in_map_iff. split.
  - intros ([j a] & <- & Hin). apply filter_In in Hin as [Hin Hp].
    apply enumerate_lookup in Hin. apply bool_decide_eq_true in Hp. eauto.
  - intros (a & Ha & Htd). exists (i, a). split; [reflexivity|].
    apply filter_In. split; [now apply enumerate_lookup | now apply bool_decide_eq_true].
Qed.

Section Converting.
Context (convert : pytype -> Value -> result Value) (self : AlterType.t).

Lemma convert_item_step (t : list Value) (i : nat) (a : Attribute.t) (x v : Value) :
  AlterType._attributes self !! i = Some a -> t !! i = Some x ->
  convert (Attribute.type a) x = Ok v ->
  AlterType.convert_item convert self t i = Ok (<[i := v]> t).
Proof.
  intros Ha Hx Hv. unfold AlterType.convert_item, getitem, setitem.
  rewrite Ha, Hx. cbn [mbind result_bind]. rewrite Hv. cbn [mbind result_bind].
  apply lookup_lt_Some in Hx. now rewrite decide_True.
Qed.

Lemma convert_loop (idx : list nat) :
  forall t : list Value,
    NoDup idx ->
    Forall (fun i => i < length t /\ i < length (AlterType._attributes self)) idx ->
    (forall i a x, In i idx -> AlterType._attributes self !! i = Some a -> t !! i = Some x ->
                   exists v, convert (Attribute.type a) x = Ok v) ->
    exists u : list Value,
      for_loop (AlterType.convert_item convert self) t idx = Ok u /\
      length u = length t /\
      (forall i, ~ In i idx -> u !! i = t !! i) /\
      (forall i a x, In i idx -> AlterType._attributes self !! i = Some a -> t !! i = Some x ->
                     exists v, convert (Attribute.type a) x = Ok v /\ u !! i = Some v).
Proof.
  induction idx as [|i idx IH]; intros t Hnd Hidx Hconv.
  - exists t. split; [reflexivity|]. split; [reflexivity|]. split; [reflexivity|].
    intros i a x [].
  - apply NoDup_cons in Hnd as [Hi Hnd]. rewrite list_elem_of_In in Hi.
    apply Forall_cons in Hidx as [[Hit Hia] Hidx].
    destruct (lookup_lt_is_Some_2 _ i Hia) as [a Ha].
    destruct (lookup_lt_is_Some_2 t i Hit) as [x Hx].
    destruct (Hconv i a x (or_introl eq_refl) Ha Hx) as [v Hv].
    destruct (IH (<[i := v]> t)) as (u & Hloop & Hlen & Hother & Hidxs).
    + exact Hnd.
    + eapply Forall_impl; [exact Hidx|]. intros j. now rewrite length_insert.
    + intros j b y Hj Hb Hy. rewrite list_lookup_insert_ne in Hy by congruence.
      apply (Hconv j b y); [now right | exact Hb | exact Hy].
    + exists u. cbn [for_loop]. rewrite (convert_item_step t i a x v Ha Hx Hv).
      cbn [mbind result_bind].
      split; [exact Hloop|]. split; [now rewrite Hlen, length_insert|]. split.
      * intros j Hj. rewrite Hother by (intros H; apply Hj; now right).
        apply list_lookup_insert_ne. intros ->. apply Hj. now left.
      * intros j b y [<-|Hj] Hb Hy.
        -- rewrite Ha in Hb. rewrite Hx in Hy. injection Hb as <-. injection Hy as <-.
           exists v. split; [exact Hv|]. rewrite Hother by exact Hi.
           now apply list_lookup_insert_eq.
        -- apply (Hidxs j b y Hj Hb). rewrite list_lookup_insert_ne by congruence. exact Hy.
Qed.
End Converting.

Lemma AlterType_drain (convert : pytype -> Value -> result Value)
      (R : Relation.t) (td : gmap string pytype) (itr : list (list Value)) :
  Forall (fun t : list Value => length t = length (Relation._attributes R)) itr ->
  Forall (fun t : list Value =>
            forall i a type x,
              Relation._attributes R !! i = Some a -> td !! Attribute.name a = Some type ->
              t !! i = Some x -> exists v, convert type x = Ok v) itr ->
  forall fuel : nat,
    length itr < fuel ->
    exists out : list (list Value),
      drain (AlterType.__next__ convert) fuel
            (AlterType.mk (map (AlterType.alter td) (Relation._attributes R))
                          (Relation.make_index (map (AlterType.alter td) (Relation._attributes R)))
                          (AlterType.altered td (Relation._attributes R)) itr)
      = (out, Exhausted) /\
      Forall2 (converted convert td (Relation._attributes R)) itr out.
Proof.
  induction 1 as [|t itr Ht _ IH]; intros Hconv [|fuel] Hfuel; simpl in Hfuel; try lia.
  - exists []. split; [reflexivity | constructor].
  - apply Forall_cons in Hconv as [Hconv Hrest].
    destruct (IH Hrest fuel ltac:(lia)) as (out & Hout & H2).
    set (self := AlterType.mk (map (AlterType.alter td) (Relation._attributes R))
                   (Relation.make_index (map (AlterType.alter td) (Relation._attributes R)))
                   (AlterType.altered td (Relation._attributes R)) (t :: itr)).
    destruct (convert_loop convert self (AlterType.altered td (Relation._attributes R)) t)
      as (u & Hloop & Hlen & Hother & Hidx).
    + apply altered_NoDup.
    + apply List.Forall_forall. intros i Hi. apply altered_In in Hi as (a & Ha & _).
      apply lookup_lt_Some in Ha. cbn [self AlterType._attributes].
      rewrite length_map. lia.
    + intros i b x Hi Hb Hx. apply altered_In in Hi as (a & Ha & [type Htype]).
      cbn [self AlterType._attributes] in Hb. rewrite lookup_map, Ha in Hb.
      injection Hb as <-. unfold AlterType.alter. rewrite Htype.
      cbn [Attribute.type Attribute.__init__ Attribute._type].
      apply (Hconv i a type x Ha Htype Hx).
    + exists (u :: out). split.
      * subst self.
        cbn [drain AlterType.__next__ next AlterType._itr AlterType._idx
             AlterType._attributes AlterType._index].
        rewrite Hloop. rewrite Hout. reflexivity.
      * constructor; [|exact H2]. split; [exact Hlen|]. intros i a Ha.
        destruct (td !! Attribute.name a) as [type|] eqn:Htype.
        -- assert (Hi : In i (AlterType.altered td (Relation._attributes R)))
             by (apply altered_In; eauto).
           destruct (lookup_lt_is_Some_2 t i) as [x Hx];
             [apply lookup_lt_Some in Ha; lia|].
           destruct (Hidx i (AlterType.alter td a) x Hi) as (v & Hv & Hu);
             [cbn [self AlterType._attributes]; now rewrite lookup_map, Ha | exact Hx |].
           unfold AlterType.alter in Hv. rewrite Htype in Hv.
           exists x, v. auto.
        -- apply Hother. intros Hi. apply altered_In in Hi as (b & Hb & [type Hsome]).
           congruence.
Qed.

(** X16. [AlterType] keeps the names and positions of the columns and gives
    every column that [td] names the type of [td]; names of [td] that are
    not columns are ignored. In the tuples, the values of exactly those
    columns are converted by the constructor of the new type, also when the
    type did not change, and every other value is handed on. *)
Theorem AlterType_converts_the_named_columns
        (convert : pytype -> Value -> result Value)
        (R : Relation.t) (td : gmap string pytype) (fuel : nat) :
  conforming R ->
  Forall (fun t : list Value =>
            forall i a type x,
              Relation._attributes R !! i = Some a -> td !! Attribute.name a = Some type ->
              t !! i = Some x -> exists v, convert type x = Ok v) (Relation.__iter__ R) ->
  length (Relation.__iter__ R) < fuel ->
  exists (a : AlterType.t) (out : list (list Value)),
    AlterType.__init__ R td = Ok a /\
    Forall2 (fun old new =>
               Attribute.name new = Attribute.name old /\
               Attribute.type new = default (Attribute.type old) (td !! Attribute.name old))
            (Relation._attributes R) (AlterType._attributes a) /\
    drain (AlterType.__next__ convert) fuel a = (out, Exhausted) /\
    Forall2 (converted convert td (Relation._attributes R)) (Relation.__iter__ R) out.
Proof.
  intros Hconf Hconv Hfuel.
  destruct (AlterType_drain convert R td (Relation.__iter__ R) Hconf Hconv fuel Hfuel)
    as (out & Hout & H2).
  eexists. exists out. split; [reflexivity|]. split; [|split; [exact Hout | exact H2]].
  cbn [AlterType._attributes]. unfold Relation.attributes.
  clear. generalize (Relation._attributes R). intros l.
  induction l as [|a l IH]; cbn [map]; constructor; [|exact IH].
  unfold AlterType.alter. destruct (td !! Attribute.name a); split; reflexivity.
Qed.

Lemma AlterType_converts_the_named_columns_witness :
  let R := Relation.__init__ [Attribute.mk "Name" Tstr; Attribute.mk "Age" Tint] None
             [[VStr "Lisa"; VInt 8]; [VStr "Bart"; VInt 10]] in
  let convert := fun (type : pytype) (x : Value) =>
                   match type, x with
                   | Tfloat, VInt z => v ← float_of_int z; Ok (VFloat v)
                   | _, _ => Ok x
                   end in
  exists (a : AlterType.t) (out : list (list Value)),
    AlterType.__init__ R {["Age" := Tfloat; "Height" := Tfloat]} = Ok a /\
    map Attribute.type (AlterType._attributes a) = [Tstr; Tfloat] /\
    drain (AlterType.__next__ convert) 3 a = (out, Exhausted) /\
    Forall2 (converted convert {["Age" := Tfloat; "Height" := Tfloat]}
                       (Relation._attributes R))
            (Relation.__iter__ R) out.
Proof.
  intros R convert.
  destruct (AlterType_converts_the_named_columns convert R
              {["Age" := Tfloat; "Height" := Tfloat]} 3)
    as (a & out & Ha & Hattrs & Hout & H2).
  - forall_by ltac:(reflexivity).
  - forall_by ltac:(intros [|[|i]] b type x Hb Htype Hx; simpl in Hb, Hx; try discriminate;
                    injection Hx as <-; injection Hb as <-;
                    vm_compute in Htype; try discriminate; injection Htype as <-;
                    match goal with
                    | |- exists v, ?c = Ok v =>
                        let r := eval vm_compute in c in
                        match r with Ok ?w => exists w end
                    end; vm_compute; reflexivity).
  - simpl. lia.
  - exists a, out. split; [exact Ha|]. split; [|split; [exact Hout | exact H2]].
    vm_compute in Ha. injection Ha as <-. reflexivity.
Defined.

(** ** Construction of the concatenations and of the join *)

Lemma type_of_name (r : Relation.t) (n : string) :
  indexed r -> In n (Relation.names r) -> exists type, Relation.type r n = Ok type.
Proof.
  intros Hr Hn. destruct (attribute_of_name r n Hr Hn) as (i & a & _ & _ & _ & Ha).
  unfold Relation.type. rewrite Ha. eauto.
Qed.

Lemma type_of_own_name (r : Relation.t) (a : Attribute.t) :
  indexed r -> NoDup (Relation.names r) -> In a (Relation._attributes r) ->
  Relation.type r (Attribute.name a) = Ok (Attribute.type a).
Proof.
  intros Hr Hnd Ha. apply list_elem_of_In, list_elem_of_lookup_1 in Ha as [i Hi].
  unfold Relation.type, Relation.attribute, Relation.index, Relation.lookup_index.
  rewrite Hr, (make_index_position _ i a Hnd Hi). cbn [mbind result_bind].
  rewrite (getitem_Some _ _ _ Hi). reflexivity.
Qed.

Lemma NoDup_snoc (ns : list string) (n : string) :
  NoDup ns -> ~ In n ns -> NoDup (ns ++ [n]).
Proof.
  intros Hnd Hn. apply NoDup_app. split; [exact Hnd|]. split.
  - intros x Hx Hx'. apply list_elem_of_In in Hx. apply list_elem_of_In in Hx'.
    destruct Hx' as [<-|[]]. contradiction.
  - apply NoDup_singleton.
Qed.

Section AddingNames.
Context (r : Relation.t).
Hypothesis r_indexed : indexed r.

Lemma add_name_fresh (name_type : list (string * pytype)) (n : string) :
  ~ In n (map fst name_type) ->
  HCat.add_name r name_type n = type ← Relation.type r n; Ok (name_type ++ [(n, type)]).
Proof.
  intros Hn. unfold HCat.add_name.
  rewrite bool_decide_eq_false_2 by now rewrite list_elem_of_In. reflexivity.
Qed.

Lemma add_name_seen (name_type : list (string * pytype)) (n : string) :
  In n (map fst name_type) -> HCat.add_name r name_type n = Raise TypeError.
Proof.
  intros Hn. unfold HCat.add_name.
  rewrite bool_decide_eq_true_2 by now rewrite list_elem_of_In. reflexivity.
Qed.

Lemma add_names_distinct (l : list Attribute.t) :
  NoDup (Relation.names r) ->
  (forall a, In a l -> In a (Relation._attributes r)) ->
  forall name_type : list (string * pytype),
    NoDup (map fst name_type ++ map Attribute.name l) ->
    for_loop (HCat.add_name r) name_type (map Attribute.name l)
    = Ok (name_type ++ map (fun a => (Attribute.name a, Attribute.type a)) l).
Proof.
  intros Hr. induction l as [|a l IH]; intros Hl name_type Hnd; cbn [map for_loop].
  - now rewrite app_nil_r.
  - assert (Hfresh : ~ In (Attribute.name a) (map fst name_type)).
    { intros Hin. apply NoDup_app in Hnd as (_ & Hdisj & _).
      apply (Hdisj (Attribute.name a)); [now apply list_elem_of_In|].
      apply list_elem_of_In. now left. }
    rewrite add_name_fresh by exact Hfresh.
    rewrite type_of_own_name by (auto; apply Hl; now left).
    cbn [mbind result_bind]. rewrite IH.
    + now rewrite <- app_assoc.
    + intros b Hb. apply Hl. now right.
    + rewrite map_app, <- app_assoc. exact Hnd.
Qed.

Lemma add_names_duplicate (ns : list string) :
  (forall n, In n ns -> In n (Relation.names r)) ->
  forall name_type : list (string * pytype),
    NoDup (map fst name_type) -> ~ NoDup (map fst name_type ++ ns) ->
    for_loop (HCat.add_name r) name_type ns = Raise TypeError.
Proof.
  induction ns as [|n ns IH]; intros Hns name_type Hnd Hdup; cbn [for_loop].
  - exfalso. apply Hdup. now rewrite app_nil_r.
  - destruct (in_dec string_dec n (map fst name_type)) as [Hn|Hn];
      [now rewrite add_name_seen|].
    rewrite add_name_fresh by exact Hn.
    destruct (type_of_name r n r_indexed (Hns n (or_introl eq_refl))) as [type ->].
    cbn [mbind result_bind]. apply IH.
    + intros m Hm. apply Hns. now right.
    + rewrite map_app. cbn [map fst]. now apply NoDup_snoc.
    + rewrite map_app, <- app_assoc. exact Hdup.
Qed.
End AddingNames.

Lemma add_relations (relations : list Relation.t) :
  Forall indexed relations ->
  forall name_type : list (string * pytype),
    NoDup (map fst name_type) ->
    for_loop HCat.add_relation name_type relations
    = if decide (NoDup (map fst name_type ++ concat (map Relation.names relations)))
      then Ok (name_type ++ map (fun a => (Attribute.name a, Attribute.type a))
                                (concat (map Relation._attributes relations)))
      else Raise TypeError.
Proof.
  induction 1 as [|r relations Hr _ IH]; intros name_type Hnd; cbn [map concat for_loop].
  - rewrite !app_nil_r. now rewrite decide_True.
  - replace (HCat.add_relation name_type r)
      with (for_loop (HCat.add_name r) name_type
                     (map Attribute.name (Relation._attributes r))) by reflexivity.
    destruct (decide (NoDup (map fst name_type ++ Relation.names r))) as [Hfirst|Hfirst].
    + rewrite (add_names_distinct r Hr (Relation._attributes r)); auto.
      2: { apply NoDup_app in Hfirst. tauto. }
      cbn [mbind result_bind]. rewrite IH.
      2: { rewrite map_app, map_map. cbn [fst]. exact Hfirst. }
      rewrite map_app, map_map. cbn [fst]. fold (Relation.names r).
      rewrite <- !app_assoc, <- map_app.
      destruct (decide _); reflexivity.
    + rewrite (add_names_duplicate r Hr) by auto.
      rewrite decide_False; [reflexivity|].
      intros Hall. apply Hfirst. rewrite app_assoc in Hall.
      apply NoDup_app in Hall. tauto.
Qed.

(** X17. [HCat] accepts its inputs exactly when no column name occurs twice
    among all their columns; the output has the columns of the inputs in
    order. One repeated name, in one input or across two, is a
    [TypeError]. *)
Theorem HCat_accepts_distinct_names (r1 r2 : Relation.t) (rest : list Relation.t) :
  Forall indexed (r1 :: r2 :: rest) ->
  let relations := r1 :: r2 :: rest in
  let attributes := concat (map Relation._attributes relations) in
  (NoDup (concat (map Relation.names relations)) ->
   HCat.__init__ r1 r2 rest
   = Ok (HCat.mk attributes (Relation.make_index attributes)
                 (map Relation.__iter__ relations))) /\
  (~ NoDup (concat (map Relation.names relations)) ->
   HCat.__init__ r1 r2 rest = Raise TypeError).
Proof.
  intros Hall relations attributes. unfold HCat.__init__. fold relations.
  rewrite (add_relations relations Hall []) by constructor.
  cbn [map fst app]. split; intros Hnd.
  - rewrite decide_True by exact Hnd. cbn [mbind result_bind].
    fold attributes. rewrite map_map.
    rewrite (map_ext _ id), map_id; [reflexivity|]. now intros [n type].
  - now rewrite decide_False.
Qed.

Lemma HCat_accepts_distinct_names_witness :
  let names := Relation.__init__ [Attribute.mk "Name" Tstr] None [[VStr "Lisa"]] in
  let ages := Relation.__init__ [Attribute.mk "Age" Tint] None [[VInt 8]] in
  HCat.__init__ names ages []
  = Ok (HCat.mk [Attribute.mk "Name" Tstr; Attribute.mk "Age" Tint]
                (Relation.make_index [Attribute.mk "Name" Tstr; Attribute.mk "Age" Tint])
                [[[VStr "Lisa"]]; [[VInt 8]]]) /\
  HCat.__init__ names ages [names] = Raise TypeError.
Proof.
  intros names ages. split.
  - apply (HCat_accepts_distinct_names names ages []);
      [forall_by ltac:(reflexivity)|].
    apply (bool_decide_unpack _). vm_compute. exact I.
  - apply (HCat_accepts_distinct_names names ages [names]);
      [forall_by ltac:(reflexivity)|].
    intros Hnd. apply (bool_decide_pack _) in Hnd. vm_compute in Hnd. exact Hnd.
Defined.

(** X18. [VCat] accepts its inputs exactly when every further input has the
    same set of attributes (name and type) as the first one, in whatever
    order; the output has the columns of the first input and the tuples of
    all inputs end to end. Any other input is a [TypeError]. *)
Theorem VCat_accepts_equal_attribute_sets
        (r1 r2 : Relation.t) (rest : list Relation.t) (fuel : nat) :
  let same := fun r : Relation.t =>
                forall a, In a (Relation._attributes r1) <-> In a (Relation._attributes r) in
  (Forall same (r2 :: rest) ->
   length (concat (map Relation.__iter__ (r1 :: r2 :: rest))) < fuel ->
   exists x : VCat.t,
     VCat.__init__ r1 r2 rest = Ok x /\
     VCat._attributes x = Relation._attributes r1 /\
     drain VCat.__next__ fuel x
     = (concat (map Relation.__iter__ (r1 :: r2 :: rest)), Exhausted)) /\
  (~ Forall same (r2 :: rest) -> VCat.__init__ r1 r2 rest = Raise TypeError).
Proof.
  intros same.
  assert (Hsame : forall r,
             bool_decide ((list_to_set (Relation.attributes r1) : gset Attribute.t)
                          = list_to_set (Relation.attributes r)) = true <-> same r).
  { intros r. rewrite bool_decide_eq_true, set_eq. unfold same, Relation.attributes.
    setoid_rewrite elem_of_list_to_set. setoid_rewrite list_elem_of_In. reflexivity. }
  assert (Hall : forallb (fun r => bool_decide
                                     ((list_to_set (Relation.attributes r1) : gset Attribute.t)
                                      = list_to_set (Relation.attributes r))) (r2 :: rest) = true
                 <-> Forall same (r2 :: rest)).
  { rewrite forallb_forall, List.Forall_forall.
    split; intros H r Hr; apply Hsame, H, Hr. }
  split.
  - intros Hok Hfuel. apply Hall in Hok.
    assert (Hinit : exists x, VCat.__init__ r1 r2 rest = Ok x).
    { unfold VCat.__init__. rewrite Hok. eauto. }
    destruct Hinit as [x Hx]. exists x. split; [exact Hx|].
    now apply (VCat_passes_tuples_through r1 r2 rest).
  - intros Hno. unfold VCat.__init__.
    destruct (forallb _ (r2 :: rest)) eqn:Hb; [|reflexivity].
    exfalso. apply Hno, Hall. reflexivity.
Qed.

Lemma VCat_accepts_equal_attribute_sets_witness :
  let r1 := Relation.__init__ [Attribute.mk "A" Tstr; Attribute.mk "B" Tint] None
              [[VStr "x"; VInt 1]] in
  let r2 := Relation.__init__ [Attribute.mk "B" Tint; Attribute.mk "A" Tstr] None
              [[VInt 2; VStr "y"]] in
  let r3 := Relation.__init__ [Attribute.mk "A" Tstr; Attribute.mk "B" Tstr] None [] in
  (exists x : VCat.t,
      VCat.__init__ r1 r2 [] = Ok x /\
      drain VCat.__next__ 3 x = ([[VStr "x"; VInt 1]; [VInt 2; VStr "y"]], Exhausted)) /\
  VCat.__init__ r1 r3 [] = Raise TypeError.
Proof.
  intros r1 r2 r3. split.
  - destruct (proj1 (VCat_accepts_equal_attribute_sets r1 r2 [] 3)) as (x & Hx & _ & Hd).
    + forall_by ltac:(intros a; simpl; tauto).
    + simpl. lia.
    + exists x. split; [exact Hx | exact Hd].
  - apply (VCat_accepts_equal_attribute_sets r1 r3 [] 0).
    intros Hall. apply Forall_cons in Hall as [Hsame _].
    specialize (Hsame (Attribute.mk "B" Tint)). simpl in Hsame.
    destruct (proj1 Hsame ltac:(auto)) as [H|[H|[]]]; discriminate.
Defined.

Lemma for_loop_raises_only {A S : Type} (f : S -> A -> result S) (e : exn) (xs : list A) :
  Forall (fun x => forall s, (exists s', f s x = Ok s') \/ f s x = Raise e) xs ->
  Exists (fun x => forall s, f s x = Raise e) xs ->
  forall s : S, for_loop f s xs = Raise e.
Proof.
  induction 1 as [|x xs Hx _ IH]; intros Hex s; [inversion Hex|].
  cbn [for_loop]. destruct (Hx s) as [(s' & Hs')|Hs]; [|now rewrite Hs].
  rewrite Hs'. cbn [mbind result_bind]. apply IH.
  apply Exists_cons in Hex as [Hex|Hex]; [|exact Hex].
  rewrite Hex in Hs'. discriminate.
Qed.

(** X19. The join refuses, with a [TypeError] and before it reads a tuple, two
    inputs that have a column name in common under different types. *)
Theorem HashNaturalJoin_rejects_conflicting_types (left right : Relation.t) :
  indexed left ->
  Exists (fun r => exists l, Relation.attribute left (Attribute.name r) = Ok l /\
                             Attribute.type r <> Attribute.type l)
         (Relation._attributes right) ->
  HashNaturalJoin.__init__ left right = Raise TypeError.
Proof.
  intros Hleft Hex. unfold HashNaturalJoin.__init__.
  rewrite for_loop_raises_only with (e := TypeError); [reflexivity| |].
  - apply List.Forall_forall. intros [i r] _ s. unfold HashNaturalJoin.scan_attribute.
    destruct (bool_decide (Attribute.name r ∉ _)) eqn:Hshared; [eauto|].
    apply bool_decide_eq_false in Hshared.
    assert (Hin : In (Attribute.name r) (Relation.names left)).
    { apply list_elem_of_In. apply dec_stable. intros Hn. apply Hshared.
      now rewrite elem_of_list_to_set. }
    destruct (attribute_of_name left _ Hleft Hin) as (j & la & _ & _ & _ & ->).
    cbn [mbind result_bind]. destruct (bool_decide _); eauto.
  - unfold Relation.attributes.
    rewrite <- (enumerate_snd (Relation._attributes right)) in Hex.
    apply List.Exists_exists in Hex as (r & Hr & l & Hl & Htype).
    apply in_map_iff in Hr as ([i r'] & <- & Hin). cbn [snd] in *.
    apply List.Exists_exists. exists (i, r'). split; [exact Hin|].
    intros s. unfold HashNaturalJoin.scan_attribute.
    rewrite bool_decide_eq_false_2.
    + rewrite Hl. cbn [mbind result_bind]. now rewrite bool_decide_eq_true_2.
    + intros Hn. apply Hn. rewrite elem_of_list_to_set, list_elem_of_In.
      destruct (in_dec string_dec (Attribute.name r') (Relation.names left)) as [|Hno];
        [assumption|].
      destruct (unknown_name left _ Hleft Hno) as [_ Hraise]. congruence.
Qed.

Lemma HashNaturalJoin_rejects_conflicting_types_witness :
  HashNaturalJoin.__init__
    (Relation.__init__ [Attribute.mk "Name" Tstr; Attribute.mk "Age" Tint] None [])
    (Relation.__init__ [Attribute.mk "Age" Tfloat] None [[VFloat 8]])
  = Raise TypeError.
Proof.
  apply HashNaturalJoin_rejects_conflicting_types; [reflexivity|].
  left. exists (Attribute.mk "Age" Tint). split; [reflexivity | discriminate].
Defined.

(** ** Sorting: order and errors *)








(** X21. [sort] fails before it compares anything when the key is unusable: an
    empty list of key columns is a [TypeError], and a key name that is not
    in the index is a [KeyError]; both also on a relation without
    tuples. *)
Theorem sort_rejects_unusable_keys (self : InMemoryRelation.t) (reverse : bool) :
  InMemoryRelation.sort self (Some []) reverse = Raise TypeError /\
  forall names : list string,
    Exists (fun n => InMemoryRelation._index self !! n = None) names ->
    InMemoryRelation.sort self (Some names) reverse = Raise KeyError.
Proof.
  split; [reflexivity|]. intros names Hex. unfold InMemoryRelation.sort.
  rewrite (comprehension_raises_only _ KeyError); [reflexivity| |].
  - apply List.Forall_forall. intros n _.
    unfold InMemoryRelation.index, Relation.lookup_index.
    destruct (InMemoryRelation._index self !! n); eauto.
  - eapply List.Exists_impl; [|exact Hex]. cbn beta. intros n Hn.
    unfold InMemoryRelation.index, Relation.lookup_index. now rewrite Hn.
Qed.

Lemma sort_rejects_unusable_keys_witness :
  let r := InMemoryRelation.__init__ [Attribute.mk "Name" Tstr; Attribute.mk "Age" Tint] [] in
  InMemoryRelation.sort r (Some []) false = Raise TypeError /\
  InMemoryRelation.sort r (Some ["Age"; "Height"]) false = Raise KeyError.
Proof.
  intros r. split.
  - apply (sort_rejects_unusable_keys r false).
  - apply (sort_rejects_unusable_keys r false). right. left. reflexivity.
Defined.

(** ** Names, renaming and repeated selection *)

Lemma index_from_last (attributes : list Attribute.t) :
  forall (i0 : nat) (d : gmap string nat) (n : string) (i : nat),
    Relation.index_from i0 attributes d !! n = Some i ->
    forall j b, i < i0 + j -> attributes !! j = Some b -> Attribute.name b <> n.
Proof.
  induction attributes as [|a rest IH]; intros i0 d n i H j b Hj Hb; [discriminate|].
  cbn [Relation.index_from] in H. destruct j as [|j].
  - injection Hb as <-. intros Hn.
    apply index_from_sound in H as [H|(Hle & _)]; [|lia].
    rewrite <- Hn, lookup_insert_eq in H. injection H as <-. lia.
  - apply (IH _ _ _ _ H j b); [lia | exact Hb].
Qed.

(** X22. A relation resolves a column name to the last column that has it: in a
    schema with a repeated name the earlier columns of that name cannot be
    reached by name. A name of no column is a [KeyError]. *)
Theorem index_of_a_repeated_name
        (attributes : list Attribute.t) (itr : list (list Value)) (n : string) :
  let R := Relation.__init__ attributes None itr in
  (In n (map Attribute.name attributes) ->
   exists (i : nat) (a : Attribute.t),
     Relation.index R n = Ok i /\ Relation.attribute R n = Ok a /\
     attributes !! i = Some a /\ Attribute.name a = n /\
     forall j b, i < j -> attributes !! j = Some b -> Attribute.name b <> n) /\
  (~ In n (map Attribute.name attributes) ->
   Relation.index R n = Raise KeyError /\ Relation.attribute R n = Raise KeyError).
Proof.
  intros R. split; intros Hn.
  - destruct (attribute_of_name R n eq_refl Hn) as (i & a & Hi & Ha & Hname & Hattr).
    exists i, a. repeat split; try assumption.
    intros j b Hj Hb. unfold Relation.index, Relation.lookup_index in Hi.
    cbn [R Relation.__init__ Relation._index] in Hi.
    destruct (Relation.make_index attributes !! n) as [i'|] eqn:Hi'; [|discriminate].
    injection Hi as ->.
    apply (index_from_last attributes 0 ∅ n i Hi' j b); [lia | exact Hb].
  - apply (unknown_name R n eq_refl Hn).
Qed.

Lemma index_of_a_repeated_name_witness :
  let R := Relation.__init__ [Attribute.mk "Age" Tstr; Attribute.mk "Age" Tint] None [] in
  Relation.attribute R "Age" = Ok (Attribute.mk "Age" Tint) /\
  Relation.index R "Name" = Raise KeyError.
Proof.
  intros R. split.
  - destruct (proj1 (index_of_a_repeated_name
                       [Attribute.mk "Age" Tstr; Attribute.mk "Age" Tint] [] "Age"))
      as (i & a & _ & Ha & _); [simpl; auto|].
    unfold R. rewrite Ha. vm_compute in Ha. injection Ha as <-. reflexivity.
  - apply (index_of_a_repeated_name
             [Attribute.mk "Age" Tstr; Attribute.mk "Age" Tint] [] "Name").
    simpl. intros [H|[H|[]]]; discriminate.
Defined.

(** X23. When the new names are pairwise distinct, renaming keeps every column
    where it was: the new name of a column resolves to the position its old
    name had, so that a row gives the same value under the new name as the
    input's row under the old one. *)
Theorem Rename_keeps_the_positions
        (R : Relation.t) (substitutions : gmap string string) :
  indexed R ->
  NoDup (Relation.names R) ->
  NoDup (map (fun a => Attribute.name (Rename.rename_attribute substitutions a))
             (Relation._attributes R)) ->
  exists x : Rename.t,
    Rename.__init__ R substitutions = Ok x /\
    forall (a : Attribute.t) (t : list Value),
      In a (Relation._attributes R) ->
      Rename._index x !! Attribute.name (Rename.rename_attribute substitutions a)
      = Relation._index R !! Attribute.name a /\
      Row.__call__ (Row.mk (Rename._index x) t)
                   (Attribute.name (Rename.rename_attribute substitutions a))
      = Row.__call__ (Row.mk (Relation._index R) t) (Attribute.name a).
Proof.
  intros HR Hold Hnew. eexists. split; [reflexivity|].
  intros a t Ha. cbn [Rename._index].
  apply list_elem_of_In, list_elem_of_lookup_1 in Ha as [i Hi].
  assert (Hnew_i : Relation.make_index
                     (map (Rename.rename_attribute substitutions) (Relation._attributes R))
                   !! Attribute.name (Rename.rename_attribute substitutions a) = Some i).
  { apply make_index_position.
    - now rewrite map_map.
    - now rewrite lookup_map, Hi. }
  assert (Hold_i : Relation._index R !! Attribute.name a = Some i)
    by (rewrite HR; now apply make_index_position).
  split; [congruence|].
  now rewrite (Row_call _ _ _ _ Hnew_i), (Row_call _ _ _ _ Hold_i).
Qed.

Lemma Rename_keeps_the_positions_witness :
  let R := Relation.__init__ [Attribute.mk "Name" Tstr; Attribute.mk "Age" Tint] None
             [[VStr "Lisa"; VInt 8]] in
  exists x : Rename.t,
    Rename.__init__ R {["Name" := "Age"; "Age" := "Name"]} = Ok x /\
    Row.__call__ (Row.mk (Rename._index x) [VStr "Lisa"; VInt 8]) "Age" = Ok (VStr "Lisa").
Proof.
  intros R.
  destruct (Rename_keeps_the_positions R {["Name" := "Age"; "Age" := "Name"]})
    as (x & Hx & Hrow).
  - reflexivity.
  - apply (bool_decide_unpack _). vm_compute. exact I.
  - apply (bool_decide_unpack _). vm_compute. exact I.
  - exists x. split; [exact Hx|].
    destruct (Hrow (Attribute.mk "Name" Tstr) [VStr "Lisa"; VInt 8] ltac:(simpl; auto))
      as [_ Hcall].
    exact Hcall.
Defined.

Lemma filter_filter_andb {A : Type} (p q : A -> bool) (l : list A) :
  List.filter q (List.filter p l) = List.filter (fun x => p x && q x) l.
Proof.
  induction l as [|x l IH]; [reflexivity|]. cbn [List.filter].
  destruct (p x) eqn:Hp; cbn [List.filter andb]; [|exact IH].
  destruct (q x); now rewrite IH.
Qed.

Lemma filter_length_le {A : Type} (p : A -> bool) (l : list A) :
  length (List.filter p l) <= length l.
Proof.
  induction l as [|x l IH]; [reflexivity|]. cbn [List.filter].
  destruct (p x); simpl; lia.
Qed.

(** X24. A selection applied to the output of a selection yields what one
    selection by the conjunction of the two predicates yields, under the
    same schema: the second predicate sees the rows under the names of the
    input. *)
Theorem selecting_twice (R : Relation.t) (p q : Row.t -> bool) (fuel : nat) :
  length (Relation.__iter__ R) < fuel ->
  let first := Selection.__init__ R p in
  let second := Selection.__init__
                  (piped (Selection._attributes first) (Selection._index first)
                         (drain Selection.__next__ fuel first)) q in
  let both := Selection.__init__ R (fun r => p r && q r) in
  drain Selection.__next__ fuel second = drain Selection.__next__ fuel both /\
  Selection._attributes second = Selection._attributes both /\
  Selection._index second = Selection._index both.
Proof.
  intros Hfuel first second both. split; [|split; reflexivity].
  unfold second, both, first, Selection.__init__, piped.
  cbn [Relation._attributes Relation._index Relation.__iter__].
  rewrite (Selection_drain _ _ p) by exact Hfuel. cbn [fst].
  rewrite !Selection_drain; [now rewrite filter_filter_andb | exact Hfuel |].
  eapply Nat.le_lt_trans; [apply filter_length_le | exact Hfuel].
Qed.

Lemma selecting_twice_witness :
  let R := Relation.__init__ [Attribute.mk "Name" Tstr; Attribute.mk "Age" Tint] None
             [[VStr "Lisa"; VInt 8]; [VStr "Bart"; VInt 10]; [VStr "Martin"; VInt 10]] in
  let p := fun r : Row.t =>
             match Row.__call__ r "Age" with Ok v => py_eq v (VInt 10) | Raise _ => false end in
  let q := fun r : Row.t =>
             match Row.__call__ r "Name" with
             | Ok v => py_eq v (VStr "Martin")
             | Raise _ => false
             end in
  drain Selection.__next__ 4
        (Selection.__init__
           (piped (Relation._attributes R) (Relation._index R)
                  (drain Selection.__next__ 4 (Selection.__init__ R p))) q)
  = ([[VStr "Martin"; VInt 10]], Exhausted).
Proof.
  intros R p q.
  destruct (selecting_twice R p q 4 ltac:(simpl; lia)) as [H _].
  cbv zeta in H. cbn [Selection._attributes Selection._index Selection.__init__] in H.
  rewrite H. vm_compute. reflexivity.
Defined.
